(** * The offline upload queue of I'm Emo Now

    A shallow embedding of [utils/database.ts] (the [upload_queue],
    [sessions] and [settings] tables and their access functions),
    [utils/device.ts], the two transfer functions of [utils/api.ts],
    [utils/uploadQueue.ts] (class [UploadQueue]) and the handler of the
    history screen that retries the failed uploads, followed by the
    properties of the store, of the queue engine and of its callers.

    Conventions of the embedding.
    - The SQLite table is a list of rows in rowid order.
    - Every asynchronous store call takes a [Fault]: [None] when SQLite
      performs the statement, [Some m] when the call rejects with
      [Error(m)] (a missing database handle in [getDatabase], an I/O error).
    - JavaScript objects are references: [heap] holds the objects, the
      [Map] of the class holds locations.  A row object returned by a query
      is allocated when the engine first stores a reference to it.
    - [Date.now()], connectivity and transfer responses are supplied by the
      environment as arguments.  [NetInfo.fetch()] and the two transfer
      functions always resolve (the latter catch their own exceptions).
    - An [async] method is cut at its [await]s.  The pieces are composed in
      two ways: run back to back ([processItem], [processQueue],
      [addToQueue], [initialize]), and interleaved with other calls by the
      machine of the section on interleaved executions, in which a store
      call takes effect when the call awaiting it is resumed.

    Layout: the embedding; the data and predicates of the statements; the
    properties. *)

From Stdlib Require Import String ZArith List Bool Lia Arith QArith.
From Stdlib Require Import DecimalString Permutation Sorted.
Import ListNotations.
Open Scope string_scope.
Open Scope list_scope.
Open Scope Z_scope.

(* ================================================================== *)
(** * database.ts *)
(* ================================================================== *)

(** [UploadQueueRecord['status']] *)
Inductive Status : Type := pending | uploading | completed | failed.

Definition Status_eqb (a b : Status) : bool :=
  match a, b with
  | pending, pending | uploading, uploading
  | completed, completed | failed, failed => true
  | _, _ => false
  end.

(** [interface UploadQueueRecord].  [retry_count] is a natural number: the
    column is written with 0 on insert and with an incremented value after
    a failed attempt. *)
Record UploadQueueRecord : Type := mkRecord {
  id : string;
  session_id : string;
  timestamp : string;
  emotion_score : Z;
  latitude : option Q;
  longitude : option Q;
  video_uri : option string;
  status : Status;
  retry_count : nat;
  error_message : option string;
  created_at : Z;
  next_retry_at : Z;
  uploaded_at : option Z
}.

Definition with_status (s : Status) (r : UploadQueueRecord) :=
  mkRecord (id r) (session_id r) (timestamp r) (emotion_score r) (latitude r)
    (longitude r) (video_uri r) s (retry_count r) (error_message r)
    (created_at r) (next_retry_at r) (uploaded_at r).

Definition with_retry_count (n : nat) (r : UploadQueueRecord) :=
  mkRecord (id r) (session_id r) (timestamp r) (emotion_score r) (latitude r)
    (longitude r) (video_uri r) (status r) n (error_message r)
    (created_at r) (next_retry_at r) (uploaded_at r).

Definition with_error_message (m : option string) (r : UploadQueueRecord) :=
  mkRecord (id r) (session_id r) (timestamp r) (emotion_score r) (latitude r)
    (longitude r) (video_uri r) (status r) (retry_count r) m
    (created_at r) (next_retry_at r) (uploaded_at r).

Definition with_next_retry_at (t : Z) (r : UploadQueueRecord) :=
  mkRecord (id r) (session_id r) (timestamp r) (emotion_score r) (latitude r)
    (longitude r) (video_uri r) (status r) (retry_count r) (error_message r)
    (created_at r) t (uploaded_at r).

Definition with_uploaded_at (t : option Z) (r : UploadQueueRecord) :=
  mkRecord (id r) (session_id r) (timestamp r) (emotion_score r) (latitude r)
    (longitude r) (video_uri r) (status r) (retry_count r) (error_message r)
    (created_at r) (next_retry_at r) t.

(** Outcome of a store call. *)
Definition Fault := option string.

Inductive Result (A : Type) : Type :=
| Resolved (a : A)
| Rejected (message : string).
Arguments Resolved {A} a.
Arguments Rejected {A} message.

(** The [upload_queue] table, [id TEXT PRIMARY KEY]. *)
Definition Table := list UploadQueueRecord.

Definition has_id (k : string) (t : Table) : bool :=
  existsb (fun r => String.eqb (id r) k) t.

Definition find_id (k : string) (t : Table) : option UploadQueueRecord :=
  find (fun r => String.eqb (id r) k) t.

Definition unique_violation : string :=
  "UNIQUE constraint failed: upload_queue.id".

(** [addToUploadQueue]: the INSERT names every column but [uploaded_at],
    which is therefore NULL in the new row. *)
Definition addToUploadQueue (fault : Fault) (record : UploadQueueRecord)
    (t : Table) : Result Table :=
  match fault with
  | Some m => Rejected m
  | None =>
      if has_id (id record) t then Rejected unique_violation
      else Resolved (t ++ [with_uploaded_at None record])
  end.

(** [ORDER BY created_at ASC]: a stable insertion sort, rows with equal
    keys stay in rowid order. *)
Fixpoint insert_by_created_at (r : UploadQueueRecord) (l : list UploadQueueRecord)
    : list UploadQueueRecord :=
  match l with
  | [] => [r]
  | x :: l' =>
      if created_at r <=? created_at x then r :: l
      else x :: insert_by_created_at r l'
  end.

Definition order_by_created_at (l : list UploadQueueRecord) :=
  fold_right insert_by_created_at [] l.

(** [WHERE status IN ('pending', 'failed')] *)
Definition is_pending_or_failed (r : UploadQueueRecord) : bool :=
  match status r with
  | pending | failed => true
  | _ => false
  end.

(** [getPendingUploads(limit?, offset = 0)]: [LIMIT ? OFFSET ?] is added only
    when [limit] is truthy. *)
Definition getPendingUploads (fault : Fault) (limit : option nat) (offset : nat)
    (t : Table) : Result (list UploadQueueRecord) :=
  match fault with
  | Some m => Rejected m
  | None =>
      let rows := order_by_created_at (filter is_pending_or_failed t) in
      match limit with
      | None | Some O => Resolved rows
      | Some n => Resolved (firstn n (skipn offset rows))
      end
  end.

(** The SET clause built by [updateUploadQueueStatus]. *)
Definition apply_update (s : Status) (retryCount : option nat)
    (errorMessage : option (option string)) (now : Z)
    (r : UploadQueueRecord) : UploadQueueRecord :=
  let r1 := with_status s r in
  let r2 := match retryCount with
            | Some n => with_retry_count n r1
            | None => r1
            end in
  let r3 := match errorMessage with
            | Some m => with_error_message m r2
            | None => r2
            end in
  match s with
  | completed => with_uploaded_at (Some now) r3
  | _ => r3
  end.

(** [updateUploadQueueStatus(id, status, retryCount?, errorMessage?)];
    [now] is the value of [Date.now()] read for [uploaded_at]. *)
Definition updateUploadQueueStatus (fault : Fault) (k : string) (s : Status)
    (retryCount : option nat) (errorMessage : option (option string))
    (now : Z) (t : Table) : Result Table :=
  match fault with
  | Some m => Rejected m
  | None =>
      Resolved (map (fun r => if String.eqb (id r) k
                              then apply_update s retryCount errorMessage now r
                              else r) t)
  end.

(** [removeFromUploadQueue(id)] *)
Definition removeFromUploadQueue (fault : Fault) (k : string) (t : Table)
    : Result Table :=
  match fault with
  | Some m => Rejected m
  | None => Resolved (filter (fun r => negb (String.eqb (id r) k)) t)
  end.

(** [database.execAsync('DELETE FROM upload_queue;')] *)
Definition deleteAll (fault : Fault) (t : Table) : Result Table :=
  match fault with
  | Some m => Rejected m
  | None => Resolved []
  end.

(** [getUploadQueueItem(id)]: the first row with the id, [null] when there
    is none. *)
Definition getUploadQueueItem (fault : Fault) (k : string) (t : Table)
    : Result (option UploadQueueRecord) :=
  match fault with
  | Some m => Rejected m
  | None => Resolved (find_id k t)
  end.

(** The object returned by [getUploadQueueStats()]. *)
Record UploadQueueStats : Type := mkStats {
  stats_pending : nat;
  stats_uploading : nat;
  stats_completed : nat;
  stats_failed : nat;
  stats_total : nat
}.

(** [COUNT(CASE WHEN status = s THEN 1 END)] *)
Definition count_status (s : Status) (t : Table) : nat :=
  length (filter (fun r => Status_eqb (status r) s) t).

(** [getUploadQueueStats()].  An aggregate query without GROUP BY returns
    one row on every table, so the fallback after [||] is never taken. *)
Definition getUploadQueueStats (fault : Fault) (t : Table)
    : Result UploadQueueStats :=
  match fault with
  | Some m => Rejected m
  | None =>
      Resolved (mkStats (count_status pending t) (count_status uploading t)
                  (count_status completed t) (count_status failed t)
                  (length t))
  end.

(** [clearCompletedUploads()] *)
Definition clearCompletedUploads (fault : Fault) (t : Table) : Result Table :=
  match fault with
  | Some m => Rejected m
  | None => Resolved (filter (fun r => negb (Status_eqb (status r) completed)) t)
  end.

(** ** Sessions *)

(** [interface Session].  The fields carry a prefix where the name is that
    of a column of [upload_queue].  The [timestamp] column is declared
    DATETIME, so SQLite keeps a value as the text that was bound unless it
    reads as a number; the callers bind [new Date().toISOString()].  The
    rows of the model are rows held as text (see [kept_as_text]). *)
Record Session : Type := mkSession {
  sess_id : nat;
  sess_timestamp : string;
  sess_emotion_score : Z;
  sess_latitude : option Q;
  sess_longitude : option Q;
  video_filename : option string
}.

(** [Omit<Session, 'id'>], the argument of [insertSession]. *)
Record SessionData : Type := mkSessionData {
  data_timestamp : string;
  data_emotion_score : Z;
  data_latitude : option Q;
  data_longitude : option Q;
  data_video_filename : option string
}.

(** The [sessions] table, [id INTEGER PRIMARY KEY AUTOINCREMENT]: its rows
    in rowid order, and the largest rowid it has ever held, which SQLite
    keeps for such a table and never lowers. *)
Record Sessions : Type := mkSessions {
  session_rows : list Session;
  largest_rowid : nat
}.

(** The row that the INSERT of [insertSession] writes under [rowid]. *)
Definition session_of (rowid : nat) (session : SessionData) : Session :=
  mkSession rowid (data_timestamp session) (data_emotion_score session)
    (data_latitude session) (data_longitude session)
    (data_video_filename session).

(** [insertSession(session)]: resolves with [result.lastInsertRowId]. *)
Definition insertSession (fault : Fault) (session : SessionData) (t : Sessions)
    : Result (Sessions * nat) :=
  match fault with
  | Some m => Rejected m
  | None =>
      let rowid := S (largest_rowid t) in
      Resolved (mkSessions (session_rows t ++ [session_of rowid session]) rowid,
                rowid)
  end.

(** [ORDER BY timestamp DESC] on values held as text, which SQLite compares
    byte by byte: a stable insertion sort. *)
Fixpoint insert_by_timestamp_desc (r : Session) (l : list Session) : list Session :=
  match l with
  | [] => [r]
  | x :: l' =>
      if String.leb (sess_timestamp x) (sess_timestamp r) then r :: l
      else x :: insert_by_timestamp_desc r l'
  end.

Definition order_by_timestamp_desc (l : list Session) : list Session :=
  fold_right insert_by_timestamp_desc [] l.

(** [getAllSessions()] *)
Definition getAllSessions (fault : Fault) (t : Sessions) : Result (list Session) :=
  match fault with
  | Some m => Rejected m
  | None => Resolved (order_by_timestamp_desc (session_rows t))
  end.

(** [getSessionsByDateRange(startDate, endDate)]:
    [WHERE timestamp BETWEEN ? AND ?]. *)
Definition getSessionsByDateRange (fault : Fault) (startDate endDate : string)
    (t : Sessions) : Result (list Session) :=
  match fault with
  | Some m => Rejected m
  | None =>
      Resolved (order_by_timestamp_desc
                  (filter (fun r => String.leb startDate (sess_timestamp r)
                                    && String.leb (sess_timestamp r) endDate)
                     (session_rows t)))
  end.

(** [deleteSession(id)] *)
Definition deleteSession (fault : Fault) (k : nat) (t : Sessions) : Result Sessions :=
  match fault with
  | Some m => Rejected m
  | None =>
      Resolved (mkSessions (filter (fun r => negb (sess_id r =? k)%nat) (session_rows t))
                  (largest_rowid t))
  end.

(** [getSessionCount()]: [result?.count || 0]. *)
Definition getSessionCount (fault : Fault) (t : Sessions) : Result nat :=
  match fault with
  | Some m => Rejected m
  | None => Resolved (length (session_rows t))
  end.

(** [clearAllSessions()] *)
Definition clearAllSessions (fault : Fault) (t : Sessions) : Result Sessions :=
  match fault with
  | Some m => Rejected m
  | None => Resolved (mkSessions [] (largest_rowid t))
  end.

(** ** Settings *)

(** [interface Settings] *)
Record Settings : Type := mkSettings {
  settings_id : nat;
  notification_time_1 : string;
  notification_time_2 : string;
  notification_time_3 : string;
  notifications_enabled : Z
}.

(** [Partial<Omit<Settings, 'id'>>]: [None] for a member that is
    [undefined]. *)
Record SettingsPatch : Type := mkPatch {
  patch_time_1 : option string;
  patch_time_2 : option string;
  patch_time_3 : option string;
  patch_enabled : option Z
}.

(** [getSettings()]: the row with id 1, [null] when there is none. *)
Definition getSettings (fault : Fault) (t : list Settings)
    : Result (option Settings) :=
  match fault with
  | Some m => Rejected m
  | None => Resolved (find (fun r => (settings_id r =? 1)%nat) t)
  end.

(** The SET clause built by [updateSettings]. *)
Definition apply_patch (p : SettingsPatch) (r : Settings) : Settings :=
  mkSettings (settings_id r)
    (match patch_time_1 p with Some v => v | None => notification_time_1 r end)
    (match patch_time_2 p with Some v => v | None => notification_time_2 r end)
    (match patch_time_3 p with Some v => v | None => notification_time_3 r end)
    (match patch_enabled p with Some v => v | None => notifications_enabled r end).

(** [updates.length > 0] *)
Definition patches_something (p : SettingsPatch) : bool :=
  match patch_time_1 p, patch_time_2 p, patch_time_3 p, patch_enabled p with
  | None, None, None, None => false
  | _, _, _, _ => true
  end.

(** [updateSettings(settings)].  [handle] is the outcome of
    [getDatabase()], [fault] that of the UPDATE, which is issued only when
    some member is defined. *)
Definition updateSettings (handle fault : Fault) (p : SettingsPatch)
    (t : list Settings) : Result (list Settings) :=
  match handle with
  | Some m => Rejected m
  | None =>
      if patches_something p
      then match fault with
           | Some m => Rejected m
           | None =>
               Resolved (map (fun r => if (settings_id r =? 1)%nat
                                       then apply_patch p r else r) t)
           end
      else Resolved t
  end.

(** ** The database file *)

(** The three tables; [None] for a table that does not exist yet. *)
Record Database : Type := mkDatabase {
  sessions : option Sessions;
  settings : option (list Settings);
  upload_queue : option Table
}.

(** [CREATE TABLE IF NOT EXISTS] *)
Definition create_if_not_exists {A : Type} (empty : A) (t : option A) : A :=
  match t with
  | Some rows => rows
  | None => empty
  end.

(** The row that [initDatabase] inserts into an empty [settings] table. *)
Definition default_settings : Settings :=
  mkSettings 1 "09:00" "14:00" "20:00" 1.

(** [initDatabase()] when every statement is performed. *)
Definition initDatabase (d : Database) : Database :=
  let sessions' := create_if_not_exists (mkSessions [] 0) (sessions d) in
  let settings' := create_if_not_exists [] (settings d) in
  let upload_queue' := create_if_not_exists [] (upload_queue d) in
  mkDatabase (Some sessions')
    (Some (if (length settings' =? 0)%nat
           then settings' ++ [default_settings]
           else settings'))
    (Some upload_queue').

(* ================================================================== *)
(** * api.ts: what a transfer function returns *)
(* ================================================================== *)

(** [interface UploadResponse]; [uploadSessionMetadata] and [uploadVideoFile]
    catch every exception and always resolve with such a value. *)
Record UploadResponse : Type := mkResponse {
  success : bool;
  error : option string
}.

(** JavaScript truthiness of a [string | null | undefined]. *)
Definition truthy (s : option string) : bool :=
  match s with
  | Some s' => negb (String.eqb s' "")
  | None => false
  end.

(** [s || fallback] *)
Definition or_else (s : option string) (fallback : string) : string :=
  match s with
  | Some s' => if String.eqb s' "" then fallback else s'
  | None => fallback
  end.

(* ================================================================== *)
(** * device.ts *)
(* ================================================================== *)

Definition DEVICE_ID_KEY : string := "emo_now_device_id".

(** [AsyncStorage]: the keys that are set, each with its value.  A call
    that rejects has no effect. *)
Definition Storage := list (string * string).

Fixpoint getItem (k : string) (s : Storage) : option string :=
  match s with
  | [] => None
  | (k', v) :: s' => if String.eqb k' k then Some v else getItem k s'
  end.

Definition removeItem (k : string) (s : Storage) : Storage :=
  filter (fun kv => negb (String.eqb (fst kv) k)) s.

Definition setItem (k v : string) (s : Storage) : Storage :=
  (k, v) :: removeItem k s.

(** [getOrCreateDeviceId()].  [getFault] and [setFault] are the outcomes of
    the two storage calls; [uuidv4 n] is what the [n]-th call of [uuidv4()]
    made by this invocation returns.  The [catch] block returns a fresh id
    that is not stored. *)
Definition getOrCreateDeviceId (getFault setFault : Fault)
    (uuidv4 : nat -> string) (s : Storage) : Storage * string :=
  match getFault with
  | Some _ => (s, uuidv4 0%nat)
  | None =>
      let created :=
        let newDeviceId := uuidv4 0%nat in
        match setFault with
        | Some _ => (s, uuidv4 1%nat)
        | None => (setItem DEVICE_ID_KEY newDeviceId s, newDeviceId)
        end in
      match getItem DEVICE_ID_KEY s with
      | Some existingId =>
          if String.eqb existingId "" then created else (s, existingId)
      | None => created
      end
  end.

(** [getDeviceId()]: [null] when nothing is stored or the read rejects. *)
Definition getDeviceId (fault : Fault) (s : Storage) : option string :=
  match fault with
  | Some _ => None
  | None => getItem DEVICE_ID_KEY s
  end.

(** [clearDeviceId()]: a rejection is logged and dropped. *)
Definition clearDeviceId (fault : Fault) (s : Storage) : Storage :=
  match fault with
  | Some _ => s
  | None => removeItem DEVICE_ID_KEY s
  end.

(* ================================================================== *)
(** * api.ts: the transfer functions *)
(* ================================================================== *)

(** What the functions read of the [Response] that [fetch] resolves to:
    [ok], [status], and the outcome of [json()].  Of a parsed body only the
    [detail] member is inspected: [Resolved d] carries that member as a
    template literal renders it, [None] when it is absent or falsy. *)
Record Response : Type := mkHttp {
  ok : bool;
  http_status : nat;
  json : Result (option string)
}.

(** [`HTTP ${response.status}: ${errorData.detail || 'Unknown error'}`],
    where [errorData] is [{}] when [response.json()] rejects. *)
Definition http_error (response : Response) : string :=
  let detail := match json response with
                | Resolved d => d
                | Rejected _ => None
                end in
  "HTTP " ++ NilZero.string_of_uint (Nat.to_uint (http_status response))
    ++ ": " ++ or_else detail "Unknown error".

(** The statements of the [try] block that follow [await fetch(...)], the
    same in both functions: [Rejected m] when [Error(m)] is thrown. *)
Definition check_response (fetched : Result Response) : Result unit :=
  match fetched with
  | Rejected m => Rejected m
  | Resolved response =>
      if negb (ok response) then Rejected (http_error response)
      else match json response with
           | Rejected m => Rejected m
           | Resolved _ => Resolved tt
           end
  end.

(** The two [return] statements, of the [try] block and of the [catch]
    block. *)
Definition upload_response (r : Result unit) : UploadResponse :=
  match r with
  | Resolved _ => mkResponse true None
  | Rejected m => mkResponse false (Some m)
  end.

(** [uploadSessionMetadata(...)]; the arguments only shape the request.
    [storageFault] is the outcome of the storage read of [getDeviceId()],
    [fetched] that of [fetch], which is not called without a device id. *)
Definition uploadSessionMetadata (storageFault : Fault) (s : Storage)
    (fetched : Result Response) : UploadResponse :=
  upload_response
    (if truthy (getDeviceId storageFault s) then check_response fetched
     else Rejected "Device ID not found").

(** [uploadVideoFile(sessionId, videoUri)] *)
Definition uploadVideoFile (fetched : Result Response) : UploadResponse :=
  upload_response (check_response fetched).

(* ================================================================== *)
(** * uploadQueue.ts: class UploadQueue *)
(* ================================================================== *)

Definition maxRetries : nat := 3.
Definition retryDelayMs : Z := 5000.
Definition BATCH_SIZE : nat := 5.

(** The fields of the singleton, together with the table it persists to and
    the heap of record objects its [Map] refers to.  [listeners] counts the
    callbacks subscribed with [NetInfo.addEventListener]; [networkListener]
    tells whether the class still holds an unsubscribe handle; [retryTimer]
    is the delay of the armed [setTimeout], [None] for [null]. *)
Record State : Type := mkState {
  db : Table;
  heap : list UploadQueueRecord;
  queue : list (string * nat);
  isProcessing : bool;
  networkListener : bool;
  listeners : nat;
  retryTimer : option Z
}.

Definition with_db (t : Table) (st : State) :=
  mkState t (heap st) (queue st) (isProcessing st) (networkListener st)
    (listeners st) (retryTimer st).

Definition with_heap (h : list UploadQueueRecord) (st : State) :=
  mkState (db st) h (queue st) (isProcessing st) (networkListener st)
    (listeners st) (retryTimer st).

Definition with_queue (q : list (string * nat)) (st : State) :=
  mkState (db st) (heap st) q (isProcessing st) (networkListener st)
    (listeners st) (retryTimer st).

Definition with_isProcessing (b : bool) (st : State) :=
  mkState (db st) (heap st) (queue st) b (networkListener st)
    (listeners st) (retryTimer st).

Definition with_retryTimer (t : option Z) (st : State) :=
  mkState (db st) (heap st) (queue st) (isProcessing st) (networkListener st)
    (listeners st) t.

Definition with_listener (handle : bool) (n : nat) (st : State) :=
  mkState (db st) (heap st) (queue st) (isProcessing st) handle n
    (retryTimer st).

(** A fresh singleton over the table found on disk. *)
Definition boot (t : Table) : State :=
  mkState t [] [] false false 0%nat None.

(** ** The [Map<string, UploadQueueRecord>] *)

Fixpoint map_get (k : string) (m : list (string * nat)) : option nat :=
  match m with
  | [] => None
  | (k', v) :: m' => if String.eqb k' k then Some v else map_get k m'
  end.

(** [Map.set] keeps the position of a key that is already present. *)
Fixpoint map_set (k : string) (v : nat) (m : list (string * nat))
    : list (string * nat) :=
  match m with
  | [] => [(k, v)]
  | (k', v') :: m' =>
      if String.eqb k' k then (k, v) :: m' else (k', v') :: map_set k v m'
  end.

Definition map_delete (k : string) (m : list (string * nat))
    : list (string * nat) :=
  filter (fun kv => negb (String.eqb (fst kv) k)) m.

(** ** Objects *)

(** A location is the index of an object in [heap].  Objects are never
    freed, so the [None] case of a lookup below stands for a dangling
    reference, which does not arise (see [pass_ok]). *)

(** In-place mutation of the object at location [l]. *)
Fixpoint mutate (l : nat) (f : UploadQueueRecord -> UploadQueueRecord)
    (h : list UploadQueueRecord) : list UploadQueueRecord :=
  match h, l with
  | [], _ => []
  | r :: h', O => f r :: h'
  | r :: h', S l' => r :: mutate l' f h'
  end.

(** Allocation of an object followed by [this.queue.set(r.id, r)]. *)
Definition attach (r : UploadQueueRecord) (st : State) : nat * State :=
  let l := length (heap st) in
  (l, with_queue (map_set (id r) l (queue st)) (with_heap (heap st ++ [r]) st)).

(** ** Readers *)

(** [getQueueItems()] *)
Definition getQueueItems (st : State) : list UploadQueueRecord :=
  flat_map (fun kv => match nth_error (heap st) (snd kv) with
                      | Some r => [r]
                      | None => []
                      end) (queue st).

(** [getQueueItem(id)] *)
Definition getQueueItem (k : string) (st : State) : option UploadQueueRecord :=
  match map_get k (queue st) with
  | Some l => nth_error (heap st) l
  | None => None
  end.

(** [getPendingCount()] *)
Definition getPendingCount (st : State) : nat :=
  length (filter is_pending_or_failed (getQueueItems st)).

(** ** Private helpers *)

(** [updateItemStatus(id, status, errorMessage?)]: touches the object the
    [Map] holds under [id], and nothing else. *)
Definition updateItemStatus (k : string) (s : Status)
    (errorMessage : option string) (st : State) : State :=
  match map_get k (queue st) with
  | Some l =>
      with_heap
        (mutate l (fun item =>
                     let item' := with_status s item in
                     if truthy errorMessage
                     then with_error_message errorMessage item'
                     else item')
           (heap st)) st
  | None => st
  end.

(** [scheduleQueueProcessing(delay)]: the previous timer, if any, is
    cleared and replaced. *)
Definition scheduleQueueProcessing (delay : Z) (st : State) : State :=
  with_retryTimer (Some delay) st.

(** ** processItem, cut at its [await]s *)

(** How a call of [processItem] ends, as its last log line tells:
    'Network not available, skipping item', 'Max retries exceeded for item'
    on entry, 'Successfully uploaded item', or 'Error processing item'
    with the message of the error caught. *)
Inductive Outcome : Type :=
| Skipped
| Exhausted
| Uploaded
| Failed (errorMessage : string).

(** From the entry of [processItem] to [await Promise.all(uploadPromises)],
    given what [NetInfo.fetch()] resolved to: [Some o] when the method
    returns early, [None] when the uploads were started. *)
Definition processItem_start (isConnected : bool) (item : nat) (st : State)
    : State * option Outcome :=
  match nth_error (heap st) item with
  | None => (st, Some Skipped)
  | Some it =>
      if negb isConnected then (st, Some Skipped)
      else if (maxRetries <=? retry_count it)%nat
           then (updateItemStatus (id it) failed None st, Some Exhausted)
           else (updateItemStatus (id it) uploading None st, None)
  end.

(** The two checks that follow [Promise.all]: [Some m] when one of them
    throws [Error(m)].  The video response exists exactly when
    [item.video_uri] is truthy. *)
Definition responseError (it : UploadQueueRecord)
    (metadataResponse videoResponse : UploadResponse) : option string :=
  if negb (success metadataResponse)
  then Some (or_else (error metadataResponse) "Failed to upload metadata")
  else if truthy (video_uri it) && negb (success videoResponse)
       then Some (or_else (error videoResponse) "Failed to upload video")
       else None.

(** From the resolution of [Promise.all] to the next [await]: either an
    error is thrown, or the item is dropped from the [Map] and the write of
    ['completed'] is issued. *)
Definition processItem_settled (metadataResponse videoResponse : UploadResponse)
    (item : nat) (st : State) : State * option string :=
  match nth_error (heap st) item with
  | None => (st, None)
  | Some it =>
      match responseError it metadataResponse videoResponse with
      | Some m => (st, Some m)
      | None => (with_queue (map_delete (id it) (queue st)) st, None)
      end
  end.

(** [await updateUploadQueueStatus(item.id, 'completed')], inside the [try];
    [now] is the clock the call read when it was issued. *)
Definition processItem_completed (fault : Fault) (now : Z) (item : nat)
    (st : State) : State * option string :=
  match nth_error (heap st) item with
  | None => (st, None)
  | Some it =>
      match updateUploadQueueStatus fault (id it) completed None None now (db st) with
      | Resolved t => (with_db t st, None)
      | Rejected m => (st, Some m)
      end
  end.

(** [retryDelayMs * Math.pow(2, retry_count - 1)], used with
    [retry_count >= 1]. *)
Definition backoff (retry_count : nat) : Z :=
  retryDelayMs * 2 ^ Z.of_nat (retry_count - 1).

(** The [catch] block up to its [await]: the count is incremented on the
    [item] object, the status is set through the [Map], and when a retry is
    left the delay is computed and [item.next_retry_at] set.  Returns the
    delay of the retry, if any. *)
Definition processItem_catch (errorMessage : string) (now : Z) (item : nat)
    (st : State) : State * option Z :=
  match nth_error (heap st) item with
  | None => (st, None)
  | Some it =>
      let n := S (retry_count it) in
      let st1 := with_heap (mutate item (with_retry_count n) (heap st)) st in
      let st2 := updateItemStatus (id it) failed (Some errorMessage) st1 in
      if (n <? maxRetries)%nat
      then let delay := backoff n in
           (with_heap (mutate item (with_next_retry_at (now + delay)) (heap st2)) st2,
            Some delay)
      else (st2, None)
  end.

(** [await updateUploadQueueStatus(item.id, 'failed', item.retry_count,
    errorMessage).catch(...)], then [scheduleQueueProcessing(delay)] in the
    branch that retries.  A rejected write is logged and dropped. *)
Definition processItem_persist (fault : Fault) (errorMessage : string)
    (delay : option Z) (item : nat) (st : State) : State :=
  match nth_error (heap st) item with
  | None => st
  | Some it =>
      let st1 :=
        match updateUploadQueueStatus fault (id it) failed
                (Some (retry_count it)) (Some (Some errorMessage)) 0 (db st) with
        | Resolved t => with_db t st
        | Rejected _ => st
        end in
      match delay with
      | Some d => scheduleQueueProcessing d st1
      | None => st1
      end
  end.

(** What the environment answers during one call of [processItem]. *)
Record Attempt : Type := mkAttempt {
  isConnected : bool;       (* NetInfo.fetch() *)
  metadataResponse : UploadResponse;
  videoResponse : UploadResponse;
  settledAt : Z;            (* Date.now() once Promise.all has resolved: read
                               by the write of 'completed' when it is issued,
                               or by the catch block when a check throws *)
  completedFault : Fault;   (* the write of 'completed' *)
  rejectedAt : Z;           (* Date.now() in the catch block entered because
                               that write was rejected *)
  failedFault : Fault       (* the write of 'failed' *)
}.

(** The [catch] block, entered at clock [now]. *)
Definition processItem_failure (now : Z) (fault : Fault) (errorMessage : string)
    (item : nat) (st : State) : State * Outcome :=
  let (st1, delay) := processItem_catch errorMessage now item st in
  (processItem_persist fault errorMessage delay item st1,
   Failed errorMessage).

(** [processItem(item)] run from entry to return. *)
Definition processItem (a : Attempt) (item : nat) (st : State) : State * Outcome :=
  match processItem_start (isConnected a) item st with
  | (st1, Some o) => (st1, o)
  | (st1, None) =>
      match processItem_settled (metadataResponse a) (videoResponse a) item st1 with
      | (st2, Some m) =>
          processItem_failure (settledAt a) (failedFault a) m item st2
      | (st2, None) =>
          match processItem_completed (completedFault a) (settledAt a) item st2 with
          | (st3, Some m) =>
              processItem_failure (rejectedAt a) (failedFault a) m item st3
          | (st3, None) => (st3, Uploaded)
          end
      end
  end.

(** ** processQueue, run from entry to return *)

(** What the environment answers during one pass: [Date.now()] at its
    entry, the outcome of the page query at each offset, and the answers
    given while the item with a given id is processed. *)
Record PassEnv : Type := mkPassEnv {
  passNow : Z;
  pageFault : nat -> Fault;
  attempt : string -> Attempt
}.

(** [dbItems.filter((dbItem) => dbItem.next_retry_at <= now)] *)
Definition itemsToProcess (now : Z) (dbItems : list UploadQueueRecord) :=
  filter (fun dbItem => next_retry_at dbItem <=? now) dbItems.

(** The [for ... of itemsToProcess] loop. *)
Fixpoint processItems (env : PassEnv) (items : list UploadQueueRecord)
    (st : State) : State :=
  match items with
  | [] => st
  | dbItem :: rest =>
      let (item, st1) := attach dbItem st in
      processItems env rest (fst (processItem (attempt env (id dbItem)) item st1))
  end.

(** The [while (hasMoreItems)] loop.  [None]: the fuel ran out; otherwise
    the state when the loop is left, by [break] or by the exception of a
    rejected page query. *)
Fixpoint processPages (fuel : nat) (env : PassEnv) (offset : nat) (st : State)
    : option State :=
  match fuel with
  | O => None
  | S fuel' =>
      match getPendingUploads (pageFault env offset) (Some BATCH_SIZE) offset (db st) with
      | Rejected _ => Some st
      | Resolved [] => Some st
      | Resolved dbItems =>
          processPages fuel' env (offset + BATCH_SIZE)
            (processItems env (itemsToProcess (passNow env) dbItems) st)
      end
  end.

(** [processQueue()]: the guard, the loop, and the [finally]. *)
Definition processQueue (fuel : nat) (env : PassEnv) (st : State) : option State :=
  if isProcessing st then Some st
  else option_map (with_isProcessing false)
         (processPages fuel env 0 (with_isProcessing true st)).

(** The guard and first statement of [processQueue()], as executed by a
    caller that does not await it: [true] when a pass was started. *)
Definition processQueue_enter (st : State) : State * bool :=
  if isProcessing st then (st, false) else (with_isProcessing true st, true).

(** ** Public methods, cut at their [await]s *)

(** The argument of [addToQueue]: a record without the fields the queue
    fills in. *)
Record QueueInput : Type := mkInput {
  in_id : string;
  in_session_id : string;
  in_timestamp : string;
  in_emotion_score : Z;
  in_latitude : option Q;
  in_longitude : option Q;
  in_video_uri : option string
}.

Definition queueItem_of (item : QueueInput) (now : Z) : UploadQueueRecord :=
  mkRecord (in_id item) (in_session_id item) (in_timestamp item)
    (in_emotion_score item) (in_latitude item) (in_longitude item)
    (in_video_uri item) pending 0%nat None now 0 None.

(** [addToQueue] up to [await addToUploadQueue(queueItem)]: the item is
    built and put in the [Map]. *)
Definition addToQueue_begin (item : QueueInput) (now : Z) (st : State) : State :=
  snd (attach (queueItem_of item now) st).

(** [addToQueue] after the insert has settled.  [Rejected]: the [catch]
    block has removed the id from the [Map] and rethrown.  [Resolved]: the
    method goes on to call [this.processQueue()] and returns. *)
Definition addToQueue_end (fault : Fault) (queueItem : UploadQueueRecord)
    (st : State) : State * Result unit :=
  match addToUploadQueue fault queueItem (db st) with
  | Rejected m =>
      (with_queue (map_delete (id queueItem) (queue st)) st, Rejected m)
  | Resolved t => (with_db t st, Resolved tt)
  end.

(** [removeFromQueue(id)]: the [Map] entry goes at once; the DELETE is
    issued and its rejection only logged. *)
Definition removeFromQueue_begin (k : string) (st : State) : State :=
  with_queue (map_delete k (queue st)) st.

Definition removeFromQueue_end (fault : Fault) (k : string) (st : State) : State :=
  match removeFromUploadQueue fault k (db st) with
  | Resolved t => with_db t st
  | Rejected _ => st
  end.

(** [clearQueue()] up to [await database.execAsync(...)]. *)
Definition clearQueue_begin (st : State) : State := with_queue [] st.

(** [clearQueue()] after the DELETE has settled; a rejection is rethrown. *)
Definition clearQueue_end (fault : Fault) (st : State) : State * Result unit :=
  match deleteAll fault (db st) with
  | Resolved t => (with_db t st, Resolved tt)
  | Rejected m => (st, Rejected m)
  end.

Definition clearQueue (fault : Fault) (st : State) : State * Result unit :=
  clearQueue_end fault (clearQueue_begin st).

(** [cleanup()] *)
Definition cleanup (st : State) : State :=
  let st1 := if networkListener st
             then with_listener false (pred (listeners st)) st
             else st in
  with_retryTimer None st1.

(** The [for ... of records] loop of [loadQueueFromDatabase]; [resetFault]
    gives the outcome of the reset write for a record id.  A rejected
    write leaves the loop by exception. *)
Fixpoint loadRecords (resetFault : string -> Fault)
    (records : list UploadQueueRecord) (st : State) : State * Result unit :=
  match records with
  | [] => (st, Resolved tt)
  | record :: rest =>
      match status record with
      | uploading =>
          match updateUploadQueueStatus (resetFault (id record)) (id record)
                  pending None None 0 (db st) with
          | Rejected m => (st, Rejected m)
          | Resolved t =>
              loadRecords resetFault rest (snd (attach record (with_db t st)))
          end
      | _ => loadRecords resetFault rest (snd (attach record st))
      end
  end.

(** [loadQueueFromDatabase()] *)
Definition loadQueueFromDatabase (fault : Fault) (resetFault : string -> Fault)
    (st : State) : State * Result unit :=
  match getPendingUploads fault None 0 (db st) with
  | Rejected m => (st, Rejected m)
  | Resolved records => loadRecords resetFault records (with_queue [] st)
  end.

(** [setupNetworkMonitoring()] *)
Definition setupNetworkMonitoring (st : State) : State :=
  with_listener true (S (listeners st)) st.

(** [initialize()] up to the return of [await NetInfo.fetch()]; an error of
    the load is logged and dropped. *)
Definition initialize_load (fault : Fault) (resetFault : string -> Fault)
    (st : State) : State :=
  setupNetworkMonitoring (fst (loadQueueFromDatabase fault resetFault st)).

(* ================================================================== *)
(** * Interleaved executions *)
(* ================================================================== *)

(** The engine runs on one thread; an [async] method runs until its next
    [await] and is resumed later, and other calls run in between.  A [Pass]
    is a suspended call of [processQueue]: the constructor names the
    [await] it is waiting at and carries the local variables that are live
    there. *)
Inductive Pass : Type :=
| AwaitPage (now : Z) (offset : nat)
    (* await getPendingUploads(BATCH_SIZE, offset) *)
| AwaitNet (now : Z) (offset : nat) (rest : list UploadQueueRecord) (item : nat)
    (* processItem: await NetInfo.fetch() *)
| AwaitUploads (now : Z) (offset : nat) (rest : list UploadQueueRecord) (item : nat)
    (* processItem: await Promise.all(uploadPromises) *)
| AwaitCompleted (now : Z) (offset : nat) (rest : list UploadQueueRecord) (item : nat)
    (issuedAt : Z)
    (* processItem: await updateUploadQueueStatus(item.id, 'completed'),
       issued at clock [issuedAt] *)
| AwaitPersist (now : Z) (offset : nat) (rest : list UploadQueueRecord) (item : nat)
    (errorMessage : string) (delay : option Z).
    (* processItem, catch: await updateUploadQueueStatus(..., 'failed', ...) *)

(** What the environment hands to a call when it resumes it; each [await]
    reads the fields that concern it. *)
Record Answer : Type := mkAnswer {
  ans_fault : Fault;
  ans_connected : bool;
  ans_metadata : UploadResponse;
  ans_video : UploadResponse;
  ans_clock : Z
}.

(** Back in the [for] loop after [processItem] returned: the next item is
    put in the [Map] and processed, or the next page is requested. *)
Definition next_item (now : Z) (offset : nat) (rest : list UploadQueueRecord)
    (st : State) : State * option Pass :=
  match rest with
  | [] => (st, Some (AwaitPage now (offset + BATCH_SIZE)))
  | dbItem :: rest' =>
      let (item, st1) := attach dbItem st in
      (st1, Some (AwaitNet now offset rest' item))
  end.

(** One resumption of a pass; [None] when the pass has returned (the
    [finally] block has run). *)
Definition pass_step (a : Answer) (p : Pass) (st : State) : State * option Pass :=
  match p with
  | AwaitPage now offset =>
      match getPendingUploads (ans_fault a) (Some BATCH_SIZE) offset (db st) with
      | Rejected _ => (with_isProcessing false st, None)
      | Resolved [] => (with_isProcessing false st, None)
      | Resolved dbItems => next_item now offset (itemsToProcess now dbItems) st
      end
  | AwaitNet now offset rest item =>
      match processItem_start (ans_connected a) item st with
      | (st1, None) => (st1, Some (AwaitUploads now offset rest item))
      | (st1, Some _) => next_item now offset rest st1
      end
  | AwaitUploads now offset rest item =>
      match processItem_settled (ans_metadata a) (ans_video a) item st with
      | (st1, None) =>
          (st1, Some (AwaitCompleted now offset rest item (ans_clock a)))
      | (st1, Some m) =>
          let (st2, delay) := processItem_catch m (ans_clock a) item st1 in
          (st2, Some (AwaitPersist now offset rest item m delay))
      end
  | AwaitCompleted now offset rest item issuedAt =>
      match processItem_completed (ans_fault a) issuedAt item st with
      | (st1, None) => next_item now offset rest st1
      | (st1, Some m) =>
          let (st2, delay) := processItem_catch m (ans_clock a) item st1 in
          (st2, Some (AwaitPersist now offset rest item m delay))
      end
  | AwaitPersist now offset rest item m delay =>
      next_item now offset rest (processItem_persist (ans_fault a) m delay item st)
  end.

(** The suspended calls of the public methods. *)
Inductive Task : Type :=
| TPass (p : Pass)
| TAdd (queueItem : UploadQueueRecord)
    (* addToQueue: await addToUploadQueue(queueItem) *)
| TLoad
    (* initialize, loadQueueFromDatabase: await getPendingUploads() *)
| TReset (record : UploadQueueRecord) (rest : list UploadQueueRecord)
    (* loadQueueFromDatabase: await updateUploadQueueStatus(record.id, 'pending') *)
| TFetch
    (* initialize: await NetInfo.fetch() *)
| TClear
    (* clearQueue: await database.execAsync(...) *)
| TRemove (k : string).
    (* removeFromQueue: removeFromUploadQueue(id).catch(...) *)

(** A call [this.processQueue()] that is not awaited. *)
Definition spawn_pass (now : Z) (st : State) : State * list Task :=
  match processQueue_enter st with
  | (st1, true) => (st1, [TPass (AwaitPage now 0)])
  | (st1, false) => (st1, [])
  end.

(** [initialize] once [loadQueueFromDatabase] has returned or thrown. *)
Definition after_load (st : State) : State * list Task :=
  (setupNetworkMonitoring st, [TFetch]).

(** The loop of [loadQueueFromDatabase], run until it has to wait. *)
Fixpoint load_loop (records : list UploadQueueRecord) (st : State)
    : State * list Task :=
  match records with
  | [] => after_load st
  | record :: rest =>
      match status record with
      | uploading => (st, [TReset record rest])
      | _ => load_loop rest (snd (attach record st))
      end
  end.

(** One resumption of a suspended call: the new state and the calls that
    are suspended afterwards on its behalf. *)
Definition task_step (a : Answer) (t : Task) (st : State) : State * list Task :=
  match t with
  | TPass p =>
      match pass_step a p st with
      | (st1, Some p') => (st1, [TPass p'])
      | (st1, None) => (st1, [])
      end
  | TAdd queueItem =>
      match addToQueue_end (ans_fault a) queueItem st with
      | (st1, Resolved _) => spawn_pass (ans_clock a) st1
      | (st1, Rejected _) => (st1, [])
      end
  | TLoad =>
      match getPendingUploads (ans_fault a) None 0 (db st) with
      | Rejected _ => after_load st
      | Resolved records => load_loop records (with_queue [] st)
      end
  | TReset record rest =>
      match updateUploadQueueStatus (ans_fault a) (id record) pending None None 0 (db st) with
      | Rejected _ => after_load st
      | Resolved t' => load_loop rest (snd (attach record (with_db t' st)))
      end
  | TFetch =>
      if ans_connected a then spawn_pass (ans_clock a) st else (st, [])
  | TClear => (fst (clearQueue_end (ans_fault a) st), [])
  | TRemove k => (removeFromQueue_end (ans_fault a) k st, [])
  end.

Record Machine : Type := mkMachine {
  engine : State;
  tasks : list Task
}.

(** What can happen next: a call of a public method, a connectivity event,
    the retry timer, or the resumption of the [i]-th suspended call. *)
Inductive Action : Type :=
| Initialize
| Cleanup
| AddToQueue (item : QueueInput) (now : Z)
| RemoveFromQueue (k : string)
| ClearQueue
| NetworkChanged (connected : bool) (now : Z)
| TimerFired (now : Z)
| Resume (i : nat) (a : Answer).

Fixpoint drop_nth {A : Type} (i : nat) (l : list A) : list A :=
  match l, i with
  | [], _ => []
  | _ :: l', O => l'
  | x :: l', S i' => x :: drop_nth i' l'
  end.

Definition act (x : Action) (m : Machine) : Machine :=
  let st := engine m in
  match x with
  | Initialize => mkMachine st (tasks m ++ [TLoad])
  | Cleanup => mkMachine (cleanup st) (tasks m)
  | AddToQueue item now =>
      mkMachine (addToQueue_begin item now st)
        (tasks m ++ [TAdd (queueItem_of item now)])
  | RemoveFromQueue k =>
      mkMachine (removeFromQueue_begin k st) (tasks m ++ [TRemove k])
  | ClearQueue => mkMachine (clearQueue_begin st) (tasks m ++ [TClear])
  | NetworkChanged connected now =>
      if (0 <? listeners st)%nat && connected && negb (isProcessing st)
      then let (st1, ts) := spawn_pass now st in mkMachine st1 (tasks m ++ ts)
      else m
  | TimerFired now =>
      match retryTimer st with
      | Some _ =>
          let (st1, ts) := spawn_pass now (with_retryTimer None st) in
          mkMachine st1 (tasks m ++ ts)
      | None => m
      end
  | Resume i a =>
      match nth_error (tasks m) i with
      | Some t =>
          let (st1, ts) := task_step a t st in
          mkMachine st1 (drop_nth i (tasks m) ++ ts)
      | None => m
      end
  end.

Definition run (trace : list Action) (m : Machine) : Machine :=
  fold_left (fun m x => act x m) trace m.

(** The machine at process start, over the table found on disk. *)
Definition start (t : Table) : Machine := mkMachine (boot t) [].

(* ================================================================== *)
(** * Calls left to finish before anything else runs *)
(* ================================================================== *)

(** [await uploadQueue.addToQueue(item)] with nothing else running, followed
    by the pass it triggers. *)
Definition addToQueue (fuel : nat) (fault : Fault) (env : PassEnv)
    (item : QueueInput) (now : Z) (st : State) : option (State * Result unit) :=
  match addToQueue_end fault (queueItem_of item now) (addToQueue_begin item now st) with
  | (st1, Rejected m) => Some (st1, Rejected m)
  | (st1, Resolved _) =>
      option_map (fun s => (s, Resolved tt)) (processQueue fuel env st1)
  end.

(** The callback of [setTimeout] in [scheduleQueueProcessing], followed by
    the pass it triggers. *)
Definition timerFired (fuel : nat) (env : PassEnv) (st : State) : option State :=
  match retryTimer st with
  | Some _ => processQueue fuel env (with_retryTimer None st)
  | None => Some st
  end.

(** The listener subscribed by [setupNetworkMonitoring], called with
    [state.isConnected = connected], followed by the pass it triggers; an
    engine without a subscription is not told of the event. *)
Definition networkChanged (fuel : nat) (connected : bool) (env : PassEnv)
    (st : State) : option State :=
  if (0 <? listeners st)%nat && connected && negb (isProcessing st)
  then processQueue fuel env st
  else Some st.

(** What starts a pass on an engine at rest: the retry timer, or the
    listener told of a connection. *)
Inductive Trigger : Type := ByTimer | ByNetwork.

Definition triggered (g : Trigger) (fuel : nat) (env : PassEnv) (st : State)
    : option State :=
  match g with
  | ByTimer => timerFired fuel env st
  | ByNetwork => networkChanged fuel true env st
  end.

(** [await uploadQueue.initialize()], followed by the pass it triggers when
    [NetInfo.fetch()] reports a connection. *)
Definition initialize (fuel : nat) (fault : Fault) (resetFault : string -> Fault)
    (connected : bool) (env : PassEnv) (st : State) : option State :=
  let st1 := initialize_load fault resetFault st in
  if connected then processQueue fuel env st1 else Some st1.

(* ================================================================== *)
(** * The history screen: retrying the failed uploads *)
(* ================================================================== *)

(** [handleRetryAll], the loop [for (const item of failedItems) await
    updateUploadQueueStatus(item.id, 'pending', 0, null)]; [fault] gives
    the outcome of the write for an id.  A rejected write leaves the loop
    by exception; the writes performed before it stay in the table, which
    is returned in both cases. *)
Fixpoint resetItems (fault : string -> Fault)
    (failedItems : list UploadQueueRecord) (t : Table) : Table * Result unit :=
  match failedItems with
  | [] => (t, Resolved tt)
  | item :: rest =>
      match updateUploadQueueStatus (fault (id item)) (id item) pending
              (Some 0%nat) (Some None) 0 t with
      | Rejected m => (t, Rejected m)
      | Resolved t' => resetItems fault rest t'
      end
  end.

(** [handleRetryAll] up to the return of [await uploadQueue.initialize()],
    the pass that [initialize] triggers included.  [pendingUploads] are
    the records that the screen holds in its state; an exception of the
    loop is caught by the handler, which then does not call [initialize]. *)
Definition handleRetryAll (fuel : nat) (fault : string -> Fault)
    (loadFault : Fault) (resetFault : string -> Fault) (connected : bool)
    (env : PassEnv) (pendingUploads : list UploadQueueRecord) (st : State)
    : option State :=
  let failedItems :=
    filter (fun r => Status_eqb (status r) failed) pendingUploads in
  match resetItems fault failedItems (db st) with
  | (t, Rejected _) => Some (with_db t st)
  | (t, Resolved _) =>
      initialize fuel loadFault resetFault connected env (with_db t st)
  end.

(* ================================================================== *)
(** * Sample data *)
(* ================================================================== *)

(** A check-in submitted with id [k], with or without a video. *)
Definition checkin (k : string) (video : option string) : QueueInput :=
  mkInput k ("session-" ++ k) "2025-11-20T09:00:00+08:00" 4 None None video.

(** What [uploadSessionMetadata] resolves to on a 2xx answer, and on a 500. *)
Definition accepted : UploadResponse := mkResponse true None.
Definition refused : UploadResponse := mkResponse false (Some "HTTP 500: Unknown error").

(** A resumption with a working store, a connection and successful
    transfers, at clock [t]. *)
Definition fine (t : Z) : Answer := mkAnswer None true accepted accepted t.

(** The same with a metadata transfer that reports a failure. *)
Definition failing (t : Z) : Answer := mkAnswer None true refused accepted t.

(** A row as [addToUploadQueue] leaves it, with the given status and count. *)
Definition row (k : string) (s : Status) (n : nat) (created : Z) : UploadQueueRecord :=
  with_retry_count n (with_status s (queueItem_of (checkin k None) created)).

(** A state in which the Map and the table both hold item "a". *)
Definition holding_a : State :=
  mkState [row "a" pending 0 1000] [row "a" pending 0 1000] [("a", 0%nat)]
    false false 0%nat None.

(** A pass at clock 2000 in which everything succeeds. *)
Definition idle_env : PassEnv :=
  mkPassEnv 2000 (fun _ => None)
    (fun _ => mkAttempt true accepted accepted 2000 None 2000 None).

(** Item "a" is enqueued on a fresh engine, the pass it triggers reads its
    page and starts the attempt while connected. *)
Definition attempt_started : list Action :=
  [ AddToQueue (checkin "a" None) 1000;
    Resume 0 (fine 1001);      (* insert done, processQueue() called *)
    Resume 0 (fine 1002);      (* first page read, "a" put in the Map *)
    Resume 0 (fine 1003) ].    (* NetInfo.fetch(): connected, uploads started *)

(** The metadata transfer then reports a failure at clock 1500, and the
    write of 'failed' is performed. *)
Definition first_failure : list Action :=
  attempt_started ++
  [ Resume 0 (failing 1500);   (* Promise.all resolved, catch block entered *)
    Resume 0 (fine 1501) ].    (* write of 'failed' done, timer armed *)

(** The table found after a crash in the middle of the second attempt on
    "a" (had 'uploading' been written): "a" is 'uploading' with count 1,
    "b" is 'pending'. *)
Definition after_crash : Table :=
  [row "a" uploading 1 1000; row "b" pending 0 1001].

(** Item "v", which has a video, as inserted at clock 1000. *)
Definition video_row : UploadQueueRecord :=
  queueItem_of (checkin "v" (Some "file:///clips/v.mp4")) 1000.

(** A state with "v" in the table and its row object just put in the Map
    by the pass in progress. *)
Definition picked_up : State :=
  mkState [video_row] [video_row] [("v", 0%nat)] true false 0%nat None.

(** An attempt made while connected in which everything succeeds. *)
Definition both_accepted : Attempt :=
  mkAttempt true accepted accepted 2000 None 2000 None.

(** Two calls of [addToQueue], the second made while the uploads of "a"
    are in flight in the pass triggered by the first.  Every store call
    succeeds, the device is connected, every transfer succeeds. *)
Definition overlapping_enqueues : list Action :=
  [ AddToQueue (checkin "a" None) 1000;
    Resume 0 (fine 1001);      (* "a" inserted; processQueue() starts a pass *)
    Resume 0 (fine 1002);      (* page at offset 0: ["a"] *)
    Resume 0 (fine 1003);      (* connected: uploads of "a" started *)
    AddToQueue (checkin "b" None) 1004;
    Resume 1 (fine 1005);      (* "b" inserted; processQueue() stops at the guard *)
    Resume 0 (fine 1006);      (* both responses fine: "a" leaves the Map *)
    Resume 0 (fine 1007);      (* 'completed' written for "a" *)
    Resume 0 (fine 1008) ].    (* page at offset 5 of the one pending row: empty *)

(** Six calls of [addToQueue] in a row, all inserted before the pass
    triggered by the first has read its first page. *)
Definition six_enqueues : list Action :=
  [ AddToQueue (checkin "a" None) 1000; AddToQueue (checkin "b" None) 1001;
    AddToQueue (checkin "c" None) 1002; AddToQueue (checkin "d" None) 1003;
    AddToQueue (checkin "e" None) 1004; AddToQueue (checkin "f" None) 1005 ]
  ++ repeat (Resume 0 (fine 1010)) 6      (* the six inserts *)
  ++ [ Resume 0 (fine 1011) ]             (* page at offset 0: "a" .. "e" *)
  ++ repeat (Resume 0 (fine 1020)) 15     (* five attempts, three awaits each *)
  ++ [ Resume 0 (fine 1030) ].            (* page at offset 5 of one row: empty *)

(** A table that holds one finished upload. *)
Definition done_before : Table :=
  [with_uploaded_at (Some 900) (row "z" completed 0 500)].

(** Every attempt is refused by the collector. *)
Definition always_refused (now : Z) : PassEnv :=
  mkPassEnv now (fun _ => None)
    (fun _ => mkAttempt true refused accepted now None now None).

(** Item "a" is enqueued on an initialized engine and refused by the
    collector three times; the second and the third attempt are made in
    passes started by the network listener, before the retry timer
    fires. *)
Definition retried_on_reconnect : list Action :=
  [ Initialize;
    Resume 0 (fine 900);       (* nothing to load; listener subscribed *)
    Resume 0 (mkAnswer None false accepted accepted 901);
                               (* NetInfo.fetch(): no connection, no pass *)
    AddToQueue (checkin "a" None) 1000;
    Resume 0 (failing 1001);   (* "a" inserted; processQueue() starts a pass *)
    Resume 0 (failing 1002);   (* page at offset 0: ["a"] *)
    Resume 0 (failing 1003);   (* connected: uploads started *)
    Resume 0 (failing 1004);   (* refused: count 1 *)
    Resume 0 (failing 1005);   (* 'failed' written; timer armed for 5000 ms *)
    Resume 0 (failing 1006);   (* page at offset 5: empty *)
    NetworkChanged true 2000;
    Resume 0 (failing 2001);
    Resume 0 (failing 2002);
    Resume 0 (failing 2003);   (* refused: count 2 *)
    Resume 0 (failing 2004);   (* 'failed' written; timer armed for 10000 ms *)
    Resume 0 (failing 2005);
    NetworkChanged true 3000;
    Resume 0 (failing 3001);
    Resume 0 (failing 3002);
    Resume 0 (failing 3003);   (* refused: count 3 *)
    Resume 0 (failing 3004);   (* 'failed' written; no timer armed *)
    Resume 0 (failing 3005) ]. (* page at offset 5: empty *)

(** A pass at clock [now] during which the device has no connection. *)
Definition offline (now : Z) : PassEnv :=
  mkPassEnv now (fun _ => None)
    (fun _ => mkAttempt false accepted accepted now None now None).

(** A table with one row of each status; "f" has failed twice. *)
Definition mixed_table : Table :=
  [ row "p" pending 0 1000; row "u" uploading 1 1001;
    with_uploaded_at (Some 1500) (row "c" completed 0 1002);
    with_error_message (Some "HTTP 500: Unknown error") (row "f" failed 2 1003) ].



(** An attempt made while connected whose metadata transfer goes through
    [uploadSessionMetadata] with the given storage and answer of [fetch]. *)
Definition attempt_over (s : Storage) (fetched : Result Response) : Attempt :=
  mkAttempt true (uploadSessionMetadata None s fetched) accepted 2000 None 2000 None.

(** Two check-ins of one morning, and the table that holds them after a
    third, with rowid 2, was deleted. *)
Definition morning : SessionData :=
  mkSessionData "2025-11-20T09:00:00.000Z" 4 None None (Some "a.mp4").

Definition noon : SessionData :=
  mkSessionData "2025-11-20T12:30:00.000Z" 2 None None (Some "b.mp4").

Definition two_sessions : Sessions :=
  mkSessions [session_of 1 morning; session_of 3 noon] 3.

(** The settings after the user has moved the first notification. *)
Definition saved_settings : Settings :=
  mkSettings 1 "08:15" "14:00" "20:00" 1.

(* ================================================================== *)
(** * Predicates and functions used in the statements *)
(* ================================================================== *)

(** The fields of an object that no statement of the class assigns. *)
Definition same_payload (r r' : UploadQueueRecord) : Prop :=
  id r' = id r /\ video_uri r' = video_uri r /\ created_at r' = created_at r.

(** What the primary key of [upload_queue] guarantees. *)
Definition unique_ids (t : Table) : Prop := NoDup (map id t).

(** A machine in which nothing is suspended and no timer is armed stays as
    it is until a public method is called or connectivity changes. *)
Definition quiescent (m : Machine) : Prop :=
  tasks m = [] /\ retryTimer (engine m) = None /\
  isProcessing (engine m) = false /\
  (forall i a, act (Resume i a) m = m) /\
  (forall now, act (TimerFired now) m = m).

(** Every row of the table is a finished upload. *)
Definition settled (t : Table) : Prop :=
  forall r, In r t -> status r = completed.

(** The transfers of an attempt fail: the metadata response reports a
    failure, or there is a video and its response reports a failure. *)
Definition transfer_fails (r : UploadQueueRecord) (a : Attempt) : Prop :=
  success (metadataResponse a) = false \/
  (truthy (video_uri r) = true /\ success (videoResponse a) = false).

(** The message of the error thrown after [Promise.all]. *)
Definition thrown (r : UploadQueueRecord) (a : Attempt) : string :=
  match responseError r (metadataResponse a) (videoResponse a) with
  | Some m => m
  | None => ""
  end.

(** The object and the row left by a failed attempt that found the count
    at [retry_count r]. *)
Definition failed_row (r : UploadQueueRecord) (m : string) : UploadQueueRecord :=
  with_error_message (Some m)
    (with_retry_count (S (retry_count r)) (with_status failed r)).

(** The object in the Map also carries the retry time when a retry is
    left; [now] is the clock read in the [catch] block. *)
Definition failed_object (r : UploadQueueRecord) (m : string) (now : Z)
    : UploadQueueRecord :=
  if (S (retry_count r) <? maxRetries)%nat
  then with_next_retry_at (now + backoff (S (retry_count r))) (failed_row r m)
  else failed_row r m.

(** The environment of a pass in which the attempt on [q] is made while
    connected and fails in transfer, the store answers every call, and the
    clock is not before the epoch. *)
Definition failing_pass (q : UploadQueueRecord) (e : PassEnv) : Prop :=
  0 <= passNow e /\
  (forall offset, pageFault e offset = None) /\
  isConnected (attempt e (id q)) = true /\
  transfer_fails q (attempt e (id q)) /\
  failedFault (attempt e (id q)) = None.

(** The engine at rest with the row [r] out of retries: [r] is the only
    unfinished row and the Map holds the same record. *)
Definition exhausted (t : Table) (r : UploadQueueRecord) (st : State) : Prop :=
  db st = t ++ [r] /\ getQueueItem (id r) st = Some r /\
  status r = failed /\ retry_count r = 3%nat /\ isProcessing st = false.

(** The suspended calls of [processQueue]. *)
Definition passes (ts : list Task) : list Pass :=
  flat_map (fun t => match t with TPass p => [p] | _ => [] end) ts.

(** The item a suspended pass is in the middle of [processItem] for. *)
Definition item_of (p : Pass) : option nat :=
  match p with
  | AwaitPage _ _ => None
  | AwaitNet _ _ _ item | AwaitUploads _ _ _ item
  | AwaitCompleted _ _ _ item _ | AwaitPersist _ _ _ item _ _ => Some item
  end.

(** The rows of the current page that the pass has not reached yet. *)
Definition rest_of (p : Pass) : list UploadQueueRecord :=
  match p with
  | AwaitPage _ _ => []
  | AwaitNet _ _ rest _ | AwaitUploads _ _ rest _
  | AwaitCompleted _ _ rest _ _ | AwaitPersist _ _ rest _ _ _ => rest
  end.

(** The items that some pass is in the middle of attempting. *)
Definition attempted (ts : list Task) : list nat :=
  flat_map (fun p => match item_of p with Some item => [item] | None => [] end)
    (passes ts).

(** [r.status === 'uploading'] *)
Definition is_uploading (r : UploadQueueRecord) : bool :=
  Status_eqb (status r) uploading.

(** The keys of the Map are distinct and each entry refers to an object
    whose [id] is its key. *)
Definition well_keyed (st : State) : Prop :=
  NoDup (map fst (queue st)) /\
  forall k l, In (k, l) (queue st) ->
    exists r, nth_error (heap st) l = Some r /\ id r = k.

(** Every entry of the Map whose object is 'uploading' has a key in [P]. *)
Definition uploading_only (P : string -> Prop) (st : State) : Prop :=
  forall k l r, In (k, l) (queue st) -> nth_error (heap st) l = Some r ->
    status r = uploading -> P k.

(** Objects are never freed and never change their [id]. *)
Definition heap_ext (h h' : list UploadQueueRecord) : Prop :=
  forall l r, nth_error h l = Some r ->
    exists r', nth_error h' l = Some r' /\ id r' = id r.

(** The key whose uploads are in flight: the id of the item of a pass that
    is suspended at [Promise.all]. *)
Definition in_flight (st : State) (s : option Pass) (k : string) : Prop :=
  match s with
  | Some (AwaitUploads _ _ _ item) =>
      exists it, nth_error (heap st) item = Some it /\ id it = k
  | _ => False
  end.

(** None of the records is 'uploading'. *)
Definition rest_ok (rest : list UploadQueueRecord) : Prop :=
  forall r, In r rest -> status r <> uploading.

(** The rows a pass still holds came out of the pending query, and the
    item it is processing is an allocated object. *)
Definition pass_ok (st : State) (p : Pass) : Prop :=
  rest_ok (rest_of p) /\
  forall item, item_of p = Some item ->
    exists it, nth_error (heap st) item = Some it.

(** The same for the pass in progress, if there is one. *)
Definition slot_ok (st : State) (s : option Pass) : Prop :=
  match s with
  | Some p => pass_ok st p
  | None => True
  end.

(** A step from [st] to [st'] that a suspended pass does not notice. *)
Definition preserves (st st' : State) : Prop :=
  (well_keyed st -> well_keyed st') /\
  (forall P, well_keyed st -> uploading_only P st -> uploading_only P st') /\
  heap_ext (heap st) (heap st').

(** What a resumption of the pass establishes for the pass as it is
    suspended next (or for the engine, when the pass has returned). *)
Definition good_step (st : State) (r : State * option Pass) : Prop :=
  well_keyed (fst r) /\
  uploading_only (in_flight (fst r) (snd r)) (fst r) /\
  slot_ok (fst r) (snd r) /\
  isProcessing (fst r)
    = match snd r with Some _ => isProcessing st | None => false end /\
  heap_ext (heap st) (heap (fst r)).

(** The number of rows of the table that are marked 'uploading'. *)
Definition uploading_rows (t : Table) : nat := length (filter is_uploading t).

(** Suspended calls never wait for the reset write of
    [loadQueueFromDatabase] (the pending query returns no 'uploading'
    record), and an insert in flight is that of a 'pending' item. *)
Definition task_ok (t : Task) : Prop :=
  match t with
  | TReset _ _ => False
  | TAdd q => status q = pending
  | _ => True
  end.

(** The invariant of interleaved executions: the Map is well keyed; at
    most one pass is suspended, and [isProcessing] tells whether one is;
    only the key whose uploads are in flight can be 'uploading' in the Map;
    the suspended calls are as [task_ok] says; and the table holds at most
    [n] rows marked 'uploading'. *)
Definition Inv (n : nat) (st : State) (ts : list Task) : Prop :=
  well_keyed st /\
  (exists s : option Pass,
     passes ts = match s with Some p => [p] | None => [] end /\
     isProcessing st = match s with Some _ => true | None => false end /\
     uploading_only (in_flight st s) st /\
     slot_ok st s) /\
  Forall task_ok ts /\
  (uploading_rows (db st) <= n)%nat.

(** The answer that the environment of a pass gives to the pass suspended
    as [p]. *)
Definition answer_of (env : PassEnv) (p : Pass) (st : State) : Answer :=
  match p with
  | AwaitPage _ offset => mkAnswer (pageFault env offset) true accepted accepted 0
  | AwaitNet _ _ _ item | AwaitUploads _ _ _ item
  | AwaitCompleted _ _ _ item _ | AwaitPersist _ _ _ item _ _ =>
      let a := attempt env (match nth_error (heap st) item with
                            | Some it => id it
                            | None => ""
                            end) in
      match p with
      | AwaitCompleted _ _ _ _ _ =>
          mkAnswer (completedFault a) (isConnected a) (metadataResponse a)
            (videoResponse a) (rejectedAt a)
      | AwaitPersist _ _ _ _ _ _ =>
          mkAnswer (failedFault a) (isConnected a) (metadataResponse a)
            (videoResponse a) (settledAt a)
      | _ =>
          mkAnswer None (isConnected a) (metadataResponse a)
            (videoResponse a) (settledAt a)
      end
  end.

(** The suspended pass is resumed, again and again, until it returns. *)
Fixpoint drain (fuel : nat) (env : PassEnv) (p : Pass) (st : State)
    : option State :=
  match fuel with
  | O => None
  | S fuel' =>
      match pass_step (answer_of env p st) p st with
      | (st1, Some p') => drain fuel' env p' st1
      | (st1, None) => Some st1
      end
  end.

(** The pass goes on from the [for] loop. *)
Definition resume_loop (fuel : nat) (env : PassEnv) (now : Z) (offset : nat)
    (rest : list UploadQueueRecord) (st : State) : option State :=
  match next_item now offset rest st with
  | (st1, Some p') => drain fuel env p' st1
  | (st1, None) => Some st1
  end.

(** The environment of a pass in which the store answers every call, the
    device is connected and every transfer succeeds. *)
Definition well_served (e : PassEnv) : Prop :=
  0 <= passNow e /\
  (forall offset, pageFault e offset = None) /\
  forall k,
    isConnected (attempt e k) = true /\
    success (metadataResponse (attempt e k)) = true /\
    success (videoResponse (attempt e k)) = true /\
    completedFault (attempt e k) = None.

(** Calls of [addToQueue], each awaited together with the pass it
    triggers before the next is made. *)
Fixpoint enqueue_all (calls : list (QueueInput * Z * PassEnv)) (st : State)
    : option State :=
  match calls with
  | [] => Some st
  | (item, now, env) :: rest =>
      match addToQueue 2 None env item now st with
      | Some (st1, _) => enqueue_all rest st1
      | None => None
      end
  end.

(** The engine at rest with nothing left to upload. *)
Definition drained (st : State) : Prop :=
  settled (db st) /\ queue st = [] /\ isProcessing st = false.

(** The columns that only the insert writes. *)
Definition same_content (r r' : UploadQueueRecord) : Prop :=
  id r' = id r /\ session_id r' = session_id r /\ timestamp r' = timestamp r /\
  emotion_score r' = emotion_score r /\ latitude r' = latitude r /\
  longitude r' = longitude r /\ video_uri r' = video_uri r /\
  created_at r' = created_at r /\ next_retry_at r' = next_retry_at r.

(** How far a row [r'] may be from what it was, [r], before a pass: its
    content is the same; the retry count has not gone down, and has not
    gone beyond [maxRetries] if it was within; a row that was neither
    'pending' nor 'failed' is as it was; and a row that has become
    'completed' carries its upload time. *)
Definition row_evolves (r r' : UploadQueueRecord) : Prop :=
  same_content r r' /\
  (retry_count r <= retry_count r')%nat /\
  ((retry_count r <= maxRetries)%nat -> (retry_count r' <= maxRetries)%nat) /\
  (is_pending_or_failed r = false -> r' = r) /\
  (status r' = completed -> status r = completed \/ uploaded_at r' <> None).

(** The delays of the retry timer: not armed, 5 s, or 10 s. *)
Definition backoff_delay (d : option Z) : Prop :=
  d = None \/ d = Some 5000 \/ d = Some 10000.

(** The delay that a suspended call is about to arm the timer with. *)
Definition task_delay (t : Task) : option Z :=
  match t with
  | TPass (AwaitPersist _ _ _ _ _ delay) => delay
  | _ => None
  end.

(** The timer, armed or about to be, has one of the two delays. *)
Definition timer_in_range (st : State) (ts : list Task) : Prop :=
  backoff_delay (retryTimer st) /\
  Forall (fun t => backoff_delay (task_delay t)) ts.

(** The records that a suspended call holds and may still put in the Map. *)
Definition task_records (t : Task) : list UploadQueueRecord :=
  match t with
  | TPass p => rest_of p
  | TAdd queueItem => [queueItem]
  | TReset record rest => record :: rest
  | _ => []
  end.

(** No object of the engine, in the heap or held by a suspended call, is
    'completed'. *)
Definition none_completed (st : State) (ts : list Task) : Prop :=
  Forall (fun r => status r <> completed) (heap st) /\
  Forall (fun t => Forall (fun r => status r <> completed) (task_records t)) ts.

(** Calls of [initialize()], each given the answers of the store to its
    load, taken up to the return of [NetInfo.fetch()]. *)
Definition initialize_loads (calls : list (Fault * (string -> Fault)))
    (st : State) : State :=
  fold_left (fun s c => initialize_load (fst c) (snd c) s) calls st.

(** A row as [handleRetryAll] resets it. *)
Definition reset_row (r : UploadQueueRecord) : UploadQueueRecord :=
  with_error_message None (with_retry_count 0 (with_status pending r)).

(** The count of the item that a suspended pass is attempting: below
    [maxRetries] while its uploads or the write of 'completed' are awaited,
    at most [maxRetries] once the [catch] block has incremented it. *)
Definition within_limit (st : State) (p : Pass) : Prop :=
  match p with
  | AwaitUploads _ _ _ item | AwaitCompleted _ _ _ item _ =>
      exists it, nth_error (heap st) item = Some it /\
                 (retry_count it < maxRetries)%nat
  | AwaitPersist _ _ _ item _ _ =>
      exists it, nth_error (heap st) item = Some it /\
                 (retry_count it <= maxRetries)%nat
  | _ => True
  end.

(** The same for a suspended call; an item about to be inserted has not
    failed yet. *)
Definition task_within_limit (st : State) (t : Task) : Prop :=
  match t with
  | TPass p => within_limit st p
  | TAdd queueItem => retry_count queueItem = 0%nat
  | _ => True
  end.

(** No retry count, stored or about to be, is beyond [maxRetries]. *)
Definition retry_limit (st : State) (ts : list Task) : Prop :=
  Forall (fun r => (retry_count r <= maxRetries)%nat) (db st) /\
  Forall (task_within_limit st) ts.

(** A row the engine has nothing left to do for: a finished upload, or a
    row out of retries. *)
Definition at_rest (r : UploadQueueRecord) : Prop :=
  status r = completed \/ (maxRetries <= retry_count r)%nat.

(** What a table holds of a row it held before: the row as it was, or no
    row with its id. *)
Definition kept_or_deleted (r : UploadQueueRecord) (t : Table) : Prop :=
  In r t \/ has_id (id r) t = false.

(** Every row stored under the id [k] satisfies [P]. *)
Definition rows_of (k : string) (t : Table) (P : UploadQueueRecord -> Prop)
    : Prop :=
  forall r, In r t -> id r = k -> P r.

(** The rows behind what a suspended pass holds.  The records it has not
    reached yet have distinct ids, and a row stored under one of them is
    not a finished upload and has no more retries than the record.  The
    item it is attempting is an allocated object, apart from those
    records; a row stored under its id is not a finished upload, has no
    more retries than the object while connectivity is awaited, and fewer
    than [maxRetries] from then on. *)
Definition pass_rows (st : State) (p : Pass) : Prop :=
  NoDup (map id (rest_of p)) /\
  (forall x, In x (rest_of p) ->
     rows_of (id x) (db st)
       (fun r => status r <> completed /\
                 (retry_count r <= retry_count x)%nat)) /\
  (forall item, item_of p = Some item ->
     exists it, nth_error (heap st) item = Some it /\
       ~ In (id it) (map id (rest_of p)) /\
       rows_of (id it) (db st)
         (fun r => status r <> completed /\
                   match p with
                   | AwaitNet _ _ _ _ => (retry_count r <= retry_count it)%nat
                   | _ => (retry_count r < maxRetries)%nat
                   end)).

(** The same for a suspended call; an item about to be inserted has not
    failed yet. *)
Definition task_rows (st : State) (t : Task) : Prop :=
  match t with
  | TPass p => pass_rows st p
  | TAdd queueItem => retry_count queueItem = 0%nat
  | _ => True
  end.

(** The ids of the table are distinct, and the suspended calls are as
    [task_rows] says. *)
Definition rows_inv (st : State) (ts : list Task) : Prop :=
  unique_ids (db st) /\ Forall (task_rows st) ts.

(** What AUTOINCREMENT guarantees of the [sessions] table: distinct ids,
    none above the largest rowid on record. *)
Definition sessions_ok (t : Sessions) : Prop :=
  NoDup (map sess_id (session_rows t)) /\
  forall r, In r (session_rows t) -> (sess_id r <= largest_rowid t)%nat.

(** A timestamp that SQLite keeps as the text written: it has a colon
    (character 58), as every ISO 8601 date and time has, so it does not
    read as a number. *)
Definition kept_as_text (s : string) : bool :=
  existsb (Ascii.eqb (Ascii.ascii_of_nat 58)) (list_ascii_of_string s).

Definition text_timestamps (l : list Session) : Prop :=
  forall r, In r l -> kept_as_text (sess_timestamp r) = true.

(** Newest first: each session is at least as late as the next. *)
Definition newest_first (l : list Session) : Prop :=
  Sorted (fun a b => String.leb (sess_timestamp b) (sess_timestamp a) = true) l.

(** Two patches applied one after the other amount to this one. *)
Definition patch_then (p q : SettingsPatch) : SettingsPatch :=
  mkPatch
    (match patch_time_1 q with Some v => Some v | None => patch_time_1 p end)
    (match patch_time_2 q with Some v => Some v | None => patch_time_2 p end)
    (match patch_time_3 q with Some v => Some v | None => patch_time_3 p end)
    (match patch_enabled q with Some v => Some v | None => patch_enabled p end).

(** The rows returned when the pending rows of a table that does not change
    are read page by page: [n] pages of [limit] rows, from offset 0. *)
Definition pages (limit n : nat) (t : Table) : list UploadQueueRecord :=
  flat_map (fun i => match getPendingUploads None (Some limit) (i * limit) t with
                     | Resolved rows => rows
                     | Rejected _ => []
                     end) (seq 0 n).

(* ================================================================== *)
(** * Facts about the Map, the heap and the table *)
(* ================================================================== *)

Section MapFacts.

Variables (k : string) (v : nat).

Lemma map_get_set_same : forall m, map_get k (map_set k v m) = Some v.
Proof.
  induction m as [|[k' v'] m IH]; simpl.
  - now rewrite String.eqb_refl.
  - destruct (String.eqb k' k) eqn:E; simpl.
    + now rewrite String.eqb_refl.
    + now rewrite E.
Qed.

Lemma map_get_set_other :
  forall k' m, k' <> k -> map_get k' (map_set k v m) = map_get k' m.
Proof.
  intros k' m Hne.
  induction m as [|[k0 v0] m IH]; simpl.
  - destruct (String.eqb k k') eqn:E; [apply String.eqb_eq in E; congruence | reflexivity].
  - destruct (String.eqb k0 k) eqn:E; simpl.
    + apply String.eqb_eq in E; subst k0.
      destruct (String.eqb k k') eqn:E'; [apply String.eqb_eq in E'; congruence | reflexivity].
    + destruct (String.eqb k0 k'); [reflexivity | exact IH].
Qed.

Lemma map_get_delete_same : forall m, map_get k (map_delete k m) = None.
Proof.
  induction m as [|[k' v'] m IH]; simpl; [reflexivity|].
  destruct (String.eqb k' k) eqn:E; simpl; [exact IH|].
  now rewrite E.
Qed.

Lemma map_get_delete_other :
  forall k' m, k' <> k -> map_get k' (map_delete k m) = map_get k' m.
Proof.
  intros k' m Hne.
  induction m as [|[k0 v0] m IH]; simpl; [reflexivity|].
  destruct (String.eqb k0 k) eqn:E; simpl.
  - apply String.eqb_eq in E; subst k0.
    destruct (String.eqb k k') eqn:E'; [apply String.eqb_eq in E'; congruence | exact IH].
  - destruct (String.eqb k0 k'); [reflexivity | exact IH].
Qed.

Lemma map_get_In : forall m l, map_get k m = Some l -> In (k, l) m.
Proof.
  induction m as [|[k' v'] m IH]; simpl; intros l H; [discriminate|].
  destruct (String.eqb k' k) eqn:E.
  - apply String.eqb_eq in E. inversion H; subst. now left.
  - right. now apply IH.
Qed.

End MapFacts.

Section HeapFacts.

Variable f : UploadQueueRecord -> UploadQueueRecord.

Lemma mutate_length : forall l h, length (mutate l f h) = length h.
Proof.
  intros l h; revert l.
  induction h as [|r h IH]; intros [|l]; simpl; auto.
Qed.

Lemma nth_error_mutate_same :
  forall l h, nth_error (mutate l f h) l = option_map f (nth_error h l).
Proof.
  intros l h; revert l.
  induction h as [|r h IH]; intros [|l]; simpl; auto.
Qed.

Lemma nth_error_mutate_other :
  forall l l' h, l <> l' -> nth_error (mutate l f h) l' = nth_error h l'.
Proof.
  intros l l' h; revert l l'.
  induction h as [|r h IH]; intros [|l] [|l'] Hne; simpl; auto; try congruence.
Qed.

Lemma nth_error_mutate :
  forall l l' h r, nth_error (mutate l f h) l' = Some r ->
    exists r0, nth_error h l' = Some r0 /\ (r = r0 \/ r = f r0).
Proof.
  intros l l' h r H.
  destruct (Nat.eq_dec l l') as [->|Hne].
  - rewrite nth_error_mutate_same in H.
    destruct (nth_error h l') as [r0|]; simpl in H; [|discriminate].
    inversion H; subst. eauto.
  - rewrite nth_error_mutate_other in H by assumption. eauto.
Qed.

End HeapFacts.

Lemma nth_error_alloc :
  forall (h : list UploadQueueRecord) r, nth_error (h ++ [r]) (length h) = Some r.
Proof.
  intros h r. rewrite nth_error_app2 by lia.
  now rewrite Nat.sub_diag.
Qed.

Lemma getQueueItem_attach :
  forall r st, getQueueItem (id r) (snd (attach r st)) = Some r.
Proof.
  intros r st. unfold getQueueItem, attach; simpl.
  rewrite map_get_set_same. apply nth_error_alloc.
Qed.

Lemma getQueueItem_delete :
  forall k st, getQueueItem k (with_queue (map_delete k (queue st)) st) = None.
Proof.
  intros k st. unfold getQueueItem; simpl. now rewrite map_get_delete_same.
Qed.

(** Rows returned by the pending query. *)
Lemma In_insert_by_created_at :
  forall r x l, In r (insert_by_created_at x l) <-> r = x \/ In r l.
Proof.
  intros r x l. induction l as [|y l IH]; simpl.
  - intuition.
  - destruct (created_at x <=? created_at y); simpl; rewrite ?IH; intuition.
Qed.

Lemma In_order_by_created_at :
  forall r l, In r (order_by_created_at l) <-> In r l.
Proof.
  intros r l. induction l as [|x l IH]; simpl; [tauto|].
  rewrite In_insert_by_created_at, IH. intuition.
Qed.

Lemma In_page :
  forall (r : UploadQueueRecord) n k l, In r (firstn n (skipn k l)) -> In r l.
Proof.
  intros r n k l H.
  rewrite <- (firstn_skipn k l). apply in_or_app. right.
  rewrite <- (firstn_skipn n (skipn k l)). apply in_or_app. now left.
Qed.

Lemma getPendingUploads_In :
  forall fault limit offset t rows r,
    getPendingUploads fault limit offset t = Resolved rows ->
    In r rows -> In r t /\ is_pending_or_failed r = true.
Proof.
  intros fault limit offset t rows r H Hin.
  unfold getPendingUploads in H.
  destruct fault; [discriminate|].
  assert (Hall : In r (order_by_created_at (filter is_pending_or_failed t))).
  { destruct limit as [[|n]|]; inversion H; subst; auto.
    apply (In_page r (S n) offset). exact Hin. }
  apply (proj1 (In_order_by_created_at _ _)) in Hall.
  now apply filter_In in Hall.
Qed.

(* ================================================================== *)
(** * clearQueue and addToQueue *)
(* ================================================================== *)

(** C10.  [clearQueue] empties the Map before it issues the bulk delete:
    whatever the Map held, while the delete is awaited [getQueueItems()]
    is already empty and the table untouched, in a call run alone as in a
    call interleaved with others.  Whatever the store answers, the Map is
    empty when the call ends.  When the delete is rejected with a message,
    the call rethrows that message and the table still holds its rows;
    when it is accepted the call resolves and the table is empty. *)
Theorem clearQueue_memory_first :
  forall (st : State) (ts : list Task) (fault : Fault) (m : string) (a : Answer),
    (queue (clearQueue_begin st) = [] /\
     getQueueItems (clearQueue_begin st) = [] /\
     db (clearQueue_begin st) = db st) /\
    (act ClearQueue (mkMachine st ts)
       = mkMachine (clearQueue_begin st) (ts ++ [TClear]) /\
     queue (fst (task_step a TClear st)) = queue st) /\
    (clearQueue fault st = clearQueue_end fault (clearQueue_begin st) /\
     queue (fst (clearQueue fault st)) = [] /\
     getQueueItems (fst (clearQueue fault st)) = []) /\
    (snd (clearQueue (Some m) st) = Rejected m /\
     db (fst (clearQueue (Some m) st)) = db st) /\
    (snd (clearQueue None st) = Resolved tt /\
     db (fst (clearQueue None st)) = []).
Proof.
  intros st ts fault m a.
  split; [repeat split|].
  split.
  { split; [reflexivity|].
    cbn [task_step]. unfold clearQueue_end, deleteAll.
    destruct (ans_fault a); reflexivity. }
  split.
  { unfold clearQueue, clearQueue_end, deleteAll.
    destruct fault; repeat split. }
  split; split; reflexivity.
Qed.

Lemma has_id_insert_rejected :
  forall fault r t, has_id (id r) t = true ->
    exists m, addToUploadQueue fault r t = Rejected m /\
              (fault = None -> m = unique_violation).
Proof.
  intros fault r t H. unfold addToUploadQueue. rewrite H.
  destruct fault as [m|].
  - exists m. split; [reflexivity | discriminate].
  - exists unique_violation. split; auto.
Qed.

(** C9.  A call of [addToQueue] whose id is already a primary key of
    [upload_queue] is rejected (by the key constraint when the statement
    reaches SQLite); the call rethrows without starting a pass, the table is
    as before, and the id is absent from the Map afterwards, whatever the
    Map held under that id before the call. *)
Theorem addToQueue_existing_id :
  forall (fuel : nat) (env : PassEnv) (fault : Fault) (item : QueueInput)
         (now : Z) (st : State),
    has_id (in_id item) (db st) = true ->
    exists st' m,
      addToQueue fuel fault env item now st = Some (st', Rejected m) /\
      (fault = None -> m = unique_violation) /\
      getQueueItem (in_id item) st' = None /\
      map_get (in_id item) (queue st') = None /\
      db st' = db st.
Proof.
  intros fuel env fault item now st H.
  destruct (has_id_insert_rejected fault (queueItem_of item now) (db st) H)
    as [m [Hm Hu]].
  exists (with_queue (map_delete (in_id item)
                        (queue (addToQueue_begin item now st)))
            (addToQueue_begin item now st)), m.
  unfold addToQueue, addToQueue_end.
  change (db (addToQueue_begin item now st)) with (db st).
  rewrite Hm. simpl id.
  repeat split; auto.
  - apply getQueueItem_delete.
  - simpl. apply map_get_delete_same.
Qed.

Lemma addToQueue_existing_id_witness :
  has_id "a" (db holding_a) = true /\
  getQueueItem "a" holding_a = Some (row "a" pending 0 1000) /\
  exists st' m,
    addToQueue 2 None idle_env (checkin "a" None) 1500 holding_a
      = Some (st', Rejected m) /\
    (@None string = None -> m = unique_violation) /\
    getQueueItem "a" st' = None /\
    map_get "a" (queue st') = None /\
    db st' = db holding_a.
Proof.
  split; [reflexivity|]. split; [reflexivity|].
  apply (addToQueue_existing_id 2 idle_env None (checkin "a" None) 1500 holding_a).
  reflexivity.
Defined.

Lemma spawn_pass_isProcessing :
  forall now st, isProcessing (fst (spawn_pass now st)) = true.
Proof.
  intros now st. unfold spawn_pass, processQueue_enter.
  destruct (isProcessing st) eqn:E; simpl; auto.
Qed.

(** C5, as stated, fails: while the insert of a new item is still awaited
    (nothing is persisted, the table has no row with the id) the item is
    already returned by [getQueueItem]; and a rejected insert does not
    leave the Map as it was before the call, it removes the entry that was
    there under the id. *)
Lemma addToQueue_persist_first_counterexample :
  (let st1 := addToQueue_begin (checkin "a" None) 1000 (boot []) in
   has_id "a" (db st1) = false /\
   getQueueItem "a" st1 = Some (queueItem_of (checkin "a" None) 1000)) /\
  (let st2 := fst (addToQueue_end None (queueItem_of (checkin "a" None) 1500)
                     (addToQueue_begin (checkin "a" None) 1500 holding_a)) in
   getQueueItem "a" holding_a <> None /\ getQueueItem "a" st2 = None).
Proof.
  split; simpl.
  - split; reflexivity.
  - split; [discriminate | reflexivity].
Qed.

(** C5, amended.  [addToQueue] fills in status 'pending', retry count 0,
    [created_at = now], [next_retry_at = 0]; it puts the item in the Map
    first, with the table untouched, and then awaits the insert.  When the
    insert succeeds the row is appended to the table, the item stays in the
    Map and [processQueue()] is called: a pass is started at offset 0
    unless one is in progress, in which case the call returns at the
    guard; either way a pass is in progress when [addToQueue] returns, and
    a call left to finish alone is followed by that pass.  When the insert
    is rejected the id is removed from the Map, the call fails with the
    message of the rejection, no pass is started and the table is
    unchanged. *)
Theorem addToQueue_memory_then_store :
  forall (fault : Fault) (item : QueueInput) (now : Z) (a : Answer)
         (fuel : nat) (env : PassEnv) (ts : list Task) (st : State),
    let q := queueItem_of item now in
    let st1 := addToQueue_begin item now st in
    let r := addToQueue_end fault q st1 in
    let resumed := task_step (mkAnswer fault (ans_connected a) (ans_metadata a)
                                (ans_video a) (ans_clock a)) (TAdd q) st1 in
    (status q = pending /\ retry_count q = 0%nat /\
     created_at q = now /\ next_retry_at q = 0) /\
    (getQueueItem (in_id item) st1 = Some q /\ db st1 = db st /\
     act (AddToQueue item now) (mkMachine st ts) = mkMachine st1 (ts ++ [TAdd q])) /\
    (snd r = Resolved tt ->
       fault = None /\ has_id (in_id item) (db st) = false /\
       db (fst r) = db st ++ [q] /\
       getQueueItem (in_id item) (fst r) = Some q /\
       (isProcessing st = false ->
          resumed = (with_isProcessing true (fst r),
                     [TPass (AwaitPage (ans_clock a) 0)])) /\
       (isProcessing st = true -> resumed = (fst r, [])) /\
       isProcessing (fst resumed) = true /\
       db (fst resumed) = db st ++ [q] /\
       getQueueItem (in_id item) (fst resumed) = Some q /\
       addToQueue fuel fault env item now st
         = option_map (fun s => (s, Resolved tt)) (processQueue fuel env (fst r))) /\
    (forall m, snd r = Rejected m ->
       (fault = Some m \/ (fault = None /\ has_id (in_id item) (db st) = true)) /\
       getQueueItem (in_id item) (fst r) = None /\
       db (fst r) = db st /\
       isProcessing (fst r) = isProcessing st /\
       resumed = (fst r, []) /\
       addToQueue fuel fault env item now st = Some (fst r, Rejected m)).
Proof.
  intros fault item now a fuel env ts st q st1 r resumed.
  assert (Hget : getQueueItem (in_id item) st1 = Some q)
    by apply (getQueueItem_attach q st).
  split; [repeat split|].
  split; [split; [exact Hget | split; reflexivity]|].
  subst resumed r. unfold addToQueue, task_step.
  fold q st1. cbn [ans_fault ans_clock].
  unfold addToQueue_end.
  change (db st1) with (db st). unfold addToUploadQueue.
  change (id q) with (in_id item).
  destruct fault as [m0|].
  - cbn [fst snd]. split; [discriminate|]. intros m Hm. inversion Hm; subst.
    repeat split; auto. apply getQueueItem_delete.
  - destruct (has_id (in_id item) (db st)) eqn:Hid; cbn [fst snd].
    + split; [discriminate|]. intros m Hm. inversion Hm; subst.
      repeat split; auto. apply getQueueItem_delete.
    + split; [|discriminate]. intros _.
      change (with_uploaded_at None q) with q.
      assert (Hget' : getQueueItem (in_id item) (with_db (db st ++ [q]) st1) = Some q)
        by exact Hget.
      unfold spawn_pass, processQueue_enter.
      change (isProcessing (with_db (db st ++ [q]) st1)) with (isProcessing st).
      destruct (isProcessing st) eqn:Hp; cbn [fst snd];
        repeat split; auto; try discriminate.
Qed.

(* ================================================================== *)
(** * What an attempt leaves untouched *)
(* ================================================================== *)

Lemma updateItemStatus_db :
  forall k s e st, db (updateItemStatus k s e st) = db st.
Proof.
  intros k s e st. unfold updateItemStatus.
  destruct (map_get k (queue st)); reflexivity.
Qed.

Lemma updateItemStatus_queue :
  forall k s e st, queue (updateItemStatus k s e st) = queue st.
Proof.
  intros k s e st. unfold updateItemStatus.
  destruct (map_get k (queue st)); reflexivity.
Qed.

Lemma updateItemStatus_retryTimer :
  forall k s e st, retryTimer (updateItemStatus k s e st) = retryTimer st.
Proof.
  intros k s e st. unfold updateItemStatus.
  destruct (map_get k (queue st)); reflexivity.
Qed.

Lemma updateItemStatus_isProcessing :
  forall k s e st, isProcessing (updateItemStatus k s e st) = isProcessing st.
Proof.
  intros k s e st. unfold updateItemStatus.
  destruct (map_get k (queue st)); reflexivity.
Qed.

(** An object keeps its payload and its retry count through
    [updateItemStatus]. *)
Lemma updateItemStatus_object :
  forall k s e st l r,
    nth_error (heap st) l = Some r ->
    exists r', nth_error (heap (updateItemStatus k s e st)) l = Some r' /\
               same_payload r r' /\ retry_count r' = retry_count r /\
               next_retry_at r' = next_retry_at r /\
               (status r' = status r \/ status r' = s).
Proof.
  intros k s e st l r H. unfold updateItemStatus.
  destruct (map_get k (queue st)) as [l0|]; simpl.
  - destruct (Nat.eq_dec l0 l) as [->|Hne].
    + rewrite nth_error_mutate_same, H. simpl.
      eexists; split; [reflexivity|].
      destruct (truthy e); simpl; repeat split; auto.
    + rewrite nth_error_mutate_other by assumption.
      exists r. repeat split; auto.
  - exists r. repeat split; auto.
Qed.

Lemma updateUploadQueueStatus_next_retry_at :
  forall fault k s rc em now t t',
    updateUploadQueueStatus fault k s rc em now t = Resolved t' ->
    map next_retry_at t' = map next_retry_at t.
Proof.
  intros fault k s rc em now t t' H.
  unfold updateUploadQueueStatus in H. destruct fault; [discriminate|].
  inversion H; subst; clear H.
  rewrite map_map. apply map_ext. intros r.
  destruct (String.eqb (id r) k); [|reflexivity].
  unfold apply_update. destruct rc, em, s; reflexivity.
Qed.

Lemma processItem_persist_next_retry_at :
  forall fault m delay item st,
    map next_retry_at (db (processItem_persist fault m delay item st))
    = map next_retry_at (db st).
Proof.
  intros fault m delay item st. unfold processItem_persist.
  destruct (nth_error (heap st) item) as [it|]; [|reflexivity].
  destruct (updateUploadQueueStatus fault (id it) failed (Some (retry_count it))
              (Some (Some m)) 0 (db st)) as [t'|] eqn:E.
  - apply updateUploadQueueStatus_next_retry_at in E.
    destruct delay; simpl; exact E.
  - destruct delay; reflexivity.
Qed.

Lemma processItem_start_db :
  forall c item st, db (fst (processItem_start c item st)) = db st.
Proof.
  intros c item st. unfold processItem_start.
  destruct (nth_error (heap st) item) as [it|]; [|reflexivity].
  destruct (negb c); [reflexivity|].
  destruct (maxRetries <=? retry_count it)%nat; simpl;
    apply updateItemStatus_db.
Qed.

Lemma processItem_settled_db :
  forall m v item st, db (fst (processItem_settled m v item st)) = db st.
Proof.
  intros m v item st. unfold processItem_settled.
  destruct (nth_error (heap st) item) as [it|]; [|reflexivity].
  destruct (responseError it m v); reflexivity.
Qed.

Lemma processItem_catch_db :
  forall m now item st, db (fst (processItem_catch m now item st)) = db st.
Proof.
  intros m now item st. unfold processItem_catch.
  destruct (nth_error (heap st) item) as [it|]; [|reflexivity].
  destruct (S (retry_count it) <? maxRetries)%nat; simpl;
    rewrite updateItemStatus_db; reflexivity.
Qed.

Lemma processItem_completed_next_retry_at :
  forall fault now item st,
    map next_retry_at (db (fst (processItem_completed fault now item st)))
    = map next_retry_at (db st).
Proof.
  intros fault now item st. unfold processItem_completed.
  destruct (nth_error (heap st) item) as [it|]; [|reflexivity].
  destruct (updateUploadQueueStatus fault (id it) completed None None now (db st))
    as [t'|] eqn:E; simpl; [|reflexivity].
  now apply updateUploadQueueStatus_next_retry_at in E.
Qed.

Lemma processItem_failure_next_retry_at :
  forall now fault m item st,
    map next_retry_at (db (fst (processItem_failure now fault m item st)))
    = map next_retry_at (db st).
Proof.
  intros now fault m item st. unfold processItem_failure.
  destruct (processItem_catch m now item st) as [st1 delay] eqn:E.
  simpl. rewrite processItem_persist_next_retry_at.
  change st1 with (fst (st1, delay)). rewrite <- E.
  now rewrite processItem_catch_db.
Qed.

(** No call of [processItem] changes the [next_retry_at] column of any row. *)
Lemma processItem_next_retry_at :
  forall a item st,
    map next_retry_at (db (fst (processItem a item st)))
    = map next_retry_at (db st).
Proof.
  intros a item st. unfold processItem.
  pose proof (processItem_start_db (isConnected a) item st) as H1.
  destruct (processItem_start (isConnected a) item st) as [st1 [o|]];
    simpl in H1; [simpl; now rewrite H1|].
  pose proof (processItem_settled_db (metadataResponse a) (videoResponse a) item st1) as H2.
  destruct (processItem_settled (metadataResponse a) (videoResponse a) item st1)
    as [st2 [m|]]; simpl in H2.
  - rewrite processItem_failure_next_retry_at. congruence.
  - pose proof (processItem_completed_next_retry_at (completedFault a) (settledAt a) item st2) as H3.
    destruct (processItem_completed (completedFault a) (settledAt a) item st2)
      as [st3 [m|]]; simpl in H3.
    + rewrite processItem_failure_next_retry_at. congruence.
    + simpl. congruence.
Qed.

(* ================================================================== *)
(** * Failed attempts and the retry time *)
(* ================================================================== *)

(** C4 (the code departs from the claim).  No statement executed between
    the entry of [processItem] and the start of the uploads writes to the
    table, and [updateItemStatus] never does: at the moment the uploads of
    "a" are in flight the Map reports 'uploading' while the row is still
    'pending'. *)
Theorem uploading_is_not_persisted :
  (forall k s e st, db (updateItemStatus k s e st) = db st) /\
  (forall c item st, db (fst (processItem_start c item st)) = db st) /\
  (let m := run attempt_started (start []) in
   tasks m = [TPass (AwaitUploads 1001 0 [] 1)] /\
   option_map status (getQueueItem "a" (engine m)) = Some uploading /\
   option_map status (find_id "a" (db (engine m))) = Some pending).
Proof.
  split; [exact updateItemStatus_db|].
  split; [exact processItem_start_db|].
  vm_compute. repeat split.
Qed.

(** C3 (the code departs from the claim).  The delay is 5000 ms after the
    first failure and 10000 ms after the second, but no call of
    [processItem] ever changes the [next_retry_at] column: after the first
    failure of "a" at clock 1500 the object in the Map has
    [next_retry_at = 6500] and the timer is armed for 5000 ms, the row has
    status 'failed', count 1 and the error message, and its
    [next_retry_at] is still 0. *)
Theorem next_retry_at_is_not_persisted :
  (backoff 1 = 5000 /\ backoff 2 = 10000) /\
  (forall a item st,
     map next_retry_at (db (fst (processItem a item st)))
     = map next_retry_at (db st)) /\
  (let st := engine (run first_failure (start [])) in
   retryTimer st = Some 5000 /\
   getQueueItem "a" st
     = Some (with_next_retry_at 6500
               (with_error_message (Some "HTTP 500: Unknown error")
                  (row "a" failed 1 1000))) /\
   find_id "a" (db st)
     = Some (with_next_retry_at 0
               (with_error_message (Some "HTTP 500: Unknown error")
                  (row "a" failed 1 1000)))).
Proof.
  split; [split; reflexivity|].
  split; [exact processItem_next_retry_at|].
  vm_compute. repeat split.
Qed.

(* ================================================================== *)
(** * Loading the queue at start *)
(* ================================================================== *)

Lemma unique_ids_same_row :
  forall t r r', unique_ids t -> In r t -> In r' t -> id r = id r' -> r = r'.
Proof.
  unfold unique_ids. induction t as [|x t IH]; simpl; intros r r' Hnd Hr Hr' Hid.
  - contradiction.
  - inversion Hnd as [|? ? Hnotin Hnd']; subst.
    destruct Hr as [->|Hr], Hr' as [->|Hr']; auto.
    + exfalso. apply Hnotin. rewrite Hid. now apply in_map.
    + exfalso. apply Hnotin. rewrite <- Hid. now apply in_map.
Qed.

Lemma getQueueItems_heap :
  forall st r, In r (getQueueItems st) -> In r (heap st).
Proof.
  intros st r H. unfold getQueueItems in H.
  apply in_flat_map in H. destruct H as [[k l] [_ H]]. simpl in H.
  destruct (nth_error (heap st) l) as [x|] eqn:E; simpl in H; [|contradiction].
  destruct H as [->|[]]. eapply nth_error_In; eauto.
Qed.

Section LoadFacts.

Variable resetFault : string -> Fault.

(** On records none of which is 'uploading' the loop writes nothing. *)
Lemma loadRecords_pending :
  forall records st,
    (forall r, In r records -> status r <> uploading) ->
    let st' := fst (loadRecords resetFault records st) in
    db st' = db st /\
    (forall r, In r (heap st') -> In r (heap st) \/ In r records) /\
    (forall k, map_get k (queue st) = None ->
               (forall r, In r records -> id r <> k) ->
               map_get k (queue st') = None).
Proof.
  induction records as [|record rest IH]; intros st Hst; simpl.
  - repeat split; auto.
  - assert (Hrec : status record <> uploading) by (apply Hst; now left).
    assert (Hrest : forall r, In r rest -> status r <> uploading)
      by (intros; apply Hst; now right).
    specialize (IH (snd (attach record st)) Hrest).
    destruct IH as [IHdb [IHheap IHq]].
    destruct (status record) eqn:E; try congruence.
    all: (split; [exact IHdb|]; split;
      [ intros r Hr; apply IHheap in Hr; simpl in Hr;
        destruct Hr as [Hr|Hr]; auto;
        apply in_app_or in Hr; destruct Hr as [Hr|[->|[]]]; auto
      | intros k Hk Hne; apply IHq;
        [ simpl; rewrite map_get_set_other; auto;
          intros ->; apply (Hne record); auto
        | intros r Hr; apply Hne; now right ] ]).
Qed.

End LoadFacts.

(** C1 (the code departs from the claim).  On a table with unique ids, a
    row that was persisted as 'uploading' is not loaded by [initialize]:
    whatever the store answers, after the load the table is exactly as it
    was found (the row is still 'uploading'), [getQueueItem] has nothing
    under the id of the row, and no item of the Map is 'uploading'. *)
Theorem initialize_ignores_uploading_rows :
  forall (t : Table) (fault : Fault) (resetFault : string -> Fault)
         (r : UploadQueueRecord),
    unique_ids t -> In r t -> status r = uploading ->
    let st' := initialize_load fault resetFault (boot t) in
    db st' = t /\
    getQueueItem (id r) st' = None /\
    (forall x, In x (getQueueItems st') -> status x <> uploading).
Proof.
  intros t fault resetFault r Hu Hin Hst st'.
  subst st'. unfold initialize_load, loadQueueFromDatabase.
  destruct (getPendingUploads fault None 0 (db (boot t))) as [records|m] eqn:E.
  - assert (Hrec : forall x, In x records -> In x t /\ is_pending_or_failed x = true)
      by (intros x Hx; eapply getPendingUploads_In; eauto).
    assert (Hno : forall x, In x records -> status x <> uploading).
    { intros x Hx. apply Hrec in Hx. destruct Hx as [_ Hx].
      unfold is_pending_or_failed in Hx. destruct (status x); congruence. }
    destruct (loadRecords_pending resetFault records (with_queue [] (boot t)) Hno)
      as [Hdb [Hheap Hq]].
    split; [exact Hdb|]. split.
    + unfold getQueueItem. simpl queue.
      rewrite Hq; auto.
      intros x Hx Hid. pose proof (Hno x Hx) as Hsx.
      apply Hrec in Hx. destruct Hx as [Hx _].
      assert (x = r) by (eapply unique_ids_same_row; eauto).
      congruence.
    + intros x Hx. apply getQueueItems_heap in Hx. simpl heap in Hx.
      apply Hheap in Hx. destruct Hx as [[]|Hx]. now apply Hno.
  - simpl. split; [reflexivity|]. split; [reflexivity|]. intros x [].
Qed.

Lemma initialize_ignores_uploading_rows_witness :
  unique_ids after_crash /\
  In (row "a" uploading 1 1000) after_crash /\
  status (row "a" uploading 1 1000) = uploading /\
  (let st' := initialize_load None (fun _ => None) (boot after_crash) in
   db st' = after_crash /\
   getQueueItem "a" st' = None /\
   (forall x, In x (getQueueItems st') -> status x <> uploading)).
Proof.
  assert (Hu : unique_ids after_crash).
  { unfold unique_ids, after_crash; simpl.
    repeat constructor; simpl; intuition discriminate. }
  split; [exact Hu|]. split; [now left|]. split; [reflexivity|].
  apply (initialize_ignores_uploading_rows after_crash None (fun _ => None)
           (row "a" uploading 1 1000) Hu); [now left | reflexivity].
Defined.

(* ================================================================== *)
(** * Successful attempts *)
(* ================================================================== *)

Lemma responseError_None :
  forall it m v,
    responseError it m v = None <->
    success m = true /\ (truthy (video_uri it) = false \/ success v = true).
Proof.
  intros it m v. unfold responseError.
  destruct (success m), (truthy (video_uri it)), (success v); simpl;
    split; intros H; try discriminate; try tauto;
    destruct H as [H1 [H2|H2]]; discriminate.
Qed.

Lemma responseError_payload :
  forall it it' m v,
    same_payload it it' -> responseError it' m v = responseError it m v.
Proof.
  intros it it' m v [_ [Hv _]]. unfold responseError. now rewrite Hv.
Qed.

Lemma completed_rows_not_pending :
  forall k t fault limit offset rows x,
    (forall r, In r t -> id r = k -> status r = completed) ->
    getPendingUploads fault limit offset t = Resolved rows ->
    In x rows -> id x <> k.
Proof.
  intros k t fault limit offset rows x Hall Hq Hx Hid.
  destruct (getPendingUploads_In _ _ _ _ _ _ Hq Hx) as [Hin Hp].
  specialize (Hall x Hin Hid).
  unfold is_pending_or_failed in Hp. rewrite Hall in Hp. discriminate.
Qed.

(* ================================================================== *)
(** * Items the page scan passes over *)
(* ================================================================== *)

Lemma quiescent_intro :
  forall m, tasks m = [] -> retryTimer (engine m) = None ->
            isProcessing (engine m) = false -> quiescent m.
Proof.
  intros [st ts] Ht Hr Hp. simpl in *. subst ts.
  repeat split; auto.
  - intros [|i] a; reflexivity.
  - intros now. unfold act; simpl. now rewrite Hr.
Qed.

(** C2 (the code departs from the claim).  The offset of the page query
    advances by 5 while the rows already uploaded leave the result set, so
    rows are passed over.  In both executions every transfer succeeds and
    the store never fails, yet the engine comes to rest (no call suspended,
    no timer armed) with an enqueued item still 'pending' in the table and
    still returned by [getQueueItems()]. *)
Theorem enqueued_item_left_pending :
  (let m := run overlapping_enqueues (start []) in
   quiescent m /\
   map (fun r => (id r, status r)) (db (engine m))
     = [("a", completed); ("b", pending)] /\
   map (fun r => (id r, status r)) (getQueueItems (engine m))
     = [("b", pending)]) /\
  (let m := run six_enqueues (start []) in
   quiescent m /\
   map (fun r => (id r, status r)) (db (engine m))
     = [("a", completed); ("b", completed); ("c", completed);
        ("d", completed); ("e", completed); ("f", pending)] /\
   map (fun r => (id r, status r)) (getQueueItems (engine m))
     = [("f", pending)]).
Proof.
  split; (split; [apply quiescent_intro; vm_compute; reflexivity
                 | vm_compute; split; reflexivity]).
Qed.

(* ================================================================== *)
(** * Three failures *)
(* ================================================================== *)

Lemma mutate_alloc :
  forall f (h : list UploadQueueRecord) r,
    mutate (length h) f (h ++ [r]) = h ++ [f r].
Proof.
  intros f h r. induction h as [|x h IH]; simpl; [reflexivity|].
  now rewrite IH.
Qed.

Lemma settled_not_pending :
  forall t, settled t -> filter is_pending_or_failed t = [].
Proof.
  induction t as [|x t IH]; intros H; simpl; [reflexivity|].
  unfold is_pending_or_failed at 1. rewrite (H x) by now left.
  apply IH. intros r Hr. apply H. now right.
Qed.

Lemma pending_rows_last :
  forall t r, settled t ->
    order_by_created_at (filter is_pending_or_failed (t ++ [r]))
    = if is_pending_or_failed r then [r] else [].
Proof.
  intros t r H. rewrite filter_app, settled_not_pending by assumption.
  simpl. destruct (is_pending_or_failed r); reflexivity.
Qed.

Lemma has_id_false_map :
  forall k f t, has_id k t = false ->
    map (fun x => if String.eqb (id x) k then f x else x) t = t.
Proof.
  intros k f. induction t as [|x t IH]; simpl; intros H; [reflexivity|].
  apply orb_false_iff in H. destruct H as [Hx Ht].
  rewrite Hx, IH by assumption. reflexivity.
Qed.

Lemma update_last_row :
  forall k f t r, has_id k t = false -> id r = k ->
    map (fun x => if String.eqb (id x) k then f x else x) (t ++ [r])
    = t ++ [f r].
Proof.
  intros k f t r Hk Hr. rewrite map_app, has_id_false_map by assumption.
  simpl. rewrite Hr, String.eqb_refl. reflexivity.
Qed.

Lemma or_else_truthy :
  forall s fallback, fallback <> "" -> truthy (Some (or_else s fallback)) = true.
Proof.
  intros s fallback H. unfold or_else, truthy.
  destruct s as [s|].
  - destruct (String.eqb s "") eqn:E.
    + apply negb_true_iff. now apply String.eqb_neq.
    + now rewrite E.
  - apply negb_true_iff. now apply String.eqb_neq.
Qed.

Lemma transfer_fails_thrown :
  forall r a, transfer_fails r a ->
    responseError r (metadataResponse a) (videoResponse a) = Some (thrown r a) /\
    truthy (Some (thrown r a)) = true.
Proof.
  intros r a H. unfold thrown, responseError.
  destruct (success (metadataResponse a)) eqn:Em; simpl.
  - destruct H as [H|[Hv Hs]]; [congruence|].
    rewrite Hv, Hs. simpl. split; [reflexivity|].
    apply or_else_truthy. discriminate.
  - split; [reflexivity|]. apply or_else_truthy. discriminate.
Qed.

(** A failed attempt on the row object [r] that the pass has just put in
    the Map, with the write of 'failed' accepted. *)
Lemma processItem_fails :
  forall a r st,
    isConnected a = true ->
    (retry_count r < maxRetries)%nat ->
    transfer_fails r a ->
    failedFault a = None ->
    processItem a (length (heap st)) (snd (attach r st))
    = (mkState
         (map (fun x => if String.eqb (id x) (id r)
                        then apply_update failed (Some (S (retry_count r)))
                               (Some (Some (thrown r a))) 0 x
                        else x) (db st))
         (heap st ++ [failed_object r (thrown r a) (settledAt a)])
         (map_set (id r) (length (heap st)) (queue st))
         (isProcessing st) (networkListener st) (listeners st)
         (if (S (retry_count r) <? maxRetries)%nat
          then Some (backoff (S (retry_count r)))
          else retryTimer st),
       Failed (thrown r a)).
Proof.
  intros a r st Hc Hrc Hfail Hf.
  destruct (transfer_fails_thrown r a Hfail) as [Herr Htruthy].
  set (msg := thrown r a) in *.
  assert (Hmax : (maxRetries <=? retry_count r)%nat = false)
    by (apply Nat.leb_gt; exact Hrc).
  unfold processItem, processItem_start, attach. cbn [snd heap with_queue with_heap].
  rewrite nth_error_alloc, Hc, Hmax. cbn [negb].
  unfold updateItemStatus at 1. cbn [queue with_queue with_heap heap].
  rewrite map_get_set_same, mutate_alloc. cbn [truthy].
  unfold processItem_settled. cbn [heap with_heap].
  rewrite nth_error_alloc.
  change (responseError (with_status uploading r) (metadataResponse a) (videoResponse a))
    with (responseError r (metadataResponse a) (videoResponse a)).
  rewrite Herr.
  unfold processItem_failure, processItem_catch. cbn [heap with_heap].
  rewrite nth_error_alloc, mutate_alloc.
  unfold updateItemStatus. cbn [queue with_queue with_heap heap id with_status].
  rewrite map_get_set_same, mutate_alloc, Htruthy.
  unfold failed_object, failed_row.
  cbn [retry_count with_status].
  destruct (S (retry_count r) <? maxRetries)%nat eqn:Hlt.
  - cbn [heap with_heap]. rewrite mutate_alloc.
    unfold processItem_persist. cbn [heap with_heap].
    rewrite nth_error_alloc, Hf. reflexivity.
  - unfold processItem_persist. cbn [heap with_heap].
    rewrite nth_error_alloc, Hf. reflexivity.
Qed.

Lemma with_status_same :
  forall r s, status r = s -> with_status s r = r.
Proof. intros [] s H; simpl in *; subst; reflexivity. Qed.

Lemma page_beyond_single :
  forall fault t r rows, settled t ->
    getPendingUploads fault (Some BATCH_SIZE) BATCH_SIZE (t ++ [r]) = Resolved rows ->
    rows = [].
Proof.
  intros fault t r rows Ht H. unfold getPendingUploads in H.
  destruct fault; [discriminate|].
  rewrite pending_rows_last in H by assumption.
  destruct (is_pending_or_failed r); inversion H; reflexivity.
Qed.

Lemma first_page_single :
  forall t r, settled t -> is_pending_or_failed r = true ->
    getPendingUploads None (Some BATCH_SIZE) 0 (t ++ [r]) = Resolved [r].
Proof.
  intros t r Ht Hr. unfold getPendingUploads.
  rewrite pending_rows_last, Hr by assumption. reflexivity.
Qed.

Lemma processPages_S :
  forall fuel env offset st,
    processPages (S fuel) env offset st =
    match getPendingUploads (pageFault env offset) (Some BATCH_SIZE) offset (db st) with
    | Rejected _ => Some st
    | Resolved [] => Some st
    | Resolved dbItems =>
        processPages fuel env (offset + BATCH_SIZE)
          (processItems env (itemsToProcess (passNow env) dbItems) st)
    end.
Proof. reflexivity. Qed.

(** A pass over a table whose only unfinished row is [r], when [r] is due
    and both page queries are answered: [r] is put in the Map and
    processed, and the second page is empty. *)
Lemma processQueue_single :
  forall fuel e st t r st2 o r',
    settled t -> db st = t ++ [r] -> isProcessing st = false ->
    is_pending_or_failed r = true ->
    next_retry_at r <= passNow e ->
    pageFault e 0%nat = None ->
    processItem (attempt e (id r)) (length (heap st))
      (snd (attach r (with_isProcessing true st))) = (st2, o) ->
    db st2 = t ++ [r'] ->
    processQueue (S (S fuel)) e st = Some (with_isProcessing false st2).
Proof.
  intros fuel e st t r st2 o r' Ht Hdb Hp Hr Hdue Hf0 Hitem Hdb2.
  unfold processQueue. rewrite Hp.
  rewrite processPages_S. cbn [db with_isProcessing].
  rewrite Hdb, Hf0, first_page_single by assumption.
  unfold itemsToProcess. cbn [filter].
  apply Z.leb_le in Hdue. rewrite Hdue.
  cbn [processItems].
  unfold attach in Hitem |- *.
  cbn [snd heap with_isProcessing] in Hitem |- *.
  rewrite Hitem. cbn [fst].
  rewrite processPages_S.
  destruct (getPendingUploads (pageFault e (0 + BATCH_SIZE)) (Some BATCH_SIZE)
              (0 + BATCH_SIZE) (db st2)) as [rows|m] eqn:E; [|reflexivity].
  rewrite Hdb2 in E. apply page_beyond_single in E; [|assumption].
  subst rows. reflexivity.
Qed.

Lemma failed_pass :
  forall fuel e st t r,
    settled t -> has_id (id r) t = false ->
    db st = t ++ [r] -> isProcessing st = false ->
    is_pending_or_failed r = true -> next_retry_at r = 0 ->
    (retry_count r < maxRetries)%nat ->
    failing_pass r e ->
    exists st',
      processQueue (S (S fuel)) e st = Some st' /\
      db st' = t ++ [failed_row r (thrown r (attempt e (id r)))] /\
      getQueueItem (id r) st'
        = Some (failed_object r (thrown r (attempt e (id r)))
                  (settledAt (attempt e (id r)))) /\
      retryTimer st'
        = (if (S (retry_count r) <? maxRetries)%nat
           then Some (backoff (S (retry_count r)))
           else retryTimer st) /\
      isProcessing st' = false /\
      listeners st' = listeners st.
Proof.
  intros fuel e st t r Ht Hid Hdb Hp Hr Hnext Hrc [Hnow [Hpage [Hc [Hfail Hf]]]].
  pose proof (processItem_fails (attempt e (id r)) r (with_isProcessing true st)
                Hc Hrc Hfail Hf) as Hitem.
  cbn [heap db queue isProcessing networkListener listeners retryTimer
       with_isProcessing] in Hitem.
  assert (Hdue : next_retry_at r <= passNow e) by (rewrite Hnext; exact Hnow).
  eexists. split.
  - apply (processQueue_single fuel e st t r _ _
             (failed_row r (thrown r (attempt e (id r))))
             Ht Hdb Hp Hr Hdue (Hpage 0%nat) Hitem).
    cbn [db]. rewrite Hdb. apply update_last_row; auto.
  - split; [cbn [db with_isProcessing]; rewrite Hdb;
              apply update_last_row; auto|].
    split; [|split; [|split]; reflexivity].
    unfold getQueueItem. cbn [queue heap with_isProcessing].
    rewrite map_get_set_same. apply nth_error_alloc.
Qed.

(** A pass, under any environment, over a table whose only unfinished row
    has used up its retries. *)
Lemma exhausted_pass :
  forall fuel e st t r,
    settled t -> db st = t ++ [r] -> isProcessing st = false ->
    status r = failed -> (maxRetries <= retry_count r)%nat ->
    getQueueItem (id r) st = Some r ->
    exists st',
      processQueue (S (S fuel)) e st = Some st' /\
      db st' = db st /\
      getQueueItem (id r) st' = Some r /\
      retryTimer st' = retryTimer st /\
      isProcessing st' = false.
Proof.
  intros fuel e st t r Ht Hdb Hp Hst Hrc Hmem.
  assert (Hr : is_pending_or_failed r = true)
    by (unfold is_pending_or_failed; now rewrite Hst).
  unfold processQueue. rewrite Hp, processPages_S.
  cbn [db with_isProcessing].
  destruct (pageFault e 0%nat) as [m|] eqn:Hf0.
  { (* the first page query is rejected *)
    eexists. split; [reflexivity|]. repeat split; auto. }
  rewrite Hdb, first_page_single by assumption.
  unfold itemsToProcess. cbn [filter].
  destruct (next_retry_at r <=? passNow e) eqn:Hdue.
  - (* the row is put in the Map and processItem returns at once *)
    cbn [processItems]. unfold attach.
    cbn [heap with_isProcessing queue].
    set (st1 := with_queue _ _).
    assert (Hitem : exists st2,
               processItem (attempt e (id r)) (length (heap st)) st1
               = (st2, if isConnected (attempt e (id r)) then Exhausted else Skipped) /\
               db st2 = t ++ [r] /\
               getQueueItem (id r) st2 = Some r /\
               retryTimer st2 = retryTimer st).
    { unfold processItem, processItem_start. subst st1.
      cbn [heap with_queue with_heap].
      rewrite nth_error_alloc.
      destruct (isConnected (attempt e (id r))); cbn [negb].
      - apply Nat.leb_le in Hrc. rewrite Hrc.
        unfold updateItemStatus. cbn [queue with_queue with_heap heap].
        rewrite map_get_set_same, mutate_alloc. cbn [truthy].
        rewrite with_status_same by assumption.
        eexists. split; [reflexivity|].
        cbn [db with_heap with_queue with_isProcessing retryTimer].
        repeat split; auto.
        unfold getQueueItem. cbn [queue heap with_heap with_queue].
        rewrite map_get_set_same. apply nth_error_alloc.
      - eexists. split; [reflexivity|].
        cbn [db with_heap with_queue with_isProcessing retryTimer].
        repeat split; auto.
        unfold getQueueItem. cbn [queue heap with_heap with_queue].
        rewrite map_get_set_same. apply nth_error_alloc. }
    destruct Hitem as [st2 [Hitem [Hdb2 [Hmem2 Ht2]]]].
    rewrite Hitem. cbn [fst]. rewrite processPages_S.
    destruct (getPendingUploads (pageFault e (0 + BATCH_SIZE)) (Some BATCH_SIZE)
                (0 + BATCH_SIZE) (db st2)) as [rows|m] eqn:E.
    + rewrite Hdb2 in E. apply page_beyond_single in E; [|assumption].
      subst rows. eexists. split; [reflexivity|].
      cbn [db with_isProcessing retryTimer isProcessing].
      repeat split; auto; congruence.
    + eexists. split; [reflexivity|].
      cbn [db with_isProcessing retryTimer isProcessing].
      repeat split; auto; congruence.
  - (* the row is not due at the clock of this pass *)
    cbn [processItems]. rewrite processPages_S.
    cbn [db with_isProcessing].
    destruct (getPendingUploads (pageFault e (0 + BATCH_SIZE)) (Some BATCH_SIZE)
                (0 + BATCH_SIZE) (db st)) as [rows|m] eqn:E.
    + rewrite Hdb in E. apply page_beyond_single in E; [|assumption].
      subst rows. eexists. split; [reflexivity|]. repeat split; auto.
    + eexists. split; [reflexivity|]. repeat split; auto.
Qed.

(** An item picked up with its retries used up: [processItem] returns on
    entry, having at most set 'failed' on the object in the Map. *)
Lemma processItem_exhausted :
  forall a r st,
    (maxRetries <= retry_count r)%nat ->
    processItem a (length (heap st)) (snd (attach r st))
    = if isConnected a
      then (with_heap (heap st ++ [with_status failed r]) (snd (attach r st)),
            Exhausted)
      else (snd (attach r st), Skipped).
Proof.
  intros a r st Hrc. apply Nat.leb_le in Hrc.
  unfold processItem, processItem_start, attach.
  cbn [snd heap with_queue with_heap].
  rewrite nth_error_alloc.
  destruct (isConnected a); cbn [negb]; [|reflexivity].
  rewrite Hrc. unfold updateItemStatus. cbn [queue with_queue with_heap heap].
  rewrite map_get_set_same, mutate_alloc. reflexivity.
Qed.

(* ================================================================== *)
(** * Single flight: the invariant of interleaved executions *)
(* ================================================================== *)

Lemma is_uploading_true : forall r, is_uploading r = true <-> status r = uploading.
Proof.
  intros r. unfold is_uploading. destruct (status r); simpl; split; congruence.
Qed.

Lemma heap_ext_refl : forall h, heap_ext h h.
Proof. intros h l r H. eauto. Qed.

Lemma heap_ext_trans :
  forall h1 h2 h3, heap_ext h1 h2 -> heap_ext h2 h3 -> heap_ext h1 h3.
Proof.
  intros h1 h2 h3 H12 H23 l r H.
  destruct (H12 l r H) as [r' [H' E']].
  destruct (H23 l r' H') as [r'' [H'' E'']].
  exists r''. split; [assumption | congruence].
Qed.

Lemma uploading_only_weaken :
  forall (P Q : string -> Prop) st,
    (forall k, P k -> Q k) -> uploading_only P st -> uploading_only Q st.
Proof. intros P Q st HPQ H k l r H1 H2 H3. eauto. Qed.

(** ** Entries of the Map after [set] and [delete] *)

Lemma In_map_set :
  forall k v m k' l',
    In (k', l') (map_set k v m) -> (k' = k /\ l' = v) \/ In (k', l') m.
Proof.
  intros k v m k' l'. induction m as [|[k0 v0] m IH]; simpl; intros H.
  - destruct H as [H|[]]. inversion H; auto.
  - destruct (String.eqb k0 k) eqn:E.
    + destruct H as [H|H]; [inversion H; auto | auto].
    + destruct H as [H|H]; [auto | destruct (IH H); auto].
Qed.

Lemma keys_map_set :
  forall k v m k',
    In k' (map fst (map_set k v m)) <-> k' = k \/ In k' (map fst m).
Proof.
  intros k v m k'. induction m as [|[k0 v0] m IH]; simpl.
  - intuition.
  - destruct (String.eqb k0 k) eqn:E; simpl.
    + apply String.eqb_eq in E; subst k0. intuition.
    + rewrite IH. intuition.
Qed.

Lemma NoDup_map_set :
  forall k v m, NoDup (map fst m) -> NoDup (map fst (map_set k v m)).
Proof.
  intros k v m. induction m as [|[k0 v0] m IH]; simpl; intros H.
  - constructor; [intros [] | constructor].
  - inversion H as [|? ? Hnotin Hnd]; subst.
    destruct (String.eqb k0 k) eqn:E; simpl.
    + apply String.eqb_eq in E; subst k0. now constructor.
    + constructor; [|now apply IH].
      rewrite keys_map_set. intros [->|Hin]; [|contradiction].
      now rewrite String.eqb_refl in E.
Qed.

Lemma In_map_delete :
  forall k m k' l',
    In (k', l') (map_delete k m) <-> In (k', l') m /\ k' <> k.
Proof.
  intros k m k' l'. unfold map_delete. rewrite filter_In. simpl.
  rewrite negb_true_iff, String.eqb_neq. tauto.
Qed.

Lemma NoDup_map_delete :
  forall k m, NoDup (map fst m) -> NoDup (map fst (map_delete k m)).
Proof.
  intros k m. induction m as [|[k0 v0] m IH]; simpl; intros H; [constructor|].
  inversion H as [|? ? Hnotin Hnd]; subst.
  destruct (String.eqb k0 k); simpl; [now apply IH|].
  constructor; [|now apply IH].
  intros Hin. apply Hnotin.
  apply in_map_iff in Hin. destruct Hin as [[k1 l1] [Hk Hin]]. simpl in Hk; subst k1.
  apply In_map_delete in Hin. destruct Hin as [Hin _].
  apply in_map_iff. exists (k0, l1). auto.
Qed.

Lemma map_get_unique :
  forall k l l' m,
    NoDup (map fst m) -> In (k, l) m -> map_get k m = Some l' -> l = l'.
Proof.
  intros k l l' m. induction m as [|[k0 v0] m IH]; simpl; intros Hnd Hin Hget.
  - contradiction.
  - inversion Hnd as [|? ? Hnotin Hnd']; subst.
    destruct (String.eqb k0 k) eqn:E.
    + apply String.eqb_eq in E; subst k0. inversion Hget; subst.
      destruct Hin as [Hin|Hin]; [congruence|].
      exfalso. apply Hnotin. apply in_map_iff. exists (k, l). auto.
    + destruct Hin as [Hin|Hin]; [|now apply IH].
      inversion Hin; subst. now rewrite String.eqb_refl in E.
Qed.

(** ** What each statement that touches the Map or an object preserves *)

Lemma heap_ext_alloc : forall h r, heap_ext h (h ++ [r]).
Proof.
  intros h r l x H. exists x. split; [|reflexivity].
  rewrite nth_error_app1; [assumption|].
  apply nth_error_Some. congruence.
Qed.

Lemma heap_ext_mutate :
  forall l0 f h, (forall r, id (f r) = id r) -> heap_ext h (mutate l0 f h).
Proof.
  intros l0 f h Hf l r H.
  destruct (Nat.eq_dec l0 l) as [->|Hne].
  - exists (f r). rewrite nth_error_mutate_same, H. auto.
  - exists r. rewrite nth_error_mutate_other by assumption. auto.
Qed.

Lemma attach_safe :
  forall r st P,
    well_keyed st -> status r <> uploading -> uploading_only P st ->
    well_keyed (snd (attach r st)) /\
    uploading_only P (snd (attach r st)) /\
    heap_ext (heap st) (heap (snd (attach r st))).
Proof.
  intros r st P [Hnd Hobj] Hr HP. unfold attach; simpl.
  assert (Hold : forall k l, In (k, l) (queue st) ->
            nth_error (heap st ++ [r]) l = nth_error (heap st) l).
  { intros k l Hin. destruct (Hobj k l Hin) as [x [Hx _]].
    apply nth_error_app1. apply nth_error_Some. congruence. }
  split; [split|split].
  - now apply NoDup_map_set.
  - intros k l Hin. apply In_map_set in Hin. destruct Hin as [[-> ->]|Hin].
    + exists r. split; [apply nth_error_alloc | reflexivity].
    + destruct (Hobj k l Hin) as [x [Hx Hk]]. exists x.
      split; [|exact Hk]. rewrite <- Hx. apply (Hold k l Hin).
  - intros k l x Hin Hx Hst. simpl in Hin, Hx. apply In_map_set in Hin.
    destruct Hin as [[-> ->]|Hin].
    + rewrite nth_error_alloc in Hx. congruence.
    + rewrite (Hold k l Hin) in Hx. eapply HP; eauto.
  - apply heap_ext_alloc.
Qed.

Lemma delete_safe :
  forall k st P,
    well_keyed st -> uploading_only P st ->
    well_keyed (with_queue (map_delete k (queue st)) st) /\
    uploading_only (fun x => P x /\ x <> k)
      (with_queue (map_delete k (queue st)) st).
Proof.
  intros k st P [Hnd Hobj] HP. split; [split|]; simpl.
  - now apply NoDup_map_delete.
  - intros k' l Hin. apply In_map_delete in Hin. now apply Hobj.
  - intros k' l x Hin Hx Hst. simpl in Hin, Hx. apply In_map_delete in Hin.
    destruct Hin as [Hin Hne]. split; [eapply HP; eauto | assumption].
Qed.

Lemma clear_safe :
  forall st P, well_keyed (with_queue [] st) /\ uploading_only P (with_queue [] st).
Proof.
  intros st P. split; [split|]; simpl.
  - constructor.
  - intros k l [].
  - intros k l x [].
Qed.

(** A field other than [id] and [status] is assigned on the object at [l0]. *)
Lemma mutate_safe :
  forall l0 f st P,
    (forall r, id (f r) = id r) -> (forall r, status (f r) = status r) ->
    well_keyed st -> uploading_only P st ->
    well_keyed (with_heap (mutate l0 f (heap st)) st) /\
    uploading_only P (with_heap (mutate l0 f (heap st)) st).
Proof.
  intros l0 f st P Hid Hstat [Hnd Hobj] HP. split; [split|]; simpl.
  - assumption.
  - intros k l Hin. destruct (Hobj k l Hin) as [x [Hx Hk]].
    destruct (heap_ext_mutate l0 f (heap st) Hid l x Hx) as [x' [Hx' Hk']].
    exists x'. split; [assumption | congruence].
  - intros k l x Hin Hx Hst. simpl in Hin, Hx.
    apply nth_error_mutate in Hx. destruct Hx as [x0 [Hx0 [-> | ->]]].
    + eapply HP; eauto.
    + rewrite Hstat in Hst. eapply HP; eauto.
Qed.

Lemma updateItemStatus_heap_ext :
  forall k s e st, heap_ext (heap st) (heap (updateItemStatus k s e st)).
Proof.
  intros k s e st. unfold updateItemStatus.
  destruct (map_get k (queue st)) as [l0|]; simpl; [|apply heap_ext_refl].
  apply heap_ext_mutate. intros r. destruct (truthy e); reflexivity.
Qed.

Lemma updateItemStatus_safe :
  forall k s e st P,
    well_keyed st -> uploading_only P st ->
    well_keyed (updateItemStatus k s e st) /\
    (s = uploading -> uploading_only (fun x => P x \/ x = k) (updateItemStatus k s e st)) /\
    (s <> uploading -> uploading_only (fun x => P x /\ x <> k) (updateItemStatus k s e st)).
Proof.
  intros k s e st P Hwk HP.
  pose proof Hwk as [Hnd Hobj].
  assert (Hwk' : well_keyed (updateItemStatus k s e st)).
  { split; [now rewrite updateItemStatus_queue|].
    intros k' l Hin. rewrite updateItemStatus_queue in Hin.
    destruct (Hobj k' l Hin) as [x [Hx Hk]].
    destruct (updateItemStatus_heap_ext k s e st l x Hx) as [x' [Hx' Hk']].
    exists x'. split; [assumption | congruence]. }
  split; [exact Hwk'|].
  unfold updateItemStatus in *.
  destruct (map_get k (queue st)) as [l0|] eqn:Hget.
  - (* the Map has an entry for [k] *)
    assert (Hkey : forall k' l, In (k', l) (queue st) -> l = l0 -> k' = k).
    { intros k' l Hin ->. apply map_get_In in Hget.
      destruct (Hobj k' l0 Hin) as [x [Hx Hk]].
      destruct (Hobj k l0 Hget) as [y [Hy Hk2]]. congruence. }
    assert (Hloc : forall l, In (k, l) (queue st) -> l = l0).
    { intros l Hin. eapply map_get_unique; eauto. }
    split; intros Hs k' l x Hin Hx Hst; simpl in Hin, Hx.
    + destruct (Nat.eq_dec l0 l) as [<-|Hne].
      * right. now apply (Hkey k' l0).
      * rewrite nth_error_mutate_other in Hx by assumption.
        left. eapply HP; eauto.
    + destruct (Nat.eq_dec l0 l) as [<-|Hne].
      * rewrite nth_error_mutate_same in Hx.
        destruct (nth_error (heap st) l0) as [x0|]; simpl in Hx; [|discriminate].
        inversion Hx; subst x.
        destruct (truthy e); simpl in Hst; congruence.
      * rewrite nth_error_mutate_other in Hx by assumption.
        split; [eapply HP; eauto|].
        intros ->. apply Hne. symmetry. now apply Hloc.
  - (* no entry for [k]: nothing happens *)
    assert (Hno : forall l, ~ In (k, l) (queue st)).
    { intros l Hin. clear - Hget Hin.
      induction (queue st) as [|[k0 v0] q IH]; simpl in *; [contradiction|].
      destruct (String.eqb k0 k) eqn:E; [discriminate|].
      destruct Hin as [Hin|Hin]; [|now apply IH].
      inversion Hin; subst. now rewrite String.eqb_refl in E. }
    split; intros Hs k' l x Hin Hx Hst.
    + left. eapply HP; eauto.
    + split; [eapply HP; eauto|]. intros ->. exact (Hno l Hin).
Qed.

(** ** The pass in progress *)

Lemma preserves_refl : forall st, preserves st st.
Proof.
  intros st. split; [auto|]. split; [auto | apply heap_ext_refl].
Qed.

Lemma preserves_trans :
  forall st1 st2 st3, preserves st1 st2 -> preserves st2 st3 -> preserves st1 st3.
Proof.
  intros st1 st2 st3 [A1 [B1 C1]] [A2 [B2 C2]].
  split; [auto|]. split; [auto | eapply heap_ext_trans; eauto].
Qed.

(** Steps that leave the Map and the objects alone. *)
Lemma preserves_same :
  forall st st', heap st' = heap st -> queue st' = queue st -> preserves st st'.
Proof.
  intros st st' Hh Hq. unfold preserves, well_keyed, uploading_only.
  rewrite Hh, Hq. split; [auto|]. split; [auto | apply heap_ext_refl].
Qed.

Lemma preserves_attach :
  forall r st, status r <> uploading -> preserves st (snd (attach r st)).
Proof.
  intros r st Hr. split; [|split].
  - intros Hwk.
    apply (attach_safe r st (fun _ => True) Hwk Hr). intros k l x _ _ _. exact I.
  - intros P Hwk HP. now apply (attach_safe r st P Hwk Hr HP).
  - apply heap_ext_alloc.
Qed.

Lemma preserves_delete :
  forall k st, preserves st (with_queue (map_delete k (queue st)) st).
Proof.
  intros k st. split; [|split].
  - intros Hwk.
    apply (delete_safe k st (fun _ => True) Hwk). intros k' l x _ _ _. exact I.
  - intros P Hwk HP.
    eapply uploading_only_weaken; [|apply (delete_safe k st P Hwk HP)].
    intros k' [H _]. exact H.
  - apply heap_ext_refl.
Qed.

Lemma preserves_clear : forall st, preserves st (with_queue [] st).
Proof.
  intros st. split; [|split].
  - intros _. apply (clear_safe st (fun _ => True)).
  - intros P _ _. apply (clear_safe st P).
  - apply heap_ext_refl.
Qed.

Lemma in_flight_ext :
  forall st st' s k,
    heap_ext (heap st) (heap st') -> in_flight st s k -> in_flight st' s k.
Proof.
  intros st st' [[| | now offset rest item | |]|] k Hext H; simpl in *; try contradiction.
  destruct H as [it [Hit Hk]].
  destruct (Hext item it Hit) as [it' [Hit' Hk']].
  exists it'. split; [assumption | congruence].
Qed.

Lemma pass_ok_ext :
  forall st st' p,
    heap_ext (heap st) (heap st') -> pass_ok st p -> pass_ok st' p.
Proof.
  intros st st' p Hext [Hrest Hitem]. split; [assumption|].
  intros item Hi. destruct (Hitem item Hi) as [it Hit].
  destruct (Hext item it Hit) as [it' [Hit' _]]. eauto.
Qed.

Lemma next_item_safe :
  forall now offset rest st,
    well_keyed st -> uploading_only (fun _ => False) st -> rest_ok rest ->
    exists p',
      snd (next_item now offset rest st) = Some p' /\
      well_keyed (fst (next_item now offset rest st)) /\
      uploading_only (in_flight (fst (next_item now offset rest st)) (Some p'))
        (fst (next_item now offset rest st)) /\
      pass_ok (fst (next_item now offset rest st)) p' /\
      isProcessing (fst (next_item now offset rest st)) = isProcessing st /\
      heap_ext (heap st) (heap (fst (next_item now offset rest st))).
Proof.
  intros now offset rest st Hwk Hno Hrest.
  destruct rest as [|dbItem rest']; simpl.
  - eexists. split; [reflexivity|].
    split; [exact Hwk|]. split; [exact Hno|].
    split; [|split; [reflexivity | apply heap_ext_refl]].
    split; [intros r [] | intros item Hi; discriminate].
  - assert (Hr : status dbItem <> uploading) by (apply Hrest; now left).
    destruct (attach_safe dbItem st (fun _ => False) Hwk Hr Hno) as [Hwk' [Hno' Hext]].
    eexists. split; [reflexivity|].
    split; [exact Hwk'|]. split; [exact Hno'|].
    split; [|split; [reflexivity | exact Hext]].
    split.
    + intros r Hin. apply Hrest. now right.
    + intros item Hi. inversion Hi; subst. simpl.
      exists dbItem. apply nth_error_alloc.
Qed.

Lemma processItem_catch_safe :
  forall m now item st it P,
    well_keyed st -> uploading_only P st ->
    nth_error (heap st) item = Some it ->
    (forall k, P k -> k = id it) ->
    well_keyed (fst (processItem_catch m now item st)) /\
    uploading_only (fun _ => False) (fst (processItem_catch m now item st)) /\
    heap_ext (heap st) (heap (fst (processItem_catch m now item st))) /\
    isProcessing (fst (processItem_catch m now item st)) = isProcessing st.
Proof.
  intros m now item st it P Hwk HP Hit HPk.
  unfold processItem_catch. rewrite Hit.
  set (n := S (retry_count it)).
  set (st1 := with_heap (mutate item (with_retry_count n) (heap st)) st).
  destruct (mutate_safe item (with_retry_count n) st P
              (fun _ => eq_refl) (fun _ => eq_refl) Hwk HP) as [Hwk1 HP1].
  fold st1 in Hwk1, HP1.
  destruct (updateItemStatus_safe (id it) failed (Some m) st1 P Hwk1 HP1)
    as [Hwk2 [_ HP2]].
  assert (Hno2 : uploading_only (fun _ => False)
                   (updateItemStatus (id it) failed (Some m) st1)).
  { eapply uploading_only_weaken; [|apply HP2; discriminate].
    intros k [Hk Hne]. apply Hne. now apply HPk. }
  assert (Hext2 : heap_ext (heap st)
                    (heap (updateItemStatus (id it) failed (Some m) st1))).
  { eapply heap_ext_trans; [|apply updateItemStatus_heap_ext].
    apply heap_ext_mutate. reflexivity. }
  destruct (n <? maxRetries)%nat; cbn [fst].
  - destruct (mutate_safe item (with_next_retry_at (now + backoff n))
                (updateItemStatus (id it) failed (Some m) st1) (fun _ => False)
                (fun _ => eq_refl) (fun _ => eq_refl) Hwk2 Hno2) as [Hwk3 Hno3].
    split; [exact Hwk3|]. split; [exact Hno3|]. split.
    + eapply heap_ext_trans; [exact Hext2|].
      apply heap_ext_mutate. reflexivity.
    + cbn [isProcessing with_heap]. now rewrite updateItemStatus_isProcessing.
  - split; [exact Hwk2|]. split; [exact Hno2|]. split; [exact Hext2|].
    now rewrite updateItemStatus_isProcessing.
Qed.

Lemma good_next_item :
  forall st now offset rest st1,
    well_keyed st1 -> uploading_only (fun _ => False) st1 -> rest_ok rest ->
    heap_ext (heap st) (heap st1) -> isProcessing st1 = isProcessing st ->
    good_step st (next_item now offset rest st1).
Proof.
  intros st now offset rest st1 Hwk Hno Hrest Hext Hproc.
  destruct (next_item_safe now offset rest st1 Hwk Hno Hrest)
    as [p' [Hp' [Hwk' [Hup' [Hok' [Hproc' Hext']]]]]].
  unfold good_step. rewrite Hp'.
  split; [exact Hwk'|]. split; [exact Hup'|]. split; [exact Hok'|].
  split; [congruence | eapply heap_ext_trans; eauto].
Qed.

Lemma processItem_persist_memory :
  forall fault m delay item st,
    heap (processItem_persist fault m delay item st) = heap st /\
    queue (processItem_persist fault m delay item st) = queue st /\
    isProcessing (processItem_persist fault m delay item st) = isProcessing st.
Proof.
  intros fault m delay item st. unfold processItem_persist.
  destruct (nth_error (heap st) item) as [it|]; [|auto].
  destruct (updateUploadQueueStatus fault (id it) failed (Some (retry_count it))
              (Some (Some m)) 0 (db st));
    destruct delay; auto.
Qed.

Lemma itemsToProcess_ok :
  forall fault limit offset t dbItems now,
    getPendingUploads fault limit offset t = Resolved dbItems ->
    rest_ok (itemsToProcess now dbItems).
Proof.
  intros fault limit offset t dbItems now H r Hin.
  unfold itemsToProcess in Hin. apply filter_In in Hin. destruct Hin as [Hin _].
  destruct (getPendingUploads_In _ _ _ _ _ _ H Hin) as [_ Hp].
  unfold is_pending_or_failed in Hp. destruct (status r); congruence.
Qed.

Lemma pass_step_safe :
  forall a p st,
    well_keyed st -> uploading_only (in_flight st (Some p)) st -> pass_ok st p ->
    good_step st (pass_step a p st).
Proof.
  intros a p st Hwk Hup [Hrest Hitem].
  destruct p as [now offset | now offset rest item | now offset rest item
                | now offset rest item issuedAt | now offset rest item m delay];
    simpl in Hrest, Hup; unfold pass_step.
  - (* the page query has settled *)
    destruct (getPendingUploads (ans_fault a) (Some BATCH_SIZE) offset (db st))
      as [[|x dbItems]|msg] eqn:E.
    + unfold good_step; simpl. repeat split; auto; try apply Hwk.
      apply heap_ext_refl.
    + apply good_next_item; auto using heap_ext_refl.
      eapply itemsToProcess_ok; eauto.
    + unfold good_step; simpl. repeat split; auto; try apply Hwk.
      apply heap_ext_refl.
  - (* NetInfo.fetch() has resolved *)
    destruct (Hitem item eq_refl) as [it Hit].
    unfold processItem_start. rewrite Hit.
    destruct (negb (ans_connected a)).
    { apply good_next_item; auto using heap_ext_refl. }
    destruct (maxRetries <=? retry_count it)%nat.
    + destruct (updateItemStatus_safe (id it) failed None st (fun _ => False) Hwk Hup)
        as [Hwk' [_ Hno']].
      apply good_next_item; auto.
      * eapply uploading_only_weaken; [|apply Hno'; discriminate]. intros k [[] _].
      * apply updateItemStatus_heap_ext.
      * apply updateItemStatus_isProcessing.
    + destruct (updateItemStatus_safe (id it) uploading None st (fun _ => False) Hwk Hup)
        as [Hwk' [Hyes' _]].
      destruct (updateItemStatus_heap_ext (id it) uploading None st item it Hit)
        as [it' [Hit' Hid']].
      unfold good_step; cbn [fst snd].
      split; [exact Hwk'|]. split.
      { eapply uploading_only_weaken; [|apply Hyes'; reflexivity].
        intros k [[] | ->]. simpl. exists it'. auto. }
      split; [split; [exact Hrest|]|].
      { intros item0 Hi. inversion Hi; subst. eauto. }
      split; [apply updateItemStatus_isProcessing | apply updateItemStatus_heap_ext].
  - (* Promise.all has resolved *)
    destruct (Hitem item eq_refl) as [it Hit].
    assert (Hkey : forall k, in_flight st (Some (AwaitUploads now offset rest item)) k ->
                             k = id it).
    { intros k [it0 [Hit0 Hk0]]. congruence. }
    unfold processItem_settled. rewrite Hit.
    destruct (responseError it (ans_metadata a) (ans_video a)) as [m|].
    + pose proof (processItem_catch_safe m (ans_clock a) item st it _ Hwk Hup Hit Hkey)
        as [Hwk' [Hno' [Hext' Hproc']]].
      destruct (processItem_catch m (ans_clock a) item st) as [st2 delay].
      cbn [fst] in *. unfold good_step; cbn [fst snd].
      split; [exact Hwk'|]. split; [exact Hno'|].
      split; [|split; assumption].
      apply (pass_ok_ext st st2 (AwaitPersist now offset rest item m delay) Hext').
      split; [exact Hrest | exact Hitem].
    + destruct (delete_safe (id it) st _ Hwk Hup) as [Hwk' Hup'].
      unfold good_step; cbn [fst snd].
      split; [exact Hwk'|]. split.
      { eapply uploading_only_weaken; [|exact Hup'].
        intros k [Hk Hne]. apply Hne. now apply Hkey. }
      split; [split; [exact Hrest | exact Hitem]|].
      split; [reflexivity | apply heap_ext_refl].
  - (* the write of 'completed' has settled *)
    destruct (Hitem item eq_refl) as [it Hit].
    unfold processItem_completed. rewrite Hit.
    destruct (updateUploadQueueStatus (ans_fault a) (id it) completed None None
                issuedAt (db st)) as [t'|m].
    + apply good_next_item; auto using heap_ext_refl.
    + assert (Hkey : forall k : string, False -> k = id it) by (intros k []).
      pose proof (processItem_catch_safe m (ans_clock a) item st it _ Hwk Hup Hit Hkey)
        as [Hwk' [Hno' [Hext' Hproc']]].
      destruct (processItem_catch m (ans_clock a) item st) as [st2 delay].
      cbn [fst] in *. unfold good_step; cbn [fst snd].
      split; [exact Hwk'|]. split; [exact Hno'|].
      split; [|split; assumption].
      apply (pass_ok_ext st st2 (AwaitPersist now offset rest item m delay) Hext').
      split; [exact Hrest | exact Hitem].
  - (* the write of 'failed' has settled *)
    destruct (processItem_persist_memory (ans_fault a) m delay item st)
      as [Hh [Hq Hp]].
    destruct (preserves_same st _ Hh Hq) as [A [B C]].
    apply good_next_item; auto.
Qed.

(** ** Rows marked 'uploading' in the table *)

Lemma uploading_rows_update :
  forall fault k s rc em now t t',
    s <> uploading ->
    updateUploadQueueStatus fault k s rc em now t = Resolved t' ->
    (uploading_rows t' <= uploading_rows t)%nat.
Proof.
  intros fault k s rc em now t t' Hs H.
  unfold updateUploadQueueStatus in H. destruct fault; [discriminate|].
  inversion H; subst; clear H. unfold uploading_rows.
  induction t as [|r t IH]; simpl; [lia|].
  destruct (String.eqb (id r) k).
  - assert (Hnew : is_uploading (apply_update s rc em now r) = false).
    { unfold is_uploading, apply_update.
      destruct rc, em, s; simpl; congruence. }
    rewrite Hnew. destruct (is_uploading r); simpl; lia.
  - destruct (is_uploading r); simpl; lia.
Qed.

Lemma uploading_rows_insert :
  forall fault q t t',
    status q = pending ->
    addToUploadQueue fault q t = Resolved t' ->
    uploading_rows t' = uploading_rows t.
Proof.
  intros fault q t t' Hq H. unfold addToUploadQueue in H.
  destruct fault; [discriminate|].
  destruct (has_id (id q) t); [discriminate|].
  inversion H; subst. unfold uploading_rows.
  rewrite filter_app, length_app. simpl.
  unfold is_uploading at 2. simpl. rewrite Hq. simpl. lia.
Qed.

Lemma uploading_rows_remove :
  forall fault k t t',
    removeFromUploadQueue fault k t = Resolved t' ->
    (uploading_rows t' <= uploading_rows t)%nat.
Proof.
  intros fault k t t' H. unfold removeFromUploadQueue in H.
  destruct fault; [discriminate|]. inversion H; subst; clear H.
  unfold uploading_rows. induction t as [|r t IH]; simpl; [lia|].
  destruct (String.eqb (id r) k); simpl;
    destruct (is_uploading r); simpl; lia.
Qed.

Lemma next_item_db :
  forall now offset rest st, db (fst (next_item now offset rest st)) = db st.
Proof. intros now offset [|r rest] st; reflexivity. Qed.

Lemma processItem_persist_rows :
  forall fault m delay item st,
    (uploading_rows (db (processItem_persist fault m delay item st))
     <= uploading_rows (db st))%nat.
Proof.
  intros fault m delay item st. unfold processItem_persist.
  destruct (nth_error (heap st) item) as [it|]; [|lia].
  destruct (updateUploadQueueStatus fault (id it) failed (Some (retry_count it))
              (Some (Some m)) 0 (db st)) as [t'|] eqn:E.
  - apply uploading_rows_update in E; [|discriminate].
    destruct delay; simpl; exact E.
  - destruct delay; simpl; lia.
Qed.

Lemma pass_step_rows :
  forall a p st,
    (uploading_rows (db (fst (pass_step a p st))) <= uploading_rows (db st))%nat.
Proof.
  intros a p st.
  destruct p as [now offset | now offset rest item | now offset rest item
                | now offset rest item issuedAt | now offset rest item m delay];
    unfold pass_step.
  - destruct (getPendingUploads (ans_fault a) (Some BATCH_SIZE) offset (db st))
      as [[|x dbItems]|msg]; simpl; try lia.
    rewrite next_item_db. lia.
  - pose proof (processItem_start_db (ans_connected a) item st) as H.
    destruct (processItem_start (ans_connected a) item st) as [st1 [o|]];
      simpl in H; [rewrite next_item_db|simpl]; rewrite H; lia.
  - pose proof (processItem_settled_db (ans_metadata a) (ans_video a) item st) as H.
    destruct (processItem_settled (ans_metadata a) (ans_video a) item st)
      as [st1 [m|]]; simpl in H.
    + pose proof (processItem_catch_db m (ans_clock a) item st1) as H'.
      destruct (processItem_catch m (ans_clock a) item st1) as [st2 delay].
      simpl in *. rewrite H', H. lia.
    + simpl. rewrite H. lia.
  - unfold processItem_completed.
    destruct (nth_error (heap st) item) as [it|].
    + destruct (updateUploadQueueStatus (ans_fault a) (id it) completed None None
                  issuedAt (db st)) as [t'|m] eqn:E.
      * rewrite next_item_db. simpl.
        apply uploading_rows_update in E; [exact E | discriminate].
      * pose proof (processItem_catch_db m (ans_clock a) item st) as H'.
        destruct (processItem_catch m (ans_clock a) item st) as [st2 delay].
        simpl in *. rewrite H'. lia.
    + rewrite next_item_db. simpl. lia.
  - rewrite next_item_db. apply processItem_persist_rows.
Qed.

(** ** The invariant *)

Lemma passes_app : forall ts ts', passes (ts ++ ts') = passes ts ++ passes ts'.
Proof. intros. unfold passes. apply flat_map_app. Qed.

Lemma passes_split :
  forall ts i t, nth_error ts i = Some t ->
    exists l1 l2, passes ts = l1 ++ passes [t] ++ l2 /\
                  passes (drop_nth i ts) = l1 ++ l2.
Proof.
  induction ts as [|x ts IH]; intros [|i] t H; simpl in H; try discriminate.
  - inversion H; subst. exists [], (passes ts). split; [|reflexivity].
    change (t :: ts) with ([t] ++ ts). now rewrite passes_app.
  - destruct (IH i t H) as [l1 [l2 [H1 H2]]].
    exists (passes [x] ++ l1), l2. split.
    + change (x :: ts) with ([x] ++ ts). rewrite passes_app, H1.
      now rewrite app_assoc.
    + change (drop_nth (S i) (x :: ts)) with ([x] ++ drop_nth i ts).
      rewrite passes_app, H2. now rewrite app_assoc.
Qed.

Lemma passes_drop_other :
  forall ts i t, nth_error ts i = Some t -> passes [t] = [] ->
    passes (drop_nth i ts) = passes ts.
Proof.
  intros ts i t H Ht. destruct (passes_split ts i t H) as [l1 [l2 [H1 H2]]].
  rewrite H1, H2, Ht. reflexivity.
Qed.

Lemma passes_drop_pass :
  forall ts i p s, nth_error ts i = Some (TPass p) ->
    passes ts = match s with Some p' => [p'] | None => [] end ->
    s = Some p /\ passes (drop_nth i ts) = [].
Proof.
  intros ts i p s H Hs.
  destruct (passes_split ts i (TPass p) H) as [l1 [l2 [H1 H2]]].
  simpl in H1. rewrite H1 in Hs. rewrite H2.
  destruct s as [p'|].
  - destruct l1 as [|y l1]; simpl in Hs.
    + inversion Hs; subst. auto.
    + inversion Hs as [[Hy Hl]]. destruct l1; discriminate.
  - destruct l1; discriminate.
Qed.

Lemma Forall_drop_nth :
  forall (P : Task -> Prop) ts i, Forall P ts -> Forall P (drop_nth i ts).
Proof.
  intros P ts. induction ts as [|x ts IH]; intros [|i] H; simpl; auto;
    inversion H; subst; auto.
Qed.

Lemma Inv_bystander :
  forall n st ts st' ts',
    Inv n st ts -> preserves st st' ->
    isProcessing st' = isProcessing st ->
    passes ts' = passes ts -> Forall task_ok ts' ->
    (uploading_rows (db st') <= n)%nat ->
    Inv n st' ts'.
Proof.
  intros n st ts st' ts' [Hwk [[s [Hs [Hp [Hup Hok]]]] [Hts Hrows]]]
         [A [B C]] Hproc Hpass Hts' Hrows'.
  split; [auto|]. split; [|split; assumption].
  exists s. split; [congruence|]. split; [congruence|]. split.
  - eapply uploading_only_weaken; [|apply B; eassumption].
    intros k. now apply in_flight_ext.
  - destruct s as [p|]; [|exact I]. simpl in *. eapply pass_ok_ext; eauto.
Qed.

Lemma Inv_spawn :
  forall n st ts now,
    Inv n st ts ->
    Inv n (fst (spawn_pass now st)) (ts ++ snd (spawn_pass now st)).
Proof.
  intros n st ts now H. unfold spawn_pass, processQueue_enter.
  destruct (isProcessing st) eqn:Hproc; cbn [fst snd].
  - rewrite app_nil_r. exact H.
  - destruct H as [Hwk [[s [Hs [Hp [Hup Hok]]]] [Hts Hrows]]].
    destruct s as [p|]; [congruence|].
    split; [exact Hwk|]. split; [|split].
    + exists (Some (AwaitPage now 0)).
      split; [rewrite passes_app, Hs; reflexivity|].
      split; [reflexivity|]. split; [exact Hup|].
      split; [intros r [] | intros item Hi; discriminate].
    + apply Forall_app. split; [exact Hts|]. repeat constructor.
    + exact Hrows.
Qed.

Lemma load_loop_safe :
  forall records st, rest_ok records ->
    snd (load_loop records st) = [TFetch] /\
    preserves st (fst (load_loop records st)) /\
    isProcessing (fst (load_loop records st)) = isProcessing st /\
    db (fst (load_loop records st)) = db st.
Proof.
  induction records as [|record rest IH]; intros st Hok; simpl.
  - split; [reflexivity|]. split; [|split; reflexivity].
    apply preserves_same; reflexivity.
  - assert (Hrec : status record <> uploading) by (apply Hok; now left).
    assert (Hrest : rest_ok rest) by (intros r Hr; apply Hok; now right).
    destruct (IH (snd (attach record st)) Hrest) as [H1 [H2 [H3 H4]]].
    destruct (status record) eqn:E; try congruence;
      (split; [exact H1|]; split;
        [ eapply preserves_trans; [apply preserves_attach; rewrite E; discriminate | exact H2]
        | split; [exact H3 | exact H4] ]).
Qed.

Lemma Inv_resume :
  forall n st ts i a t,
    Inv n st ts -> nth_error ts i = Some t ->
    Inv n (fst (task_step a t st)) (drop_nth i ts ++ snd (task_step a t st)).
Proof.
  intros n st ts i a t HInv Hnth.
  pose proof HInv as [Hwk [[s [Hs [Hp [Hup Hok]]]] [Hts Hrows]]].
  assert (Htask : task_ok t).
  { eapply Forall_forall; [exact Hts|]. eapply nth_error_In; eauto. }
  assert (Hdrop : Forall task_ok (drop_nth i ts)) by now apply Forall_drop_nth.
  assert (Hother : passes [t] = [] -> Inv n st (drop_nth i ts)).
  { intros Ht. apply (Inv_bystander n st ts); auto using preserves_refl.
    eapply passes_drop_other; eauto. }
  destruct t as [p | q | | record rest | | | k]; cbn [task_step].
  - (* the pass *)
    destruct (passes_drop_pass ts i p s Hnth Hs) as [-> Hnone].
    simpl in Hup, Hok, Hp.
    pose proof (pass_step_safe a p st Hwk Hup Hok) as [Hwk' [Hup' [Hok' [Hp' _]]]].
    pose proof (pass_step_rows a p st) as Hrows'.
    destruct (pass_step a p st) as [st1 [p'|]]; cbn [fst snd] in *.
    + split; [exact Hwk'|]. split; [|split].
      * exists (Some p'). rewrite passes_app, Hnone.
        split; [reflexivity|]. split; [congruence|]. split; assumption.
      * apply Forall_app. split; [exact Hdrop|]. repeat constructor.
      * lia.
    + split; [exact Hwk'|]. split; [|split].
      * exists None. rewrite app_nil_r, Hnone.
        split; [reflexivity|]. split; [exact Hp'|]. split; [exact Hup' | exact I].
      * rewrite app_nil_r. exact Hdrop.
      * lia.
  - (* the insert of addToQueue has settled *)
    specialize (Hother eq_refl). simpl in Htask.
    unfold addToQueue_end.
    destruct (addToUploadQueue (ans_fault a) q (db st)) as [t'|m] eqn:E.
    + apply Inv_spawn.
      apply (Inv_bystander n st (drop_nth i ts)); auto.
      * apply preserves_same; reflexivity.
      * simpl. rewrite (uploading_rows_insert _ _ _ _ Htask E). exact Hrows.
    + cbn [fst snd]. rewrite app_nil_r.
      apply (Inv_bystander n st (drop_nth i ts)); auto.
      apply preserves_delete.
  - (* the query of loadQueueFromDatabase has settled *)
    specialize (Hother eq_refl).
    destruct (getPendingUploads (ans_fault a) None 0 (db st)) as [records|m] eqn:E.
    + assert (Hrec : rest_ok records).
      { intros r Hin. destruct (getPendingUploads_In _ _ _ _ _ _ E Hin) as [_ Hr].
        unfold is_pending_or_failed in Hr. destruct (status r); congruence. }
      destruct (load_loop_safe records (with_queue [] st) Hrec) as [H1 [H2 [H3 H4]]].
      rewrite H1.
      apply (Inv_bystander n st (drop_nth i ts)); auto.
      * eapply preserves_trans; [apply preserves_clear | exact H2].
      * rewrite passes_app. simpl. now rewrite app_nil_r.
      * apply Forall_app. split; [exact Hdrop|]. repeat constructor.
      * rewrite H4. exact Hrows.
    + cbn [after_load fst snd].
      apply (Inv_bystander n st (drop_nth i ts)); auto.
      * apply preserves_same; reflexivity.
      * rewrite passes_app. simpl. now rewrite app_nil_r.
      * apply Forall_app. split; [exact Hdrop|]. repeat constructor.
  - (* no call waits for a reset write *)
    contradiction.
  - (* NetInfo.fetch() of initialize has resolved *)
    specialize (Hother eq_refl).
    destruct (ans_connected a).
    + now apply Inv_spawn.
    + cbn [fst snd]. rewrite app_nil_r. exact Hother.
  - (* the DELETE of clearQueue has settled *)
    specialize (Hother eq_refl). cbn [fst snd]. rewrite app_nil_r.
    unfold clearQueue_end, deleteAll.
    destruct (ans_fault a); cbn [fst]; [exact Hother|].
    apply (Inv_bystander n st (drop_nth i ts)); auto.
    * apply preserves_same; reflexivity.
    * unfold uploading_rows. simpl. lia.
  - (* the DELETE of removeFromQueue has settled *)
    specialize (Hother eq_refl). cbn [fst snd]. rewrite app_nil_r.
    unfold removeFromQueue_end.
    destruct (removeFromUploadQueue (ans_fault a) k (db st)) as [t'|m] eqn:E;
      [|exact Hother].
    apply (Inv_bystander n st (drop_nth i ts)); auto.
    * apply preserves_same; reflexivity.
    * simpl. apply uploading_rows_remove in E. lia.
Qed.

Lemma Inv_act :
  forall n x m,
    Inv n (engine m) (tasks m) -> Inv n (engine (act x m)) (tasks (act x m)).
Proof.
  intros n x [st ts] H. simpl in H.
  pose proof H as [Hwk [[s [Hs [Hp [Hup Hok]]]] [Hts Hrows]]].
  assert (Hadd : forall t, passes [t] = [] -> task_ok t ->
            passes (ts ++ [t]) = passes ts /\ Forall task_ok (ts ++ [t])).
  { intros t Ht Hok'. split.
    - rewrite passes_app, Ht. apply app_nil_r.
    - apply Forall_app. split; [exact Hts|]. now repeat constructor. }
  destruct x as [| | item now | k | | connected now | now | i a];
    unfold act; cbn [engine tasks].
  - (* initialize() *)
    destruct (Hadd TLoad eq_refl I) as [H1 H2].
    apply (Inv_bystander n st ts); auto using preserves_refl.
  - (* cleanup() *)
    apply (Inv_bystander n st ts); auto.
    + apply preserves_same; unfold cleanup;
        destruct (networkListener st); reflexivity.
    + unfold cleanup. destruct (networkListener st); reflexivity.
    + unfold cleanup. destruct (networkListener st); exact Hrows.
  - (* addToQueue(item) *)
    destruct (Hadd (TAdd (queueItem_of item now)) eq_refl eq_refl) as [H1 H2].
    apply (Inv_bystander n st ts); auto.
    apply preserves_attach. discriminate.
  - (* removeFromQueue(id) *)
    destruct (Hadd (TRemove k) eq_refl I) as [H1 H2].
    apply (Inv_bystander n st ts); auto. apply preserves_delete.
  - (* clearQueue() *)
    destruct (Hadd TClear eq_refl I) as [H1 H2].
    apply (Inv_bystander n st ts); auto. apply preserves_clear.
  - (* connectivity changed *)
    destruct ((0 <? listeners st)%nat && connected && negb (isProcessing st));
      [|exact H].
    pose proof (Inv_spawn n st ts now H) as H'.
    destruct (spawn_pass now st) as [st1 ts1]. exact H'.
  - (* the retry timer *)
    destruct (retryTimer st) as [d|] eqn:Ht; [|exact H].
    assert (H0 : Inv n (with_retryTimer None st) ts).
    { apply (Inv_bystander n st ts); auto. apply preserves_same; reflexivity. }
    pose proof (Inv_spawn n _ ts now H0) as H'.
    destruct (spawn_pass now (with_retryTimer None st)) as [st1 ts1]. exact H'.
  - (* a suspended call is resumed *)
    destruct (nth_error ts i) as [t|] eqn:Hnth; [|exact H].
    pose proof (Inv_resume n st ts i a t H Hnth) as H'.
    destruct (task_step a t st) as [st1 ts1]. exact H'.
Qed.

Lemma Inv_run :
  forall n trace m,
    Inv n (engine m) (tasks m) ->
    Inv n (engine (run trace m)) (tasks (run trace m)).
Proof.
  intros n trace. induction trace as [|x trace IH]; intros m H; simpl.
  - exact H.
  - apply IH. now apply Inv_act.
Qed.

Lemma Inv_start :
  forall t, Inv (uploading_rows t) (engine (start t)) (tasks (start t)).
Proof.
  intros t. simpl. split; [split|split; [|split]].
  - constructor.
  - intros k l [].
  - exists None. repeat split. intros k l r [].
  - constructor.
  - simpl. lia.
Qed.

(** ** Consequences *)

Section Counting.

Variable h : list UploadQueueRecord.
Variable P : string -> Prop.
Hypothesis P_unique : forall x y, P x -> P y -> x = y.

Let deref (kv : string * nat) : list UploadQueueRecord :=
  match nth_error h (snd kv) with
  | Some r => [r]
  | None => []
  end.

Lemma none_uploading :
  forall q,
    (forall k l r, In (k, l) q -> nth_error h l = Some r ->
                   status r = uploading -> False) ->
    filter is_uploading (flat_map deref q) = [].
Proof.
  induction q as [|[k l] q IH]; intros H; simpl; [reflexivity|].
  assert (Hq : forall k' l' r', In (k', l') q -> nth_error h l' = Some r' ->
                 status r' = uploading -> False).
  { intros k' l' r' Hin Hr' Hu'. apply (H k' l' r'); auto. now right. }
  rewrite filter_app, (IH Hq).
  rewrite app_nil_r. unfold deref; simpl.
  destruct (nth_error h l) as [r|] eqn:E; simpl; [|reflexivity].
  destruct (is_uploading r) eqn:U; [|reflexivity].
  exfalso. apply is_uploading_true in U. apply (H k l r); auto. now left.
Qed.

Lemma one_uploading :
  forall q,
    NoDup (map fst q) ->
    (forall k l r, In (k, l) q -> nth_error h l = Some r ->
                   status r = uploading -> P k) ->
    (length (filter is_uploading (flat_map deref q)) <= 1)%nat.
Proof.
  induction q as [|[k l] q IH]; intros Hnd H; simpl; [lia|].
  inversion Hnd as [|? ? Hnotin Hnd']; subst.
  rewrite filter_app, length_app.
  assert (IHq : (length (filter is_uploading (flat_map deref q)) <= 1)%nat).
  { apply IH; [exact Hnd'|].
    intros k' l' r' Hin Hr' Hu'. apply (H k' l' r'); auto. now right. }
  unfold deref at 1; simpl.
  destruct (nth_error h l) as [r|] eqn:E; simpl; [|exact IHq].
  destruct (is_uploading r) eqn:U; simpl; [|exact IHq].
  apply is_uploading_true in U.
  assert (Pk : P k) by (apply (H k l r); auto; now left).
  rewrite none_uploading; [simpl; lia|].
  intros k' l' r' Hin Hr' Hu'.
  assert (Pk' : P k') by (apply (H k' l' r'); auto; now right).
  apply Hnotin. rewrite (P_unique k k' Pk Pk').
  apply in_map_iff. exists (k', l'). auto.
Qed.

End Counting.

Lemma in_flight_unique :
  forall st s x y, in_flight st s x -> in_flight st s y -> x = y.
Proof.
  intros st [[| | now offset rest item | |]|] x y Hx Hy; simpl in *;
    try contradiction.
  destruct Hx as [it [Hit Hx]], Hy as [it' [Hit' Hy]]. congruence.
Qed.

Lemma attempted_length :
  forall ts, (length (attempted ts) <= length (passes ts))%nat.
Proof.
  intros ts. unfold attempted.
  induction (passes ts) as [|p ps IH]; simpl; [lia|].
  rewrite length_app. destruct (item_of p); simpl; lia.
Qed.

(** C8.  In every interleaved execution of the engine, started on any
    table: at most one call of [processQueue] is in progress; while one is,
    a further call returns at its guard and changes nothing; at most one
    item is in the middle of an attempt; at most one item returned by
    [getQueueItems()] has status 'uploading'; and the table never holds
    more 'uploading' rows than it did at start (the engine writes none). *)
Theorem single_flight :
  forall (t : Table) (trace : list Action),
    let m := run trace (start t) in
    (length (passes (tasks m)) <= 1)%nat /\
    (passes (tasks m) <> [] ->
       processQueue_enter (engine m) = (engine m, false) /\
       forall fuel env, processQueue fuel env (engine m) = Some (engine m)) /\
    (length (attempted (tasks m)) <= 1)%nat /\
    (length (filter is_uploading (getQueueItems (engine m))) <= 1)%nat /\
    (uploading_rows (db (engine m)) <= uploading_rows t)%nat.
Proof.
  intros t trace m.
  pose proof (Inv_run (uploading_rows t) trace (start t) (Inv_start t)) as H.
  fold m in H.
  destruct H as [[Hnd Hobj] [[s [Hs [Hp [Hup Hok]]]] [Hts Hrows]]].
  assert (Hlen : (length (passes (tasks m)) <= 1)%nat)
    by (rewrite Hs; destruct s; simpl; lia).
  split; [exact Hlen|]. split; [|split; [|split]].
  - intros Hne.
    assert (Hproc : isProcessing (engine m) = true)
      by (destruct s; [exact Hp | rewrite Hs in Hne; congruence]).
    unfold processQueue_enter, processQueue. rewrite Hproc. auto.
  - pose proof (attempted_length (tasks m)). lia.
  - unfold getQueueItems.
    apply (one_uploading (heap (engine m)) (in_flight (engine m) s)
             (in_flight_unique (engine m) s) (queue (engine m)) Hnd).
    exact Hup.
  - exact Hrows.
Qed.

(** The bound is attained: while the uploads of "a" are awaited the Map
    holds exactly one 'uploading' item and one pass is in progress. *)
Lemma single_flight_attained :
  let m := run attempt_started (start []) in
  length (passes (tasks m)) = 1%nat /\
  attempted (tasks m) = [1%nat] /\
  length (filter is_uploading (getQueueItems (engine m))) = 1%nat.
Proof. vm_compute. repeat split. Qed.

(* ================================================================== *)
(** * A pass that nothing interleaves with *)
(* ================================================================== *)

Lemma drain_S :
  forall fuel env p st,
    drain (S fuel) env p st =
    match pass_step (answer_of env p st) p st with
    | (st1, Some p') => drain fuel env p' st1
    | (st1, None) => Some st1
    end.
Proof. reflexivity. Qed.

Lemma processItem_catch_object :
  forall m now item st it,
    nth_error (heap st) item = Some it ->
    exists it', nth_error (heap (fst (processItem_catch m now item st))) item
                = Some it' /\ id it' = id it.
Proof.
  intros m now item st it Hit.
  assert (Hext : heap_ext (heap st) (heap (fst (processItem_catch m now item st)))).
  { unfold processItem_catch. rewrite Hit.
    set (st1 := with_heap _ st).
    assert (H1 : heap_ext (heap st) (heap st1))
      by (apply heap_ext_mutate; reflexivity).
    assert (H2 : heap_ext (heap st)
                   (heap (updateItemStatus (id it) failed (Some m) st1)))
      by (eapply heap_ext_trans; [exact H1 | apply updateItemStatus_heap_ext]).
    destruct (S (retry_count it) <? maxRetries)%nat; cbn [fst]; [|exact H2].
    eapply heap_ext_trans; [exact H2|]. apply heap_ext_mutate. reflexivity. }
  exact (Hext item it Hit).
Qed.

(** Resumed without interleaving, the machine runs [processItem] as the
    function [processItem] does and is back in the loop. *)
Lemma drain_processItem :
  forall env now offset rest item st it fuel r,
    nth_error (heap st) item = Some it ->
    resume_loop fuel env now offset rest
      (fst (processItem (attempt env (id it)) item st)) = Some r ->
    exists fuel', drain fuel' env (AwaitNet now offset rest item) st = Some r.
Proof.
  intros env now offset rest item st it fuel r Hit Hr.
  set (a := attempt env (id it)) in *.
  unfold processItem in Hr.
  (* NetInfo.fetch() *)
  assert (Hstep1 : pass_step (answer_of env (AwaitNet now offset rest item) st)
                     (AwaitNet now offset rest item) st
                   = match processItem_start (isConnected a) item st with
                     | (st1, None) => (st1, Some (AwaitUploads now offset rest item))
                     | (st1, Some _) => next_item now offset rest st1
                     end).
  { unfold pass_step, answer_of. rewrite Hit. reflexivity. }
  destruct (processItem_start (isConnected a) item st) as [st1 [o|]] eqn:E1.
  { exists (S fuel). rewrite drain_S, Hstep1. exact Hr. }
  assert (Hit1 : exists it1, nth_error (heap st1) item = Some it1 /\ id it1 = id it).
  { unfold processItem_start in E1. rewrite Hit in E1.
    destruct (negb (isConnected a)); [discriminate|].
    destruct (maxRetries <=? retry_count it)%nat; [discriminate|].
    inversion E1; subst.
    apply (updateItemStatus_heap_ext (id it) uploading None st item it Hit). }
  destruct Hit1 as [it1 [Hit1 Hid1]].
  (* Promise.all *)
  assert (Hstep2 : pass_step (answer_of env (AwaitUploads now offset rest item) st1)
                     (AwaitUploads now offset rest item) st1
                   = match processItem_settled (metadataResponse a) (videoResponse a)
                             item st1 with
                     | (st2, None) =>
                         (st2, Some (AwaitCompleted now offset rest item (settledAt a)))
                     | (st2, Some m) =>
                         let (st3, delay) := processItem_catch m (settledAt a) item st2 in
                         (st3, Some (AwaitPersist now offset rest item m delay))
                     end).
  { unfold pass_step, answer_of. rewrite Hit1, Hid1. reflexivity. }
  assert (Hpersist : forall st2 m delay,
            (exists it2, nth_error (heap st2) item = Some it2 /\ id it2 = id it) ->
            pass_step (answer_of env (AwaitPersist now offset rest item m delay) st2)
              (AwaitPersist now offset rest item m delay) st2
            = next_item now offset rest
                (processItem_persist (failedFault a) m delay item st2)).
  { intros st2 m delay [it2 [Hit2 Hid2]].
    unfold pass_step, answer_of. rewrite Hit2, Hid2. reflexivity. }
  destruct (processItem_settled (metadataResponse a) (videoResponse a) item st1)
    as [st2 [m|]] eqn:E2.
  - (* a check after Promise.all throws *)
    assert (Hst2 : st2 = st1).
    { unfold processItem_settled in E2. rewrite Hit1 in E2.
      destruct (responseError it1 (metadataResponse a) (videoResponse a));
        inversion E2; reflexivity. }
    subst st2. unfold processItem_failure in Hr.
    pose proof (processItem_catch_object m (settledAt a) item st1 it1 Hit1) as Hobj.
    destruct (processItem_catch m (settledAt a) item st1) as [st3 delay] eqn:E3.
    cbn [fst] in Hr, Hobj.
    destruct Hobj as [it3 [Hit3 Hid3]].
    exists (S (S (S fuel))).
    rewrite drain_S, Hstep1, drain_S, Hstep2, drain_S.
    rewrite (Hpersist st3 m delay)
      by (exists it3; split; [exact Hit3 | congruence]).
    exact Hr.
  - (* the write of 'completed' is issued *)
    assert (Hit2 : nth_error (heap st2) item = Some it1).
    { unfold processItem_settled in E2. rewrite Hit1 in E2.
      destruct (responseError it1 (metadataResponse a) (videoResponse a));
        inversion E2; subst; exact Hit1. }
    assert (Hstep3 :
              pass_step (answer_of env
                           (AwaitCompleted now offset rest item (settledAt a)) st2)
                (AwaitCompleted now offset rest item (settledAt a)) st2
              = match processItem_completed (completedFault a) (settledAt a) item st2 with
                | (st3, None) => next_item now offset rest st3
                | (st3, Some m) =>
                    let (st4, delay) := processItem_catch m (rejectedAt a) item st3 in
                    (st4, Some (AwaitPersist now offset rest item m delay))
                end).
    { unfold pass_step, answer_of. rewrite Hit2, Hid1. reflexivity. }
    destruct (processItem_completed (completedFault a) (settledAt a) item st2)
      as [st3 [m|]] eqn:E3.
    + (* the write is rejected *)
      assert (Hst3 : st3 = st2).
      { unfold processItem_completed in E3. rewrite Hit2 in E3.
        destruct (updateUploadQueueStatus (completedFault a) (id it1) completed
                    None None (settledAt a) (db st2)); inversion E3; reflexivity. }
      subst st3. unfold processItem_failure in Hr.
      pose proof (processItem_catch_object m (rejectedAt a) item st2 it1 Hit2) as Hobj.
      destruct (processItem_catch m (rejectedAt a) item st2) as [st4 delay] eqn:E4.
      cbn [fst] in Hr, Hobj.
      destruct Hobj as [it4 [Hit4 Hid4]].
      exists (S (S (S (S fuel)))).
      rewrite drain_S, Hstep1, drain_S, Hstep2, drain_S, Hstep3, drain_S.
      rewrite (Hpersist st4 m delay)
        by (exists it4; split; [exact Hit4 | congruence]).
      exact Hr.
    + (* the write is performed *)
      exists (S (S (S fuel))).
      rewrite drain_S, Hstep1, drain_S, Hstep2, drain_S, Hstep3.
      exact Hr.
Qed.

Lemma drain_processItems :
  forall env now offset items st fuel r,
    drain fuel env (AwaitPage now (offset + BATCH_SIZE)) (processItems env items st)
      = Some r ->
    exists fuel', resume_loop fuel' env now offset items st = Some r.
Proof.
  intros env now offset items.
  induction items as [|dbItem rest IH]; intros st fuel r H.
  - exists fuel. exact H.
  - cbn [processItems] in H. unfold resume_loop. cbn [next_item].
    destruct (attach dbItem st) as [item st1] eqn:Ea.
    assert (Hit : nth_error (heap st1) item = Some dbItem).
    { unfold attach in Ea. inversion Ea; subst. simpl. apply nth_error_alloc. }
    destruct (IH _ _ _ H) as [fuel1 H1].
    exact (drain_processItem env now offset rest item st1 dbItem fuel1 r Hit H1).
Qed.

Lemma drain_processPages :
  forall env fuel offset st r,
    processPages fuel env offset st = Some r ->
    exists fuel',
      drain fuel' env (AwaitPage (passNow env) offset) st
      = Some (with_isProcessing false r).
Proof.
  intros env fuel. induction fuel as [|fuel IH]; intros offset st r H.
  - discriminate.
  - rewrite processPages_S in H.
    assert (Hstep : pass_step (answer_of env (AwaitPage (passNow env) offset) st)
                      (AwaitPage (passNow env) offset) st
                    = match getPendingUploads (pageFault env offset)
                              (Some BATCH_SIZE) offset (db st) with
                      | Rejected _ => (with_isProcessing false st, None)
                      | Resolved [] => (with_isProcessing false st, None)
                      | Resolved dbItems =>
                          next_item (passNow env) offset
                            (itemsToProcess (passNow env) dbItems) st
                      end) by reflexivity.
    destruct (getPendingUploads (pageFault env offset) (Some BATCH_SIZE) offset (db st))
      as [[|x dbItems]|m].
    + inversion H; subst. exists 1%nat. rewrite drain_S, Hstep. reflexivity.
    + destruct (IH _ _ _ H) as [fuel1 H1].
      destruct (drain_processItems env (passNow env) offset _ st fuel1 _ H1)
        as [fuel2 H2].
      exists (S fuel2). rewrite drain_S, Hstep.
      unfold resume_loop in H2.
      destruct (next_item (passNow env) offset
                  (itemsToProcess (passNow env) (x :: dbItems)) st)
        as [st1 [p'|]]; exact H2.
    + inversion H; subst. exists 1%nat. rewrite drain_S, Hstep. reflexivity.
Qed.

(** The function [processQueue] computes the state that the machine
    reaches when the pass started by [processQueue()] is resumed until it
    returns with nothing running in between. *)
Theorem processQueue_is_uninterrupted_pass :
  forall fuel env st st',
    isProcessing st = false ->
    processQueue fuel env st = Some st' ->
    fst (spawn_pass (passNow env) st) = with_isProcessing true st /\
    snd (spawn_pass (passNow env) st) = [TPass (AwaitPage (passNow env) 0)] /\
    exists fuel',
      drain fuel' env (AwaitPage (passNow env) 0) (with_isProcessing true st)
      = Some st'.
Proof.
  intros fuel env st st' Hp H.
  unfold spawn_pass, processQueue_enter. rewrite Hp.
  split; [reflexivity|]. split; [reflexivity|].
  unfold processQueue in H. rewrite Hp in H.
  destruct (processPages fuel env 0 (with_isProcessing true st)) as [r|] eqn:E;
    [|discriminate].
  inversion H; subst. eapply drain_processPages; eauto.
Qed.

(* ================================================================== *)
(** * Enqueues that do not overlap a pass *)
(* ================================================================== *)

(** A successful attempt on the row object [r] that the pass has just put
    in the Map, with the write of 'completed' accepted. *)
Lemma processItem_uploads :
  forall a r st,
    isConnected a = true ->
    (retry_count r < maxRetries)%nat ->
    responseError r (metadataResponse a) (videoResponse a) = None ->
    completedFault a = None ->
    processItem a (length (heap st)) (snd (attach r st))
    = (mkState
         (map (fun x => if String.eqb (id x) (id r)
                        then apply_update completed None None (settledAt a) x
                        else x) (db st))
         (heap st ++ [with_status uploading r])
         (map_delete (id r) (map_set (id r) (length (heap st)) (queue st)))
         (isProcessing st) (networkListener st) (listeners st) (retryTimer st),
       Uploaded).
Proof.
  intros a r st Hc Hrc Hok Hf.
  assert (Hmax : (maxRetries <=? retry_count r)%nat = false)
    by (apply Nat.leb_gt; exact Hrc).
  unfold processItem, processItem_start, attach. cbn [snd heap with_queue with_heap].
  rewrite nth_error_alloc, Hc, Hmax. cbn [negb].
  unfold updateItemStatus at 1. cbn [queue with_queue with_heap heap].
  rewrite map_get_set_same, mutate_alloc. cbn [truthy].
  unfold processItem_settled. cbn [heap with_heap].
  rewrite nth_error_alloc.
  change (responseError (with_status uploading r) (metadataResponse a) (videoResponse a))
    with (responseError r (metadataResponse a) (videoResponse a)).
  rewrite Hok.
  unfold processItem_completed. cbn [heap with_heap with_queue].
  rewrite nth_error_alloc, Hf. reflexivity.
Qed.

Lemma map_delete_set_empty :
  forall k l, map_delete k (map_set k l []) = [].
Proof.
  intros k l. unfold map_delete; simpl. now rewrite String.eqb_refl.
Qed.

Lemma has_id_app :
  forall k t t', has_id k (t ++ t') = has_id k t || has_id k t'.
Proof. intros k t t'. unfold has_id. apply existsb_app. Qed.

Lemma uploaded_pass :
  forall e st t r l,
    settled t -> has_id (id r) t = false ->
    db st = t ++ [r] -> isProcessing st = false -> queue st = [(id r, l)] ->
    status r = pending -> retry_count r = 0%nat -> next_retry_at r = 0 ->
    well_served e ->
    exists st',
      processQueue 2 e st = Some st' /\
      db st' = t ++ [apply_update completed None None
                       (settledAt (attempt e (id r))) r] /\
      queue st' = [] /\ isProcessing st' = false.
Proof.
  intros e st t r l Ht Hid Hdb Hp Hq Hst Hrc Hnext [Hnow [Hpage Hserve]].
  destruct (Hserve (id r)) as [Hc [Hm [Hv Hf]]].
  assert (Hok : responseError r (metadataResponse (attempt e (id r)))
                  (videoResponse (attempt e (id r))) = None).
  { apply responseError_None. auto. }
  assert (Hrc' : (retry_count r < maxRetries)%nat)
    by (rewrite Hrc; unfold maxRetries; lia).
  pose proof (processItem_uploads (attempt e (id r)) r (with_isProcessing true st)
                Hc Hrc' Hok Hf) as Hitem.
  cbn [heap db queue isProcessing networkListener listeners retryTimer
       with_isProcessing] in Hitem.
  assert (Hr : is_pending_or_failed r = true)
    by (unfold is_pending_or_failed; now rewrite Hst).
  assert (Hdue : next_retry_at r <= passNow e) by (rewrite Hnext; exact Hnow).
  eexists. split.
  - apply (processQueue_single 0 e st t r _ _
             (apply_update completed None None (settledAt (attempt e (id r))) r)
             Ht Hdb Hp Hr Hdue (Hpage 0%nat) Hitem).
    cbn [db]. rewrite Hdb. apply update_last_row; auto.
  - split; [cbn [db with_isProcessing]; rewrite Hdb; apply update_last_row; auto|].
    split; [|reflexivity].
    cbn [queue with_isProcessing]. rewrite Hq. simpl.
    rewrite String.eqb_refl. simpl. now rewrite String.eqb_refl.
Qed.

Lemma settled_app :
  forall t r, settled t -> status r = completed -> settled (t ++ [r]).
Proof.
  intros t r Ht Hr x Hin. apply in_app_or in Hin.
  destruct Hin as [Hin|[<-|[]]]; auto.
Qed.

Lemma addToQueue_drained :
  forall item now env st,
    drained st -> well_served env ->
    exists st' res,
      addToQueue 2 None env item now st = Some (st', res) /\
      drained st' /\
      has_id (in_id item) (db st') = true /\
      (forall k, has_id k (db st) = true -> has_id k (db st') = true).
Proof.
  intros item now env st [Hset [Hq Hp]] Hserve.
  set (q := queueItem_of item now).
  unfold addToQueue, addToQueue_end, addToUploadQueue.
  change (db (addToQueue_begin item now st)) with (db st).
  change (id (queueItem_of item now)) with (in_id item).
  destruct (has_id (in_id item) (db st)) eqn:Hid.
  - (* the id is taken: the insert is rejected *)
    eexists. eexists. split; [reflexivity|].
    split; [|split; [exact Hid | auto]].
    split; [exact Hset|]. split; [|exact Hp].
    cbn [queue with_queue addToQueue_begin attach snd with_heap].
    rewrite Hq. apply map_delete_set_empty.
  - (* the row is inserted and the pass uploads it *)
    set (sta := with_db (db st ++ [with_uploaded_at None (queueItem_of item now)])
                  (addToQueue_begin item now st)).
    destruct (uploaded_pass env sta (db st) q (length (heap st))
                Hset Hid eq_refl Hp
                ltac:(unfold sta, addToQueue_begin, attach; simpl; now rewrite Hq)
                eq_refl eq_refl eq_refl Hserve)
      as [st' [Hrun [Hdb [Hq' Hp']]]].
    rewrite Hrun. cbn [option_map].
    eexists. eexists. split; [reflexivity|].
    split; [|split].
    + split; [|split; assumption].
      rewrite Hdb. apply settled_app; [exact Hset | reflexivity].
    + rewrite Hdb, has_id_app. simpl. rewrite String.eqb_refl.
      apply orb_true_r.
    + intros k Hk. rewrite Hdb, has_id_app, Hk. reflexivity.
Qed.

(** Under the conditions of C2 and with no call overlapping a pass, the
    claim holds: when every call of [addToQueue] is made after the pass
    triggered by the previous call has returned, on an engine started over
    finished uploads, then at the end every row is 'completed', every id
    that was enqueued has its row, and [getQueueItems()] is empty. *)
Theorem uninterrupted_enqueues_complete :
  forall (calls : list (QueueInput * Z * PassEnv)) (t : Table),
    settled t ->
    (forall item now env, In (item, now, env) calls -> well_served env) ->
    exists st',
      enqueue_all calls (boot t) = Some st' /\
      settled (db st') /\
      getQueueItems st' = [] /\
      forall item now env, In (item, now, env) calls ->
        has_id (in_id item) (db st') = true.
Proof.
  intros calls t Ht Hcalls.
  assert (Hgen : forall st, drained st ->
            exists st', enqueue_all calls st = Some st' /\ drained st' /\
              (forall k, has_id k (db st) = true -> has_id k (db st') = true) /\
              forall item now env, In (item, now, env) calls ->
                has_id (in_id item) (db st') = true).
  { induction calls as [|[[item now] env] rest IH]; intros st Hd.
    - exists st. split; [reflexivity|]. split; [exact Hd|]. split; [auto|].
      intros item now env [].
    - assert (Hs : well_served env) by (apply (Hcalls item now env); now left).
      destruct (addToQueue_drained item now env st Hd Hs)
        as [st1 [res [Hrun [Hd1 [Hid1 Hmono1]]]]].
      destruct (IH (fun i n e H => Hcalls i n e (or_intror H)) st1 Hd1)
        as [st' [Hrest [Hd' [Hmono' Hall']]]].
      exists st'. cbn [enqueue_all]. rewrite Hrun.
      split; [exact Hrest|]. split; [exact Hd'|]. split; [auto|].
      intros i n e [Heq|Hin].
      + inversion Heq; subst. auto.
      + eapply Hall'; eauto. }
  destruct (Hgen (boot t)) as [st' [Hrun [[Hset [Hq _]] [_ Hall]]]].
  { split; [exact Ht | split; reflexivity]. }
  exists st'. split; [exact Hrun|]. split; [exact Hset|].
  split; [|exact Hall].
  unfold getQueueItems. rewrite Hq. reflexivity.
Qed.

(* ================================================================== *)
(** * Remarks on the edges of the statements above *)
(* ================================================================== *)

(** [initialize] on the table found after the crash, connected and with
    every transfer succeeding: "b" is uploaded by the pass that follows the
    load, "a" is still 'uploading' in the table and unknown to the Map. *)
Lemma initialize_after_crash :
  exists st,
    initialize 2 None (fun _ => None) true idle_env (boot after_crash) = Some st /\
    map (fun r => (id r, status r, retry_count r)) (db st)
      = [("a", uploading, 1%nat); ("b", completed, 0%nat)] /\
    getQueueItems st = [].
Proof. eexists. vm_compute. repeat split. Qed.

(** After the first failure of "a" at clock 1500 its retry is due at 6500;
    since the row says [next_retry_at = 0], the pass triggered by an
    enqueue at clock 1600 has the uploads of "a" in flight again at once. *)
Lemma retry_before_its_time :
  let m := run (first_failure ++
                [ Resume 0 (fine 1502);       (* next page empty: pass returns *)
                  AddToQueue (checkin "b" None) 1600;
                  Resume 0 (fine 1601);       (* "b" inserted, pass started *)
                  Resume 0 (fine 1602);       (* page: "a" and "b" *)
                  Resume 0 (fine 1603) ])     (* connected: uploads of "a" *)
             (start []) in
  map (fun r => (id r, status r, retry_count r)) (getQueueItems (engine m))
    = [("a", uploading, 1%nat); ("b", pending, 0%nat)] /\
  passes (tasks m)
    = [AwaitUploads 1601 0 [queueItem_of (checkin "b" None) 1600] 3].
Proof. vm_compute. repeat split. Qed.

(* ================================================================== *)
(** * A pass returns *)
(* ================================================================== *)

Lemma updateUploadQueueStatus_length :
  forall fault k s rc em now t t',
    updateUploadQueueStatus fault k s rc em now t = Resolved t' ->
    length t' = length t.
Proof.
  intros fault k s rc em now t t' H. unfold updateUploadQueueStatus in H.
  destruct fault; [discriminate|]. inversion H. apply length_map.
Qed.

Lemma processItem_db_length :
  forall a item st, length (db (fst (processItem a item st))) = length (db st).
Proof.
  intros a item st. unfold processItem.
  pose proof (processItem_start_db (isConnected a) item st) as H1.
  destruct (processItem_start (isConnected a) item st) as [st1 [o|]];
    simpl in H1; [simpl; now rewrite H1|].
  assert (Hfail : forall now m st0,
            length (db (fst (processItem_failure now (failedFault a) m item st0)))
            = length (db st0)).
  { intros now m st0. unfold processItem_failure.
    pose proof (processItem_catch_db m now item st0) as Hc.
    destruct (processItem_catch m now item st0) as [st' delay]. simpl in *.
    rewrite <- Hc. unfold processItem_persist.
    destruct (nth_error (heap st') item) as [it|]; [|reflexivity].
    destruct (updateUploadQueueStatus (failedFault a) (id it) failed
                (Some (retry_count it)) (Some (Some m)) 0 (db st')) as [t'|] eqn:E;
      destruct delay; simpl; auto;
      eapply updateUploadQueueStatus_length; eauto. }
  pose proof (processItem_settled_db (metadataResponse a) (videoResponse a) item st1) as H2.
  destruct (processItem_settled (metadataResponse a) (videoResponse a) item st1)
    as [st2 [m|]]; simpl in H2.
  - rewrite Hfail. congruence.
  - unfold processItem_completed.
    destruct (nth_error (heap st2) item) as [it|]; [|simpl; congruence].
    destruct (updateUploadQueueStatus (completedFault a) (id it) completed None None
                (settledAt a) (db st2)) as [t'|m] eqn:E.
    + simpl. apply updateUploadQueueStatus_length in E. congruence.
    + rewrite Hfail. congruence.
Qed.

Lemma processItems_db_length :
  forall env items st,
    length (db (processItems env items st)) = length (db st).
Proof.
  intros env items. induction items as [|dbItem rest IH]; intros st; simpl.
  - reflexivity.
  - rewrite IH, processItem_db_length. reflexivity.
Qed.

Lemma insert_by_created_at_length :
  forall r l, length (insert_by_created_at r l) = S (length l).
Proof.
  intros r l. induction l as [|x l IH]; simpl; [reflexivity|].
  destruct (created_at r <=? created_at x); simpl; auto.
Qed.

Lemma order_by_created_at_length :
  forall l, length (order_by_created_at l) = length l.
Proof.
  induction l as [|x l IH]; simpl; [reflexivity|].
  now rewrite insert_by_created_at_length, IH.
Qed.

Lemma page_beyond_table :
  forall fault offset t rows,
    (length t <= offset)%nat ->
    getPendingUploads fault (Some BATCH_SIZE) offset t = Resolved rows ->
    rows = [].
Proof.
  intros fault offset t rows Hlen H. unfold getPendingUploads in H.
  destruct fault; [discriminate|]. cbn [BATCH_SIZE] in H.
  inversion H; subst; clear H.
  rewrite skipn_all2; [reflexivity|].
  rewrite order_by_created_at_length.
  pose proof (filter_length_le is_pending_or_failed t). lia.
Qed.

Lemma processPages_returns :
  forall env fuel offset st,
    (length (db st) <= offset + BATCH_SIZE * fuel)%nat ->
    exists st', processPages (S fuel) env offset st = Some st'.
Proof.
  intros env fuel. induction fuel as [|fuel IH]; intros offset st Hlen;
    rewrite processPages_S.
  - destruct (getPendingUploads (pageFault env offset) (Some BATCH_SIZE) offset (db st))
      as [rows|m] eqn:E; [|eauto].
    apply page_beyond_table in E; [|lia]. subst rows. eauto.
  - destruct (getPendingUploads (pageFault env offset) (Some BATCH_SIZE) offset (db st))
      as [[|x rows]|m] eqn:E; eauto.
    apply IH. rewrite processItems_db_length. lia.
Qed.

(** X10.  [processQueue] returns, whatever the environment answers: the
    loop asks for a page at most once per row of the table, plus once. *)
Theorem processQueue_returns :
  forall env st, exists st', processQueue (S (length (db st))) env st = Some st'.
Proof.
  intros env st. unfold processQueue.
  destruct (isProcessing st); [eauto|].
  destruct (processPages_returns env (length (db st)) 0 (with_isProcessing true st))
    as [st' H].
  - simpl. lia.
  - rewrite H. simpl. eauto.
Qed.

(* ================================================================== *)
(** * The store: lookups after writes *)
(* ================================================================== *)

Lemma find_id_app :
  forall k t t',
    find_id k (t ++ t') = match find_id k t with
                          | Some r => Some r
                          | None => find_id k t'
                          end.
Proof.
  intros k t t'. unfold find_id. induction t as [|x t IH]; simpl; [reflexivity|].
  destruct (String.eqb (id x) k); [reflexivity | exact IH].
Qed.

Lemma find_id_has_id :
  forall k t, find_id k t = None <-> has_id k t = false.
Proof.
  intros k t. unfold find_id, has_id. induction t as [|x t IH]; simpl.
  - tauto.
  - destruct (String.eqb (id x) k); simpl; [split; discriminate | exact IH].
Qed.

Lemma find_id_id :
  forall k t r, find_id k t = Some r -> id r = k /\ In r t.
Proof.
  intros k t r H. unfold find_id in H. apply find_some in H.
  destruct H as [Hin Hk]. apply String.eqb_eq in Hk. auto.
Qed.


Lemma find_id_filter_other :
  forall k k' t, k' <> k ->
    find_id k' (filter (fun r => negb (String.eqb (id r) k)) t) = find_id k' t.
Proof.
  intros k k' t Hne. unfold find_id. induction t as [|x t IH]; simpl; [reflexivity|].
  destruct (String.eqb (id x) k) eqn:E; simpl.
  - apply String.eqb_eq in E.
    destruct (String.eqb (id x) k') eqn:E'; [|exact IH].
    apply String.eqb_eq in E'. congruence.
  - destruct (String.eqb (id x) k'); [reflexivity | exact IH].
Qed.

Lemma find_id_filter_same :
  forall k t, find_id k (filter (fun r => negb (String.eqb (id r) k)) t) = None.
Proof.
  intros k t. unfold find_id. induction t as [|x t IH]; simpl; [reflexivity|].
  destruct (String.eqb (id x) k) eqn:E; simpl; [exact IH|].
  now rewrite E.
Qed.

Lemma has_id_false_filter :
  forall k t, has_id k t = false ->
    filter (fun r => negb (String.eqb (id r) k)) t = t.
Proof.
  intros k. induction t as [|x t IH]; simpl; intros H; [reflexivity|].
  apply orb_false_iff in H. destruct H as [Hx Ht].
  rewrite Hx. simpl. now rewrite IH.
Qed.

Lemma find_id_update :
  forall k k' f t,
    (forall r, id (f r) = id r) ->
    find_id k' (map (fun r => if String.eqb (id r) k then f r else r) t)
    = if String.eqb k k'
      then option_map f (find_id k' t)
      else find_id k' t.
Proof.
  intros k k' f t Hf. unfold find_id. induction t as [|x t IH]; simpl.
  - destruct (String.eqb k k'); reflexivity.
  - destruct (String.eqb (id x) k) eqn:E.
    + rewrite Hf. apply String.eqb_eq in E. rewrite E.
      destruct (String.eqb k k') eqn:E'; [reflexivity | exact IH].
    + destruct (String.eqb (id x) k') eqn:E'.
      * apply String.eqb_eq in E'. rewrite <- E', String.eqb_sym, E. reflexivity.
      * exact IH.
Qed.

Lemma apply_update_content :
  forall s rc em now r, same_content r (apply_update s rc em now r).
Proof.
  intros s rc em now r. unfold apply_update, same_content.
  destruct rc, em, s; simpl; repeat split.
Qed.

(** X1.  The row that [addToUploadQueue] has inserted is the one
    [getUploadQueueItem] returns for its id, with [uploaded_at] NULL; the
    lookup of every other id is as before, and the table has one more
    row. *)
Theorem inserted_row_is_found :
  forall (record : UploadQueueRecord) (t t' : Table),
    addToUploadQueue None record t = Resolved t' ->
    getUploadQueueItem None (id record) t'
      = Resolved (Some (with_uploaded_at None record)) /\
    (forall k, k <> id record ->
       getUploadQueueItem None k t' = getUploadQueueItem None k t) /\
    length t' = S (length t).
Proof.
  intros record t t' H. unfold addToUploadQueue in H.
  destruct (has_id (id record) t) eqn:Hid; [discriminate|].
  inversion H; subst; clear H. unfold getUploadQueueItem.
  split; [|split].
  - rewrite find_id_app.
    apply find_id_has_id in Hid. rewrite Hid. simpl.
    now rewrite String.eqb_refl.
  - intros k Hk. rewrite find_id_app.
    destruct (find_id k t); [reflexivity|]. simpl.
    destruct (String.eqb (id record) k) eqn:E; [|reflexivity].
    apply String.eqb_eq in E. congruence.
  - rewrite length_app. simpl. lia.
Qed.

Lemma inserted_row_is_found_witness :
  addToUploadQueue None video_row done_before
    = Resolved (done_before ++ [video_row]) /\
  getUploadQueueItem None "v" (done_before ++ [video_row])
    = Resolved (Some video_row) /\
  getUploadQueueItem None "z" (done_before ++ [video_row])
    = getUploadQueueItem None "z" done_before.
Proof.
  destruct (inserted_row_is_found video_row done_before
              (done_before ++ [video_row]) eq_refl) as [H1 [H2 _]].
  split; [reflexivity|]. split; [exact H1|].
  apply H2. discriminate.
Defined.

(** X2.  After [removeFromUploadQueue(id)] no row has the id, and the
    lookup of every other id is as before. *)
Theorem removed_row_is_gone :
  forall (k : string) (t : Table),
    exists t',
      removeFromUploadQueue None k t = Resolved t' /\
      getUploadQueueItem None k t' = Resolved None /\
      has_id k t' = false /\
      (forall k', k' <> k ->
         getUploadQueueItem None k' t' = getUploadQueueItem None k' t) /\
      (forall r, In r t' <-> In r t /\ id r <> k).
Proof.
  intros k t. eexists. split; [reflexivity|].
  unfold getUploadQueueItem.
  split; [now rewrite find_id_filter_same|].
  split; [apply find_id_has_id; apply find_id_filter_same|].
  split.
  - intros k' Hne. now rewrite find_id_filter_other.
  - intros r. rewrite filter_In, negb_true_iff, String.eqb_neq. tauto.
Qed.

(** X3.  Inserting a row and then removing its id gives back the table
    as it was. *)
Theorem insert_then_remove :
  forall (record : UploadQueueRecord) (t t' : Table),
    addToUploadQueue None record t = Resolved t' ->
    removeFromUploadQueue None (id record) t' = Resolved t.
Proof.
  intros record t t' H. unfold addToUploadQueue in H.
  destruct (has_id (id record) t) eqn:Hid; [discriminate|].
  inversion H; subst; clear H. unfold removeFromUploadQueue.
  rewrite filter_app, has_id_false_filter by assumption.
  simpl. rewrite String.eqb_refl. simpl. now rewrite app_nil_r.
Qed.

Lemma insert_then_remove_witness :
  addToUploadQueue None video_row done_before
    = Resolved (done_before ++ [video_row]) /\
  removeFromUploadQueue None "v" (done_before ++ [video_row])
    = Resolved done_before.
Proof.
  split; [reflexivity|].
  exact (insert_then_remove video_row done_before
           (done_before ++ [video_row]) eq_refl).
Defined.

(** X4.  A write for an id that has no row is accepted and changes
    nothing: [updateUploadQueueStatus], whatever its other arguments, and
    [removeFromUploadQueue] both resolve with the table as it was. *)
Theorem writes_to_absent_id :
  forall (k : string) (t : Table),
    getUploadQueueItem None k t = Resolved None ->
    (forall s retryCount errorMessage now,
       updateUploadQueueStatus None k s retryCount errorMessage now t = Resolved t) /\
    removeFromUploadQueue None k t = Resolved t.
Proof.
  intros k t H. unfold getUploadQueueItem in H.
  assert (Hid : has_id k t = false).
  { apply find_id_has_id. now inversion H. }
  split.
  - intros s rc em now. unfold updateUploadQueueStatus.
    now rewrite has_id_false_map.
  - unfold removeFromUploadQueue. now rewrite has_id_false_filter.
Qed.

Lemma writes_to_absent_id_witness :
  getUploadQueueItem None "q" done_before = Resolved None /\
  updateUploadQueueStatus None "q" completed None None 2000 done_before
    = Resolved done_before /\
  removeFromUploadQueue None "q" done_before = Resolved done_before.
Proof.
  destruct (writes_to_absent_id "q" done_before eq_refl) as [H1 H2].
  split; [reflexivity|]. split; [apply H1 | exact H2].
Defined.

(** X5.  After [updateUploadQueueStatus(id, status, retryCount?,
    errorMessage?)] the row found under the id has the given status; its
    retry count and error message are the given ones, or the old ones where
    the argument was left out; [uploaded_at] is the clock of the call when
    the status is 'completed' and the old value otherwise; every other
    column is as before, and so is the lookup of every other id. *)
Theorem updated_row_is_found :
  forall (k : string) (s : Status) (retryCount : option nat)
         (errorMessage : option (option string)) (now : Z)
         (t : Table) (r : UploadQueueRecord),
    getUploadQueueItem None k t = Resolved (Some r) ->
    exists t' r',
      updateUploadQueueStatus None k s retryCount errorMessage now t = Resolved t' /\
      getUploadQueueItem None k t' = Resolved (Some r') /\
      status r' = s /\
      retry_count r' = match retryCount with
                       | Some n => n
                       | None => retry_count r
                       end /\
      error_message r' = match errorMessage with
                         | Some m => m
                         | None => error_message r
                         end /\
      uploaded_at r' = (if Status_eqb s completed then Some now
                        else uploaded_at r) /\
      same_content r r' /\
      (forall k', k' <> k ->
         getUploadQueueItem None k' t' = getUploadQueueItem None k' t).
Proof.
  intros k s rc em now t r H. unfold getUploadQueueItem in H.
  assert (Hr : find_id k t = Some r) by now inversion H.
  assert (Hid : forall x, id (apply_update s rc em now x) = id x).
  { intros x. apply (apply_update_content s rc em now x). }
  eexists. exists (apply_update s rc em now r).
  split; [reflexivity|]. unfold getUploadQueueItem.
  split; [|split; [|split; [|split; [|split; [|split]]]]].
  - rewrite find_id_update by exact Hid.
    rewrite String.eqb_refl, Hr. reflexivity.
  - unfold apply_update. destruct rc, em, s; reflexivity.
  - unfold apply_update. destruct rc, em, s; reflexivity.
  - unfold apply_update. destruct rc, em, s; reflexivity.
  - unfold apply_update. destruct rc, em, s; reflexivity.
  - apply apply_update_content.
  - intros k' Hne. rewrite find_id_update by exact Hid.
    destruct (String.eqb k k') eqn:E; [|reflexivity].
    apply String.eqb_eq in E. congruence.
Qed.

Lemma updated_row_is_found_witness :
  getUploadQueueItem None "v" [video_row] = Resolved (Some video_row) /\
  exists t' r',
    updateUploadQueueStatus None "v" failed (Some 1%nat)
      (Some (Some "HTTP 500: Unknown error")) 2000 [video_row] = Resolved t' /\
    getUploadQueueItem None "v" t' = Resolved (Some r') /\
    status r' = failed /\ retry_count r' = 1%nat /\
    error_message r' = Some "HTTP 500: Unknown error" /\
    uploaded_at r' = None.
Proof.
  split; [reflexivity|].
  destruct (updated_row_is_found "v" failed (Some 1%nat)
              (Some (Some "HTTP 500: Unknown error")) 2000 [video_row] video_row
              eq_refl)
    as [t' [r' [H1 [H2 [H3 [H4 [H5 [H6 _]]]]]]]].
  exists t', r'. repeat split; assumption.
Defined.

(* ================================================================== *)
(** * The store: the pending query, its pages, and the counts *)
(* ================================================================== *)

Lemma insert_by_created_at_perm :
  forall x l, Permutation (insert_by_created_at x l) (x :: l).
Proof.
  intros x l. induction l as [|y l IH]; simpl; [apply Permutation_refl|].
  destruct (created_at x <=? created_at y); [apply Permutation_refl|].
  eapply Permutation_trans; [apply perm_skip; exact IH | apply perm_swap].
Qed.

Lemma order_by_created_at_perm :
  forall l, Permutation (order_by_created_at l) l.
Proof.
  induction l as [|x l IH]; simpl; [constructor|].
  eapply Permutation_trans; [apply insert_by_created_at_perm|].
  now apply perm_skip.
Qed.

Lemma insert_by_created_at_sorted :
  forall x l,
    StronglySorted (fun a b => created_at a <= created_at b) l ->
    StronglySorted (fun a b => created_at a <= created_at b)
      (insert_by_created_at x l).
Proof.
  intros x l H. induction H as [|y l Hl IH Hy]; simpl.
  - repeat constructor.
  - destruct (created_at x <=? created_at y) eqn:E.
    + apply Z.leb_le in E. constructor; [now constructor|].
      constructor; [exact E|].
      eapply Forall_impl; [|exact Hy]. simpl. intros a Ha. lia.
    + apply Z.leb_gt in E. constructor; [exact IH|].
      apply Forall_forall. intros a Ha.
      apply In_insert_by_created_at in Ha. destruct Ha as [->|Ha]; [lia|].
      eapply Forall_forall in Hy; eauto.
Qed.

Lemma order_by_created_at_sorted :
  forall l, StronglySorted (fun a b => created_at a <= created_at b)
              (order_by_created_at l).
Proof.
  induction l as [|x l IH]; simpl; [constructor|].
  now apply insert_by_created_at_sorted.
Qed.

(** X6.  [getPendingUploads()] without a limit returns the rows of the
    table whose status is 'pending' or 'failed', each as often as the table
    holds it, and returns them oldest first. *)
Theorem pending_rows_oldest_first :
  forall (t : Table),
    exists rows,
      getPendingUploads None None 0 t = Resolved rows /\
      Permutation rows (filter is_pending_or_failed t) /\
      StronglySorted (fun a b => created_at a <= created_at b) rows /\
      (forall r, In r rows <->
                 In r t /\ (status r = pending \/ status r = failed)).
Proof.
  intros t. eexists. split; [reflexivity|].
  split; [apply order_by_created_at_perm|].
  split; [apply order_by_created_at_sorted|].
  intros r. rewrite In_order_by_created_at, filter_In.
  unfold is_pending_or_failed.
  destruct (status r); split; intros [H1 H2]; split; auto;
    try discriminate; destruct H2; discriminate.
Qed.

Lemma firstn_then_firstn :
  forall (A : Type) (a b : nat) (l : list A),
    firstn a l ++ firstn b (skipn a l) = firstn (a + b) l.
Proof.
  intros A a b. induction a as [|a IH]; intros l; simpl; [reflexivity|].
  destruct l as [|x l]; simpl.
  - now rewrite firstn_nil.
  - now rewrite IH.
Qed.

Lemma pages_firstn :
  forall limit n t, (0 < limit)%nat ->
    pages limit n t
    = firstn (n * limit) (order_by_created_at (filter is_pending_or_failed t)).
Proof.
  intros limit n t Hl. unfold pages.
  induction n as [|n IH]; [reflexivity|].
  rewrite seq_S, flat_map_app, IH. simpl.
  rewrite app_nil_r. unfold getPendingUploads.
  destruct limit as [|limit]; [lia|].
  rewrite firstn_then_firstn. f_equal. lia.
Qed.

(** X7.  Read in pages of [limit] rows at offsets 0, [limit], 2 [limit],
    ... from a table that does not change in between, the pending rows come
    out as the unlimited query returns them: none is left out or repeated,
    as soon as the pages read can hold the whole table. *)
Theorem pages_cover_the_pending_rows :
  forall (limit n : nat) (t : Table),
    (0 < limit)%nat -> (length t <= n * limit)%nat ->
    getPendingUploads None None 0 t = Resolved (pages limit n t).
Proof.
  intros limit n t Hl Hn. rewrite pages_firstn by assumption.
  unfold getPendingUploads. rewrite firstn_all2; [reflexivity|].
  rewrite (Permutation_length (order_by_created_at_perm _)).
  pose proof (filter_length_le is_pending_or_failed t). lia.
Qed.

Lemma pages_cover_the_pending_rows_witness :
  (0 < 1)%nat /\
  (length [row "a" failed 1 1000; row "b" completed 0 1001;
           row "c" pending 0 900] <= 3 * 1)%nat /\
  pages 1 3 [row "a" failed 1 1000; row "b" completed 0 1001;
             row "c" pending 0 900]
    = [row "c" pending 0 900; row "a" failed 1 1000].
Proof.
  assert (H1 : (0 < 1)%nat) by lia.
  assert (H2 : (length [row "a" failed 1 1000; row "b" completed 0 1001;
                        row "c" pending 0 900] <= 3 * 1)%nat) by (simpl; lia).
  pose proof (pages_cover_the_pending_rows 1 3 _ H1 H2) as H.
  split; [exact H1|]. split; [exact H2|].
  simpl in H. inversion H. reflexivity.
Defined.

Lemma count_status_partition :
  forall t,
    length t = (count_status pending t + count_status uploading t
                + count_status completed t + count_status failed t)%nat.
Proof.
  unfold count_status. induction t as [|r t IH]; simpl; [reflexivity|].
  destruct (status r); simpl; lia.
Qed.

Lemma pending_or_failed_count :
  forall t,
    length (filter is_pending_or_failed t)
    = (count_status pending t + count_status failed t)%nat.
Proof.
  unfold count_status, is_pending_or_failed.
  induction t as [|r t IH]; simpl; [reflexivity|].
  destruct (status r); simpl; lia.
Qed.

(** X8.  The counts of [getUploadQueueStats()] add up: the total is the
    number of rows and the sum of the four status counts, and the rows
    that [getPendingUploads()] returns are as many as the pending and the
    failed counts together. *)
Theorem stats_add_up :
  forall (t : Table),
    exists s rows,
      getUploadQueueStats None t = Resolved s /\
      getPendingUploads None None 0 t = Resolved rows /\
      stats_total s = length t /\
      stats_total s = (stats_pending s + stats_uploading s
                       + stats_completed s + stats_failed s)%nat /\
      length rows = (stats_pending s + stats_failed s)%nat.
Proof.
  intros t. eexists. eexists.
  split; [reflexivity|]. split; [reflexivity|]. simpl.
  split; [reflexivity|]. split; [apply count_status_partition|].
  rewrite (Permutation_length (order_by_created_at_perm _)).
  apply pending_or_failed_count.
Qed.

Lemma filter_not_completed_pending :
  forall t,
    filter is_pending_or_failed
      (filter (fun r => negb (Status_eqb (status r) completed)) t)
    = filter is_pending_or_failed t.
Proof.
  induction t as [|r t IH]; simpl; [reflexivity|].
  destruct (negb (Status_eqb (status r) completed)) eqn:N; simpl.
  - destruct (is_pending_or_failed r); now rewrite IH.
  - assert (Hp : is_pending_or_failed r = false).
    { unfold is_pending_or_failed.
      destruct (status r); simpl in N; try discriminate; reflexivity. }
    rewrite Hp. exact IH.
Qed.

Lemma count_status_not_completed :
  forall s t,
    count_status s (filter (fun r => negb (Status_eqb (status r) completed)) t)
    = if Status_eqb s completed then 0%nat else count_status s t.
Proof.
  intros s. unfold count_status. induction t as [|r t IH]; simpl.
  - destruct (Status_eqb s completed); reflexivity.
  - destruct (status r) eqn:E, s; simpl in *; rewrite ?E; simpl;
      rewrite ?IH; reflexivity.
Qed.

(** X9.  [clearCompletedUploads()] removes the 'completed' rows and no
    others; what [getPendingUploads] returns is the same before and after,
    for every limit and offset, so a pass does not notice; the 'completed'
    count drops to 0 and the other three counts stay. *)
Theorem completed_rows_cleared :
  forall (t : Table),
    exists t' s s',
      clearCompletedUploads None t = Resolved t' /\
      (forall r, In r t' <-> In r t /\ status r <> completed) /\
      (forall limit offset,
         getPendingUploads None limit offset t'
         = getPendingUploads None limit offset t) /\
      getUploadQueueStats None t = Resolved s /\
      getUploadQueueStats None t' = Resolved s' /\
      stats_completed s' = 0%nat /\
      stats_pending s' = stats_pending s /\
      stats_uploading s' = stats_uploading s /\
      stats_failed s' = stats_failed s /\
      stats_total s' = (stats_total s - stats_completed s)%nat.
Proof.
  intros t. eexists. eexists. eexists.
  split; [reflexivity|].
  split.
  { intros r. rewrite filter_In, negb_true_iff.
    destruct (status r); simpl; split; intros [H1 H2]; split; auto;
      try discriminate; congruence. }
  split.
  { intros limit offset. unfold getPendingUploads.
    now rewrite filter_not_completed_pending. }
  split; [reflexivity|]. split; [reflexivity|]. simpl.
  rewrite !count_status_not_completed. simpl.
  repeat split.
  pose proof (count_status_partition t) as Ht.
  pose proof (count_status_partition
                (filter (fun r => negb (Status_eqb (status r) completed)) t)) as Ht'.
  rewrite !count_status_not_completed in Ht'. simpl in Ht'. lia.
Qed.

(* ================================================================== *)
(** * What one attempt writes *)
(* ================================================================== *)

(** The object of a failed attempt after the [catch] block: its count is
    one more, its id the same. *)
Lemma processItem_catch_count :
  forall m now item st it,
    nth_error (heap st) item = Some it ->
    exists it',
      nth_error (heap (fst (processItem_catch m now item st))) item = Some it' /\
      id it' = id it /\ retry_count it' = S (retry_count it).
Proof.
  intros m now item st it Hit. unfold processItem_catch. rewrite Hit.
  set (n := S (retry_count it)).
  set (st1 := with_heap (mutate item (with_retry_count n) (heap st)) st).
  assert (H1 : nth_error (heap st1) item = Some (with_retry_count n it)).
  { unfold st1. simpl. now rewrite nth_error_mutate_same, Hit. }
  destruct (updateItemStatus_object (id it) failed (Some m) st1 item _ H1)
    as [it2 [H2 [[Hid _] [Hrc _]]]].
  destruct (n <? maxRetries)%nat; cbn [fst].
  - eexists. split.
    + simpl. rewrite nth_error_mutate_same, H2. reflexivity.
    + simpl. split; [exact Hid | exact Hrc].
  - exists it2. split; [exact H2|]. split; [exact Hid | exact Hrc].
Qed.

(** What the [catch] block and the write that follows leave in the table:
    the table as it was when the write is rejected, the update otherwise. *)
Lemma processItem_failure_db :
  forall now fault m item st it,
    nth_error (heap st) item = Some it ->
    let t' := db (fst (processItem_failure now fault m item st)) in
    t' = db st \/
    t' = map (fun x => if String.eqb (id x) (id it)
                       then apply_update failed (Some (S (retry_count it)))
                              (Some (Some m)) 0 x
                       else x) (db st).
Proof.
  intros now fault m item st it Hit. unfold processItem_failure.
  destruct (processItem_catch_count m now item st it Hit) as [it' [Hit' [Hid Hrc]]].
  pose proof (processItem_catch_db m now item st) as Hdb.
  destruct (processItem_catch m now item st) as [st1 delay]. cbn [fst] in *.
  unfold processItem_persist. rewrite Hit', Hid, Hrc.
  unfold updateUploadQueueStatus.
  destruct fault as [msg|]; destruct delay; simpl; rewrite Hdb; auto.
Qed.

(** What one call of [processItem] leaves in the table: nothing new, or
    the 'completed' update, or the 'failed' update with the count of the
    item plus one; the latter two only below [maxRetries]. *)
Lemma processItem_db_cases :
  forall a item st it,
    nth_error (heap st) item = Some it ->
    let t' := db (fst (processItem a item st)) in
    t' = db st \/
    ((retry_count it < maxRetries)%nat /\
     (t' = map (fun x => if String.eqb (id x) (id it)
                         then apply_update completed None None (settledAt a) x
                         else x) (db st) \/
      exists m,
        t' = map (fun x => if String.eqb (id x) (id it)
                           then apply_update failed (Some (S (retry_count it)))
                                  (Some (Some m)) 0 x
                           else x) (db st))).
Proof.
  intros a item st it Hit. unfold processItem, processItem_start. rewrite Hit.
  destruct (negb (isConnected a)); [left; reflexivity|].
  destruct (maxRetries <=? retry_count it)%nat eqn:Hmax.
  { left. cbn [fst]. apply updateItemStatus_db. }
  apply Nat.leb_gt in Hmax.
  set (st1 := updateItemStatus (id it) uploading None st).
  assert (Hdb1 : db st1 = db st) by apply updateItemStatus_db.
  destruct (updateItemStatus_object (id it) uploading None st item it Hit)
    as [it1 [Hit1 [[Hid1 _] [Hrc1 _]]]].
  fold st1 in Hit1.
  unfold processItem_settled. rewrite Hit1.
  destruct (responseError it1 (metadataResponse a) (videoResponse a)) as [m|].
  - (* a check after Promise.all throws *)
    destruct (processItem_failure_db (settledAt a) (failedFault a) m item st1 it1 Hit1)
      as [H|H]; cbv zeta in H; rewrite H, Hdb1.
    + left. reflexivity.
    + right. split; [exact Hmax|]. right. exists m. now rewrite Hid1, Hrc1.
  - (* the write of 'completed' is issued *)
    set (st2 := with_queue (map_delete (id it1) (queue st1)) st1).
    assert (Hit2 : nth_error (heap st2) item = Some it1) by exact Hit1.
    unfold processItem_completed. rewrite Hit2.
    unfold updateUploadQueueStatus.
    destruct (completedFault a) as [msg|].
    + destruct (processItem_failure_db (rejectedAt a) (failedFault a) msg item st2 it1 Hit2)
        as [H|H]; cbv zeta in H; rewrite H; change (db st2) with (db st1);
        rewrite Hdb1.
      * left. reflexivity.
      * right. split; [exact Hmax|]. right. exists msg. now rewrite Hid1, Hrc1.
    + right. split; [exact Hmax|]. left. cbn [fst db with_db].
      change (db st2) with (db st1). now rewrite Hdb1, Hid1.
Qed.

(* ================================================================== *)
(** * What a pass does to the rows *)
(* ================================================================== *)

Lemma same_content_refl : forall r, same_content r r.
Proof. intros r. unfold same_content. repeat split. Qed.

Lemma same_content_trans :
  forall r1 r2 r3, same_content r1 r2 -> same_content r2 r3 -> same_content r1 r3.
Proof.
  unfold same_content. intros r1 r2 r3 H12 H23.
  decompose [and] H12. decompose [and] H23. repeat split; congruence.
Qed.

Lemma row_evolves_refl : forall r, row_evolves r r.
Proof.
  intros r. unfold row_evolves.
  split; [apply same_content_refl|]. repeat split; auto.
Qed.

Lemma row_evolves_trans :
  forall r1 r2 r3, row_evolves r1 r2 -> row_evolves r2 r3 -> row_evolves r1 r3.
Proof.
  intros r1 r2 r3 [C1 [M1 [B1 [F1 T1]]]] [C2 [M2 [B2 [F2 T2]]]].
  split; [eapply same_content_trans; eauto|].
  split; [lia|]. split; [auto|]. split.
  - intros H. rewrite (F1 H) in *. auto.
  - intros H. destruct (T2 H) as [H2|H2]; [|now right].
    assert (Hp : is_pending_or_failed r2 = false)
      by (unfold is_pending_or_failed; now rewrite H2).
    rewrite (F2 Hp) in *. auto.
Qed.

Lemma Forall2_row_evolves_refl : forall t, Forall2 row_evolves t t.
Proof. induction t; constructor; auto using row_evolves_refl. Qed.

Lemma Forall2_row_evolves_trans :
  forall t1 t2 t3,
    Forall2 row_evolves t1 t2 -> Forall2 row_evolves t2 t3 ->
    Forall2 row_evolves t1 t3.
Proof.
  intros t1 t2 t3 H12. revert t3.
  induction H12 as [|x y l l' Hxy Hl IH]; intros t3 H23.
  - inversion H23. constructor.
  - inversion H23; subst. constructor; [eapply row_evolves_trans; eauto | auto].
Qed.

Lemma Forall2_row_evolves_ids :
  forall t t', Forall2 row_evolves t t' -> map id t' = map id t.
Proof.
  intros t t' H. induction H as [|x y l l' [[Hid _] _] Hl IH]; simpl;
    [reflexivity | congruence].
Qed.

(** The update that an attempt on [it] writes, on a table in which [it] is
    the only row with its id. *)
Lemma update_evolves :
  forall f it t,
    (forall x, In x t -> id x = id it -> x = it) ->
    row_evolves it (f it) ->
    Forall2 row_evolves t
      (map (fun x => if String.eqb (id x) (id it) then f x else x) t).
Proof.
  intros f it t Hu Hf. induction t as [|x t IH]; simpl; [constructor|].
  constructor.
  - destruct (String.eqb (id x) (id it)) eqn:E; [|apply row_evolves_refl].
    apply String.eqb_eq in E. rewrite (Hu x (or_introl eq_refl) E). exact Hf.
  - apply IH. intros y Hy. apply Hu. now right.
Qed.

Lemma completed_update_evolves :
  forall now it,
    is_pending_or_failed it = true ->
    row_evolves it (apply_update completed None None now it).
Proof.
  intros now it Hp. unfold row_evolves, apply_update, same_content; simpl.
  repeat split; auto; try congruence.
  intros _. right. discriminate.
Qed.

Lemma failed_update_evolves :
  forall m it,
    is_pending_or_failed it = true -> (retry_count it < maxRetries)%nat ->
    row_evolves it (apply_update failed (Some (S (retry_count it)))
                      (Some (Some m)) 0 it).
Proof.
  intros m it Hp Hrc. unfold row_evolves, apply_update, same_content; simpl.
  repeat split; auto; try congruence; lia.
Qed.

Lemma NoDup_map_sublist :
  forall (f : UploadQueueRecord -> bool) l,
    NoDup (map id l) -> NoDup (map id (filter f l)).
Proof.
  intros f l. induction l as [|x l IH]; simpl; intros H; [constructor|].
  inversion H as [|? ? Hnotin Hnd]; subst.
  destruct (f x); simpl; [|auto].
  constructor; [|auto].
  intros Hin. apply Hnotin. apply in_map_iff in Hin.
  destruct Hin as [y [Hy Hin]]. apply filter_In in Hin.
  apply in_map_iff. exists y. tauto.
Qed.

Lemma NoDup_page :
  forall (A : Type) n k (l : list A), NoDup l -> NoDup (firstn n (skipn k l)).
Proof.
  intros A n k l H.
  rewrite <- (firstn_skipn k l) in H. apply NoDup_app_remove_l in H.
  rewrite <- (firstn_skipn n (skipn k l)) in H. now apply NoDup_app_remove_r in H.
Qed.

(** The rows of a page have distinct ids when the rows of the table do. *)
Lemma getPendingUploads_unique :
  forall fault limit offset t rows,
    unique_ids t ->
    getPendingUploads fault limit offset t = Resolved rows ->
    NoDup (map id rows).
Proof.
  intros fault limit offset t rows Hu H. unfold getPendingUploads in H.
  destruct fault; [discriminate|].
  assert (Hall : NoDup (map id (order_by_created_at (filter is_pending_or_failed t)))).
  { eapply Permutation_NoDup.
    - apply Permutation_map. apply Permutation_sym, order_by_created_at_perm.
    - now apply NoDup_map_sublist. }
  destruct limit as [[|n]|]; injection H as <-; auto.
  change (NoDup (map id (firstn (S n)
            (skipn offset (order_by_created_at (filter is_pending_or_failed t)))))).
  rewrite <- firstn_map, <- skipn_map. now apply NoDup_page.
Qed.

Lemma In_unchanged_row :
  forall k (f : UploadQueueRecord -> UploadQueueRecord) x t,
    In x t -> id x <> k ->
    In x (map (fun y => if String.eqb (id y) k then f y else y) t).
Proof.
  intros k f x t Hin Hne. apply in_map_iff. exists x. split; [|exact Hin].
  apply String.eqb_neq in Hne. now rewrite Hne.
Qed.

Lemma processItems_evolves :
  forall env items st,
    unique_ids (db st) -> NoDup (map id items) ->
    (forall x, In x items -> In x (db st) /\ is_pending_or_failed x = true) ->
    Forall2 row_evolves (db st) (db (processItems env items st)).
Proof.
  intros env items. induction items as [|dbItem rest IH]; intros st Hu Hnd Hin.
  - apply Forall2_row_evolves_refl.
  - cbn [processItems]. unfold attach.
    set (st1 := with_queue _ _).
    assert (Hit : nth_error (heap st1) (length (heap st)) = Some dbItem)
      by apply nth_error_alloc.
    destruct (Hin dbItem (or_introl eq_refl)) as [Hrow Hp].
    assert (Hsame : forall x, In x (db st) -> id x = id dbItem -> x = dbItem).
    { intros x Hx Hid. exact (unique_ids_same_row (db st) x dbItem Hu Hx Hrow Hid). }
    inversion Hnd as [|? ? Hnotin Hnd']; subst.
    set (st2 := fst (processItem (attempt env (id dbItem)) (length (heap st)) st1)).
    assert (Hstep : Forall2 row_evolves (db st) (db st2) /\
                    forall x, In x rest -> In x (db st2)).
    { pose proof (processItem_db_cases (attempt env (id dbItem))
                    (length (heap st)) st1 dbItem Hit) as H.
      cbv zeta in H. fold st2 in H. change (db st1) with (db st) in H.
      assert (Hother : forall x, In x rest -> id x <> id dbItem).
      { intros x Hx Hid. apply Hnotin. rewrite <- Hid. now apply in_map. }
      destruct H as [H|[Hrc [H|[m H]]]]; rewrite H.
      - split; [apply Forall2_row_evolves_refl|].
        intros x Hx. apply Hin. now right.
      - split; [apply update_evolves; auto using completed_update_evolves|].
        intros x Hx. apply In_unchanged_row; [apply Hin; now right | auto].
      - split; [apply update_evolves; auto using failed_update_evolves|].
        intros x Hx. apply In_unchanged_row; [apply Hin; now right | auto]. }
    destruct Hstep as [H12 Hrest].
    eapply Forall2_row_evolves_trans; [exact H12|].
    apply IH.
    + unfold unique_ids. rewrite (Forall2_row_evolves_ids _ _ H12). exact Hu.
    + exact Hnd'.
    + intros x Hx. split; [now apply Hrest | apply Hin; now right].
Qed.

Lemma processPages_evolves :
  forall env fuel offset st st',
    unique_ids (db st) ->
    processPages fuel env offset st = Some st' ->
    Forall2 row_evolves (db st) (db st').
Proof.
  intros env fuel. induction fuel as [|fuel IH]; intros offset st st' Hu H;
    [discriminate|].
  rewrite processPages_S in H.
  destruct (getPendingUploads (pageFault env offset) (Some BATCH_SIZE) offset (db st))
    as [[|x dbItems]|m] eqn:E.
  - inversion H; subst. apply Forall2_row_evolves_refl.
  - assert (H1 : Forall2 row_evolves (db st)
                   (db (processItems env (itemsToProcess (passNow env) (x :: dbItems)) st))).
    { apply processItems_evolves; [exact Hu| |].
      - unfold itemsToProcess. apply NoDup_map_sublist.
        eapply getPendingUploads_unique; eauto.
      - intros y Hy. unfold itemsToProcess in Hy. apply filter_In in Hy.
        destruct Hy as [Hy _]. eapply getPendingUploads_In; eauto. }
    eapply Forall2_row_evolves_trans; [exact H1|].
    eapply IH; [|exact H].
    unfold unique_ids. rewrite (Forall2_row_evolves_ids _ _ H1). exact Hu.
  - inversion H; subst. apply Forall2_row_evolves_refl.
Qed.

(** X11.  On a table with unique ids a pass returns, and whatever the
    environment answers it leaves every row in place with the content it
    was inserted with: it only writes [status], [retry_count],
    [error_message] and [uploaded_at].  No retry count goes down, none goes
    beyond [maxRetries] that was within, a row that was 'uploading' or
    'completed' is not touched, and a row that the pass has completed
    carries its upload time. *)
Theorem pass_keeps_the_rows :
  forall (env : PassEnv) (st : State),
    unique_ids (db st) ->
    (exists st', processQueue (S (length (db st))) env st = Some st') /\
    (forall fuel st',
       processQueue fuel env st = Some st' ->
       Forall2 row_evolves (db st) (db st') /\ unique_ids (db st')).
Proof.
  intros env st Hu. split.
  - unfold processQueue. destruct (isProcessing st); [eauto|].
    destruct (processPages_returns env (length (db st)) 0 (with_isProcessing true st))
      as [st' H]; [simpl; lia|].
    rewrite H. simpl. eauto.
  - intros fuel st' H. unfold processQueue in H.
    assert (H12 : Forall2 row_evolves (db st) (db st')).
    { destruct (isProcessing st).
      - inversion H; subst. apply Forall2_row_evolves_refl.
      - destruct (processPages fuel env 0 (with_isProcessing true st)) as [r|] eqn:E;
          [|discriminate].
        inversion H; subst. cbn [db with_isProcessing].
        apply (processPages_evolves env fuel 0 (with_isProcessing true st) r Hu E). }
    split; [exact H12|].
    unfold unique_ids. rewrite (Forall2_row_evolves_ids _ _ H12). exact Hu.
Qed.

Lemma unique_ids_mixed_table : unique_ids mixed_table.
Proof.
  unfold unique_ids, mixed_table; simpl.
  repeat constructor; simpl; intuition discriminate.
Qed.

Lemma pass_keeps_the_rows_witness :
  unique_ids (db (boot mixed_table)) /\
  exists st',
    processQueue 5 (always_refused 2000) (boot mixed_table) = Some st' /\
    Forall2 row_evolves mixed_table (db st').
Proof.
  split; [exact unique_ids_mixed_table|].
  destruct (pass_keeps_the_rows (always_refused 2000) (boot mixed_table)
              unique_ids_mixed_table) as [[st' H1] H2].
  exists st'. split; [exact H1|].
  exact (proj1 (H2 _ _ H1)).
Defined.

(* ================================================================== *)
(** * A pass without a connection *)
(* ================================================================== *)

Lemma processItem_offline :
  forall a item st, isConnected a = false -> processItem a item st = (st, Skipped).
Proof.
  intros a item st H. unfold processItem, processItem_start. rewrite H.
  destruct (nth_error (heap st) item); reflexivity.
Qed.

Lemma nth_error_grow :
  forall (h : list UploadQueueRecord) r l x,
    nth_error h l = Some x -> nth_error (h ++ [r]) l = Some x.
Proof.
  intros h r l x H. rewrite nth_error_app1; [exact H|].
  apply nth_error_Some. congruence.
Qed.

Lemma processItems_offline :
  forall env items st,
    (forall k, isConnected (attempt env k) = false) ->
    let st' := processItems env items st in
    db st' = db st /\ retryTimer st' = retryTimer st /\
    isProcessing st' = isProcessing st /\
    (forall l x, nth_error (heap st) l = Some x -> nth_error (heap st') l = Some x).
Proof.
  intros env items. induction items as [|dbItem rest IH]; intros st Hoff; simpl.
  - auto.
  - rewrite processItem_offline by apply Hoff. cbn [fst].
    destruct (IH (snd (attach dbItem st)) Hoff) as [H1 [H2 [H3 H4]]].
    unfold attach in *. cbn [snd] in *.
    split; [exact H1|]. split; [exact H2|]. split; [exact H3|].
    intros l x Hx. apply H4. simpl. now apply nth_error_grow.
Qed.

Lemma processPages_offline :
  forall env fuel offset st st',
    (forall k, isConnected (attempt env k) = false) ->
    processPages fuel env offset st = Some st' ->
    db st' = db st /\ retryTimer st' = retryTimer st /\
    isProcessing st' = isProcessing st /\
    (forall l x, nth_error (heap st) l = Some x -> nth_error (heap st') l = Some x).
Proof.
  intros env fuel. induction fuel as [|fuel IH]; intros offset st st' Hoff H;
    [discriminate|].
  rewrite processPages_S in H.
  destruct (getPendingUploads (pageFault env offset) (Some BATCH_SIZE) offset (db st))
    as [[|x dbItems]|m].
  - inversion H; subst. auto.
  - destruct (processItems_offline env (itemsToProcess (passNow env) (x :: dbItems))
                st Hoff) as [A1 [A2 [A3 A4]]].
    destruct (IH _ _ _ Hoff H) as [B1 [B2 [B3 B4]]].
    split; [congruence|]. split; [congruence|]. split; [congruence|].
    intros l y Hy. apply B4, A4, Hy.
  - inversion H; subst. auto.
Qed.

(** X12.  A pass made without a connection returns and writes nothing:
    the table, the retry timer and every object already in memory are as
    before (no retry is used up, no status changes); it only puts the row
    objects it has read in the Map. *)
Theorem offline_pass_writes_nothing :
  forall (env : PassEnv) (st : State),
    (forall k, isConnected (attempt env k) = false) ->
    (exists st', processQueue (S (length (db st))) env st = Some st') /\
    (forall fuel st',
       processQueue fuel env st = Some st' ->
       db st' = db st /\ retryTimer st' = retryTimer st /\
       isProcessing st' = isProcessing st /\
       (forall l x, nth_error (heap st) l = Some x ->
                    nth_error (heap st') l = Some x)).
Proof.
  intros env st Hoff. split.
  - unfold processQueue. destruct (isProcessing st); [eauto|].
    destruct (processPages_returns env (length (db st)) 0 (with_isProcessing true st))
      as [st' H]; [simpl; lia|].
    rewrite H. simpl. eauto.
  - intros fuel st' H. unfold processQueue in H.
    destruct (isProcessing st) eqn:Hp.
    + inversion H; subst. auto.
    + destruct (processPages fuel env 0 (with_isProcessing true st)) as [r|] eqn:E;
        [|discriminate].
      inversion H; subst. cbn [db retryTimer isProcessing heap with_isProcessing].
      destruct (processPages_offline env fuel 0 _ r Hoff E) as [A1 [A2 [A3 A4]]].
      cbn [db retryTimer isProcessing heap with_isProcessing] in *.
      repeat split; auto.
Qed.

Lemma offline_pass_writes_nothing_witness :
  (forall k, isConnected (attempt (offline 2000) k) = false) /\
  exists st',
    processQueue 5 (offline 2000) (boot mixed_table) = Some st' /\
    db st' = mixed_table /\ retryTimer st' = None /\
    map id (getQueueItems st') = ["p"; "f"].
Proof.
  assert (Hoff : forall k, isConnected (attempt (offline 2000) k) = false)
    by reflexivity.
  split; [exact Hoff|].
  destruct (offline_pass_writes_nothing (offline 2000) (boot mixed_table) Hoff)
    as [_ H].
  eexists. split; [reflexivity|].
  destruct (H 5%nat _ eq_refl) as [H1 [H2 _]].
  split; [exact H1|]. split; [exact H2|]. reflexivity.
Defined.

(* ================================================================== *)
(** * The delays of the retry timer *)
(* ================================================================== *)

Lemma next_item_timer :
  forall now offset rest st,
    retryTimer (fst (next_item now offset rest st)) = retryTimer st /\
    forall p, snd (next_item now offset rest st) = Some p ->
              task_delay (TPass p) = None.
Proof.
  intros now offset [|r rest] st; simpl; split; auto;
    intros p H; inversion H; reflexivity.
Qed.

Lemma processItem_start_retryTimer :
  forall c item st,
    retryTimer (fst (processItem_start c item st)) = retryTimer st.
Proof.
  intros c item st. unfold processItem_start.
  destruct (nth_error (heap st) item) as [it|]; [|reflexivity].
  destruct (negb c); [reflexivity|].
  destruct (maxRetries <=? retry_count it)%nat; simpl;
    apply updateItemStatus_retryTimer.
Qed.

Lemma processItem_settled_retryTimer :
  forall m v item st,
    retryTimer (fst (processItem_settled m v item st)) = retryTimer st.
Proof.
  intros m v item st. unfold processItem_settled.
  destruct (nth_error (heap st) item) as [it|]; [|reflexivity].
  destruct (responseError it m v); reflexivity.
Qed.

Lemma processItem_completed_retryTimer :
  forall fault now item st,
    retryTimer (fst (processItem_completed fault now item st)) = retryTimer st.
Proof.
  intros fault now item st. unfold processItem_completed.
  destruct (nth_error (heap st) item) as [it|]; [|reflexivity].
  destruct (updateUploadQueueStatus fault (id it) completed None None now (db st));
    reflexivity.
Qed.

(** The delay computed by the [catch] block is 5000 ms or 10000 ms: the
    new count is 1 or 2 when a retry is left. *)
Lemma processItem_catch_delay :
  forall m now item st,
    retryTimer (fst (processItem_catch m now item st)) = retryTimer st /\
    backoff_delay (snd (processItem_catch m now item st)).
Proof.
  intros m now item st. unfold processItem_catch, backoff_delay.
  destruct (nth_error (heap st) item) as [it|]; [|auto].
  destruct (S (retry_count it) <? maxRetries)%nat eqn:E; cbn [fst snd].
  - cbn [retryTimer with_heap]. rewrite updateItemStatus_retryTimer.
    split; [reflexivity|].
    apply Nat.ltb_lt in E. unfold maxRetries in E.
    destruct (retry_count it) as [|[|n]]; [right; left | right; right | lia];
      reflexivity.
  - rewrite updateItemStatus_retryTimer. auto.
Qed.

Lemma processItem_persist_timer :
  forall fault m delay item st,
    backoff_delay (retryTimer st) -> backoff_delay delay ->
    backoff_delay (retryTimer (processItem_persist fault m delay item st)).
Proof.
  intros fault m delay item st Hst Hd. unfold processItem_persist.
  destruct (nth_error (heap st) item) as [it|]; [|exact Hst].
  destruct (updateUploadQueueStatus fault (id it) failed (Some (retry_count it))
              (Some (Some m)) 0 (db st));
    destruct delay; simpl; auto.
Qed.

Lemma pass_step_timer :
  forall a p st,
    backoff_delay (retryTimer st) -> backoff_delay (task_delay (TPass p)) ->
    backoff_delay (retryTimer (fst (pass_step a p st))) /\
    forall p', snd (pass_step a p st) = Some p' ->
               backoff_delay (task_delay (TPass p')).
Proof.
  intros a p st Hst Hp.
  assert (Hnone : backoff_delay None) by (left; reflexivity).
  assert (Hnext : forall now offset rest st1,
            retryTimer st1 = retryTimer st ->
            backoff_delay (retryTimer (fst (next_item now offset rest st1))) /\
            forall p', snd (next_item now offset rest st1) = Some p' ->
                       backoff_delay (task_delay (TPass p'))).
  { intros now offset rest st1 H1.
    destruct (next_item_timer now offset rest st1) as [A B].
    split; [rewrite A, H1; exact Hst|].
    intros p' Hp'. now rewrite (B p' Hp'). }
  destruct p as [now offset | now offset rest item | now offset rest item
                | now offset rest item issuedAt | now offset rest item m delay];
    unfold pass_step.
  - destruct (getPendingUploads (ans_fault a) (Some BATCH_SIZE) offset (db st))
      as [[|x dbItems]|msg].
    + split; [exact Hst | discriminate].
    + now apply Hnext.
    + split; [exact Hst | discriminate].
  - pose proof (processItem_start_retryTimer (ans_connected a) item st) as H.
    destruct (processItem_start (ans_connected a) item st) as [st1 [o|]];
      cbn [fst] in H.
    + now apply Hnext.
    + cbn [fst snd]. split; [now rewrite H|].
      intros p' Hp'. inversion Hp'; subst. exact Hnone.
  - pose proof (processItem_settled_retryTimer (ans_metadata a) (ans_video a) item st) as H.
    destruct (processItem_settled (ans_metadata a) (ans_video a) item st)
      as [st1 [m|]]; cbn [fst] in H.
    + destruct (processItem_catch_delay m (ans_clock a) item st1) as [A B].
      destruct (processItem_catch m (ans_clock a) item st1) as [st2 delay].
      cbn [fst snd] in *. split; [now rewrite A, H|].
      intros p' Hp'. inversion Hp'; subst. exact B.
    + cbn [fst snd]. split; [now rewrite H|].
      intros p' Hp'. inversion Hp'; subst. exact Hnone.
  - pose proof (processItem_completed_retryTimer (ans_fault a) issuedAt item st) as H.
    destruct (processItem_completed (ans_fault a) issuedAt item st)
      as [st1 [m|]]; cbn [fst] in H.
    + destruct (processItem_catch_delay m (ans_clock a) item st1) as [A B].
      destruct (processItem_catch m (ans_clock a) item st1) as [st2 delay].
      cbn [fst snd] in *. split; [now rewrite A, H|].
      intros p' Hp'. inversion Hp'; subst. exact B.
    + now apply Hnext.
  - simpl in Hp.
    pose proof (processItem_persist_timer (ans_fault a) m delay item st Hst Hp) as H.
    destruct (next_item_timer now offset rest
                (processItem_persist (ans_fault a) m delay item st)) as [A B].
    split; [now rewrite A|].
    intros p' Hp'. now rewrite (B p' Hp').
Qed.

Lemma load_loop_timer :
  forall records st,
    retryTimer (fst (load_loop records st)) = retryTimer st /\
    Forall (fun t => backoff_delay (task_delay t)) (snd (load_loop records st)).
Proof.
  assert (Hnone : backoff_delay None) by (left; reflexivity).
  induction records as [|record rest IH]; intros st; simpl.
  - split; [reflexivity | repeat constructor].
  - destruct (status record); try apply (IH (snd (attach record st))).
    simpl. split; [reflexivity | repeat constructor].
Qed.

Lemma spawn_pass_timer :
  forall now st,
    retryTimer (fst (spawn_pass now st)) = retryTimer st /\
    Forall (fun t => backoff_delay (task_delay t)) (snd (spawn_pass now st)).
Proof.
  intros now st. unfold spawn_pass, processQueue_enter.
  destruct (isProcessing st); simpl; split; auto.
  repeat constructor.
Qed.

Lemma task_step_timer :
  forall a t st,
    backoff_delay (retryTimer st) -> backoff_delay (task_delay t) ->
    timer_in_range (fst (task_step a t st)) (snd (task_step a t st)).
Proof.
  intros a t st Hst Ht. unfold timer_in_range.
  destruct t as [p | q | | record rest | | | k]; cbn [task_step].
  - destruct (pass_step_timer a p st Hst Ht) as [A B].
    destruct (pass_step a p st) as [st1 [p'|]]; cbn [fst snd] in *.
    + split; [exact A|]. constructor; [now apply B | constructor].
    + split; [exact A | constructor].
  - unfold addToQueue_end.
    destruct (addToUploadQueue (ans_fault a) q (db st)) as [t'|m].
    + destruct (spawn_pass_timer (ans_clock a) (with_db t' st)) as [A B].
      split; [now rewrite A | exact B].
    + split; [exact Hst | constructor].
  - destruct (getPendingUploads (ans_fault a) None 0 (db st)) as [records|m].
    + destruct (load_loop_timer records (with_queue [] st)) as [A B].
      split; [now rewrite A | exact B].
    + simpl. split; [exact Hst|]. repeat constructor.
  - destruct (updateUploadQueueStatus (ans_fault a) (id record) pending None None 0 (db st))
      as [t'|m].
    + destruct (load_loop_timer rest (snd (attach record (with_db t' st)))) as [A B].
      split; [now rewrite A | exact B].
    + simpl. split; [exact Hst|]. repeat constructor.
  - destruct (ans_connected a).
    + destruct (spawn_pass_timer (ans_clock a) st) as [A B].
      split; [now rewrite A | exact B].
    + split; [exact Hst | constructor].
  - unfold clearQueue_end, deleteAll.
    destruct (ans_fault a); simpl; split; auto.
  - unfold removeFromQueue_end.
    destruct (removeFromUploadQueue (ans_fault a) k (db st)); simpl; split; auto.
Qed.

Lemma act_timer :
  forall x m,
    timer_in_range (engine m) (tasks m) ->
    timer_in_range (engine (act x m)) (tasks (act x m)).
Proof.
  intros x [st ts] [Hst Hts]. simpl in Hst, Hts.
  assert (Hnone : backoff_delay None) by (left; reflexivity).
  assert (Hadd : forall t, task_delay t = None ->
            Forall (fun t => backoff_delay (task_delay t)) (ts ++ [t])).
  { intros t Ht. apply Forall_app. split; [exact Hts|].
    constructor; [now rewrite Ht | constructor]. }
  destruct x as [| | item now | k | | connected now | now | i a];
    unfold act, timer_in_range; cbn [engine tasks].
  - split; [exact Hst | now apply Hadd].
  - split; [|exact Hts].
    unfold cleanup. destruct (networkListener st); exact Hnone.
  - split; [exact Hst | now apply Hadd].
  - split; [exact Hst | now apply Hadd].
  - split; [exact Hst | now apply Hadd].
  - destruct ((0 <? listeners st)%nat && connected && negb (isProcessing st));
      [|split; assumption].
    destruct (spawn_pass_timer now st) as [A B].
    destruct (spawn_pass now st) as [st1 ts1]. cbn [fst snd engine tasks] in *.
    split; [now rewrite A|]. apply Forall_app. now split.
  - destruct (retryTimer st) as [d|] eqn:Ht;
      [|split; simpl; [rewrite Ht; exact Hnone | exact Hts]].
    destruct (spawn_pass_timer now (with_retryTimer None st)) as [A B].
    destruct (spawn_pass now (with_retryTimer None st)) as [st1 ts1].
    cbn [fst snd engine tasks] in *.
    split; [rewrite A; exact Hnone|]. apply Forall_app. now split.
  - destruct (nth_error ts i) as [t|] eqn:Hnth; [|split; assumption].
    assert (Ht : backoff_delay (task_delay t)).
    { eapply Forall_forall in Hts; [exact Hts|]. eapply nth_error_In; eauto. }
    destruct (task_step_timer a t st Hst Ht) as [A B].
    destruct (task_step a t st) as [st1 ts1]. cbn [fst snd engine tasks] in *.
    split; [exact A|]. apply Forall_app. split; [|exact B].
    now apply Forall_drop_nth.
Qed.

Lemma run_timer :
  forall trace m,
    timer_in_range (engine m) (tasks m) ->
    timer_in_range (engine (run trace m)) (tasks (run trace m)).
Proof.
  induction trace as [|x trace IH]; intros m H; simpl; [exact H|].
  apply IH. now apply act_timer.
Qed.

(** X13.  In every interleaved execution of the engine, whatever the
    store, the network and the collector answer, the retry timer is either
    not armed or armed for 5000 ms or for 10000 ms. *)
Theorem retry_timer_delays :
  forall (t : Table) (trace : list Action),
    let st := engine (run trace (start t)) in
    retryTimer st = None \/ retryTimer st = Some 5000 \/ retryTimer st = Some 10000.
Proof.
  intros t trace st.
  destruct (run_timer trace (start t)) as [H _]; [|exact H].
  split; [left; reflexivity | constructor].
Qed.

(* ================================================================== *)
(** * What the Map shows *)
(* ================================================================== *)

Section Statuses.

Let live (r : UploadQueueRecord) : Prop := status r <> completed.

Lemma live_mutate :
  forall l f h,
    (forall r, live r -> live (f r)) -> Forall live h -> Forall live (mutate l f h).
Proof.
  intros l f h Hf. revert l.
  induction h as [|r h IH]; intros [|l] H; simpl; auto;
    inversion H; subst; constructor; auto.
Qed.

Lemma live_attach :
  forall r st, live r -> Forall live (heap st) ->
    Forall live (heap (snd (attach r st))).
Proof.
  intros r st Hr H. unfold attach; simpl. apply Forall_app. split; auto.
Qed.

Lemma live_updateItemStatus :
  forall k s e st, s <> completed -> Forall live (heap st) ->
    Forall live (heap (updateItemStatus k s e st)).
Proof.
  intros k s e st Hs H. unfold updateItemStatus.
  destruct (map_get k (queue st)); [|exact H]. simpl.
  apply live_mutate; [|exact H].
  intros r _. unfold live. destruct (truthy e); exact Hs.
Qed.

Lemma live_processItem_start :
  forall c item st, Forall live (heap st) ->
    Forall live (heap (fst (processItem_start c item st))).
Proof.
  intros c item st H. unfold processItem_start.
  destruct (nth_error (heap st) item) as [it|]; [|exact H].
  destruct (negb c); [exact H|].
  destruct (maxRetries <=? retry_count it)%nat; cbn [fst];
    apply live_updateItemStatus; auto; discriminate.
Qed.

Lemma live_processItem_settled :
  forall m v item st,
    heap (fst (processItem_settled m v item st)) = heap st.
Proof.
  intros m v item st. unfold processItem_settled.
  destruct (nth_error (heap st) item) as [it|]; [|reflexivity].
  destruct (responseError it m v); reflexivity.
Qed.

Lemma live_processItem_completed :
  forall fault now item st,
    heap (fst (processItem_completed fault now item st)) = heap st.
Proof.
  intros fault now item st. unfold processItem_completed.
  destruct (nth_error (heap st) item) as [it|]; [|reflexivity].
  destruct (updateUploadQueueStatus fault (id it) completed None None now (db st));
    reflexivity.
Qed.

Lemma live_processItem_catch :
  forall m now item st, Forall live (heap st) ->
    Forall live (heap (fst (processItem_catch m now item st))).
Proof.
  intros m now item st H. unfold processItem_catch.
  destruct (nth_error (heap st) item) as [it|]; [|exact H].
  set (st1 := with_heap (mutate item (with_retry_count (S (retry_count it))) (heap st)) st).
  assert (H1 : Forall live (heap st1))
    by (apply live_mutate; auto).
  assert (H2 : Forall live (heap (updateItemStatus (id it) failed (Some m) st1)))
    by (apply live_updateItemStatus; auto; discriminate).
  destruct (S (retry_count it) <? maxRetries)%nat; cbn [fst]; [|exact H2].
  simpl. apply live_mutate; auto.
Qed.

Lemma live_next_item :
  forall now offset rest st,
    Forall live (heap st) -> Forall live rest ->
    Forall live (heap (fst (next_item now offset rest st))) /\
    forall p, snd (next_item now offset rest st) = Some p ->
              Forall live (rest_of p).
Proof.
  intros now offset [|r rest] st H Hrest; simpl.
  - split; [exact H|]. intros p Hp. inversion Hp; subst. constructor.
  - inversion Hrest; subst. split.
    + apply Forall_app. split; auto.
    + intros p Hp. inversion Hp; subst. assumption.
Qed.

Lemma live_page :
  forall fault limit offset t rows now,
    getPendingUploads fault limit offset t = Resolved rows ->
    Forall live (itemsToProcess now rows).
Proof.
  intros fault limit offset t rows now H. apply Forall_forall. intros r Hr.
  unfold itemsToProcess in Hr. apply filter_In in Hr. destruct Hr as [Hr _].
  destruct (getPendingUploads_In _ _ _ _ _ _ H Hr) as [_ Hp].
  unfold live, is_pending_or_failed in *. destruct (status r); congruence.
Qed.

Lemma live_records :
  forall fault limit offset t rows,
    getPendingUploads fault limit offset t = Resolved rows ->
    Forall live rows.
Proof.
  intros fault limit offset t rows H. apply Forall_forall. intros r Hr.
  destruct (getPendingUploads_In _ _ _ _ _ _ H Hr) as [_ Hp].
  unfold live, is_pending_or_failed in *. destruct (status r); congruence.
Qed.

Lemma live_pass_step :
  forall a p st,
    Forall live (heap st) -> Forall live (rest_of p) ->
    Forall live (heap (fst (pass_step a p st))) /\
    forall p', snd (pass_step a p st) = Some p' -> Forall live (rest_of p').
Proof.
  intros a p st H Hp.
  destruct p as [now offset | now offset rest item | now offset rest item
                | now offset rest item issuedAt | now offset rest item m delay];
    simpl in Hp; unfold pass_step.
  - destruct (getPendingUploads (ans_fault a) (Some BATCH_SIZE) offset (db st))
      as [[|x dbItems]|msg] eqn:E.
    + split; [exact H | discriminate].
    + apply live_next_item; [exact H|]. eapply live_page; eauto.
    + split; [exact H | discriminate].
  - pose proof (live_processItem_start (ans_connected a) item st H) as H1.
    destruct (processItem_start (ans_connected a) item st) as [st1 [o|]];
      cbn [fst] in H1.
    + now apply live_next_item.
    + cbn [fst snd]. split; [exact H1|].
      intros p' Hp'. inversion Hp'; subst. exact Hp.
  - pose proof (live_processItem_settled (ans_metadata a) (ans_video a) item st) as H1.
    destruct (processItem_settled (ans_metadata a) (ans_video a) item st)
      as [st1 [m|]]; cbn [fst] in H1.
    + assert (Hst1 : Forall live (heap st1)) by now rewrite H1.
      pose proof (live_processItem_catch m (ans_clock a) item st1 Hst1) as H2.
      destruct (processItem_catch m (ans_clock a) item st1) as [st2 delay].
      cbn [fst snd] in *. split; [exact H2|].
      intros p' Hp'. inversion Hp'; subst. exact Hp.
    + cbn [fst snd]. split; [now rewrite H1|].
      intros p' Hp'. inversion Hp'; subst. exact Hp.
  - pose proof (live_processItem_completed (ans_fault a) issuedAt item st) as H1.
    destruct (processItem_completed (ans_fault a) issuedAt item st)
      as [st1 [m|]]; cbn [fst] in H1.
    + assert (Hst1 : Forall live (heap st1)) by now rewrite H1.
      pose proof (live_processItem_catch m (ans_clock a) item st1 Hst1) as H2.
      destruct (processItem_catch m (ans_clock a) item st1) as [st2 delay].
      cbn [fst snd] in *. split; [exact H2|].
      intros p' Hp'. inversion Hp'; subst. exact Hp.
    + apply live_next_item; [now rewrite H1 | exact Hp].
  - apply live_next_item; [|exact Hp].
    now rewrite (proj1 (processItem_persist_memory (ans_fault a) m delay item st)).
Qed.

Lemma live_load_loop :
  forall records st,
    Forall live (heap st) -> Forall live records ->
    Forall live (heap (fst (load_loop records st))) /\
    Forall (fun t => Forall live (task_records t)) (snd (load_loop records st)).
Proof.
  induction records as [|record rest IH]; intros st H Hrec; simpl.
  - split; [exact H | repeat constructor].
  - inversion Hrec; subst.
    destruct (status record);
      try (apply IH; [apply live_attach; assumption | assumption]).
    simpl. split; [exact H|]. constructor; [exact Hrec | constructor].
Qed.

Lemma live_spawn_pass :
  forall now st,
    heap (fst (spawn_pass now st)) = heap st /\
    Forall (fun t => Forall live (task_records t)) (snd (spawn_pass now st)).
Proof.
  intros now st. unfold spawn_pass, processQueue_enter.
  destruct (isProcessing st); simpl; split; auto.
Qed.

Lemma live_task_step :
  forall a t st,
    Forall live (heap st) -> Forall live (task_records t) ->
    none_completed (fst (task_step a t st)) (snd (task_step a t st)).
Proof.
  intros a t st H Ht. unfold none_completed. fold live.
  destruct t as [p | q | | record rest | | | k]; cbn [task_step]; simpl in Ht.
  - destruct (live_pass_step a p st H Ht) as [A B].
    destruct (pass_step a p st) as [st1 [p'|]]; cbn [fst snd] in *.
    + split; [exact A|]. constructor; [now apply B | constructor].
    + split; [exact A | constructor].
  - unfold addToQueue_end.
    destruct (addToUploadQueue (ans_fault a) q (db st)) as [t'|m].
    + destruct (live_spawn_pass (ans_clock a) (with_db t' st)) as [A B].
      split; [now rewrite A | exact B].
    + split; [exact H | constructor].
  - destruct (getPendingUploads (ans_fault a) None 0 (db st)) as [records|m] eqn:E.
    + apply live_load_loop; [exact H|]. eapply live_records; eauto.
    + simpl. split; [exact H | repeat constructor].
  - inversion Ht; subst.
    destruct (updateUploadQueueStatus (ans_fault a) (id record) pending None None 0 (db st))
      as [t'|m].
    + apply live_load_loop; [|assumption].
      apply live_attach; assumption.
    + simpl. split; [exact H | repeat constructor].
  - destruct (ans_connected a).
    + destruct (live_spawn_pass (ans_clock a) st) as [A B].
      split; [now rewrite A | exact B].
    + split; [exact H | constructor].
  - unfold clearQueue_end, deleteAll.
    destruct (ans_fault a); simpl; split; auto.
  - unfold removeFromQueue_end.
    destruct (removeFromUploadQueue (ans_fault a) k (db st)); simpl; split; auto.
Qed.

Lemma live_act :
  forall x m,
    none_completed (engine m) (tasks m) ->
    none_completed (engine (act x m)) (tasks (act x m)).
Proof.
  intros x [st ts] [Hst Hts]. simpl in Hst, Hts. fold live in Hst, Hts.
  assert (Hadd : forall t, Forall live (task_records t) ->
            Forall (fun t => Forall live (task_records t)) (ts ++ [t])).
  { intros t Ht. apply Forall_app. split; [exact Hts|].
    constructor; [exact Ht | constructor]. }
  destruct x as [| | item now | k | | connected now | now | i a];
    unfold act, none_completed; fold live; cbn [engine tasks].
  - split; [exact Hst | apply Hadd; constructor].
  - split; [|exact Hts].
    unfold cleanup. destruct (networkListener st); exact Hst.
  - assert (Hq : live (queueItem_of item now)) by discriminate.
    split; [now apply live_attach|].
    apply Hadd. simpl. constructor; [exact Hq | constructor].
  - split; [exact Hst | apply Hadd; constructor].
  - split; [exact Hst | apply Hadd; constructor].
  - destruct ((0 <? listeners st)%nat && connected && negb (isProcessing st));
      [|split; assumption].
    destruct (live_spawn_pass now st) as [A B].
    destruct (spawn_pass now st) as [st1 ts1]. cbn [fst snd engine tasks] in *.
    split; [now rewrite A|]. apply Forall_app. now split.
  - destruct (retryTimer st) as [d|]; [|split; assumption].
    destruct (live_spawn_pass now (with_retryTimer None st)) as [A B].
    destruct (spawn_pass now (with_retryTimer None st)) as [st1 ts1].
    cbn [fst snd engine tasks] in *.
    split; [now rewrite A|]. apply Forall_app. now split.
  - destruct (nth_error ts i) as [t|] eqn:Hnth; [|split; assumption].
    assert (Ht : Forall live (task_records t)).
    { eapply Forall_forall in Hts; [exact Hts|]. eapply nth_error_In; eauto. }
    destruct (live_task_step a t st Hst Ht) as [A B]. fold live in A, B.
    destruct (task_step a t st) as [st1 ts1]. cbn [fst snd engine tasks] in *.
    split; [exact A|]. apply Forall_app. split; [|exact B].
    now apply Forall_drop_nth.
Qed.

End Statuses.

Lemma none_completed_run :
  forall trace m,
    none_completed (engine m) (tasks m) ->
    none_completed (engine (run trace m)) (tasks (run trace m)).
Proof.
  induction trace as [|x trace IH]; intros m H; simpl; [exact H|].
  apply IH. now apply live_act.
Qed.

Lemma pending_and_uploading :
  forall l : list UploadQueueRecord,
    (forall r, In r l -> status r <> completed) ->
    length l = (length (filter is_pending_or_failed l)
                + length (filter is_uploading l))%nat.
Proof.
  induction l as [|r l IH]; intros H; simpl; [reflexivity|].
  assert (Hr : status r <> completed) by (apply H; now left).
  rewrite IH by (intros x Hx; apply H; now right).
  unfold is_pending_or_failed at 2, is_uploading at 2.
  destruct (status r); simpl; try lia. congruence.
Qed.

(** X14.  In every interleaved execution of the engine, every item that
    [getQueueItems()] returns is 'pending', 'failed' or 'uploading', never
    'completed'; and [getPendingCount()] is the number of those items, or
    one less while an item is being uploaded. *)
Theorem queue_items_are_unfinished :
  forall (t : Table) (trace : list Action),
    let st := engine (run trace (start t)) in
    (forall r, In r (getQueueItems st) ->
       status r = pending \/ status r = failed \/ status r = uploading) /\
    (getPendingCount st <= length (getQueueItems st))%nat /\
    (length (getQueueItems st) <= getPendingCount st + 1)%nat.
Proof.
  intros t trace st.
  assert (Hlive : forall r, In r (getQueueItems st) -> status r <> completed).
  { destruct (none_completed_run trace (start t)) as [H _].
    - split; constructor.
    - intros r Hr. apply getQueueItems_heap in Hr.
      eapply Forall_forall in H; eauto. }
  pose proof (Inv_run (uploading_rows t) trace (start t) (Inv_start t)) as HInv.
  destruct HInv as [[Hnd Hobj] [[s [Hs [Hp [Hup Hok]]]] _]].
  assert (Hone : (length (filter is_uploading (getQueueItems st)) <= 1)%nat).
  { unfold getQueueItems.
    apply (one_uploading (heap st) (in_flight st s) (in_flight_unique st s)
             (queue st) Hnd).
    exact Hup. }
  pose proof (pending_and_uploading (getQueueItems st) Hlive) as Hsum.
  unfold getPendingCount.
  split; [|lia].
  intros r Hr. specialize (Hlive r Hr). destruct (status r); auto. congruence.
Qed.

(* ================================================================== *)
(** * What initialize loads *)
(* ================================================================== *)

Lemma map_set_new :
  forall k v m, map_get k m = None -> map_set k v m = m ++ [(k, v)].
Proof.
  intros k v m. induction m as [|[k' v'] m IH]; simpl; intros H; [reflexivity|].
  destruct (String.eqb k' k); [discriminate|]. now rewrite IH.
Qed.

(** Every entry of the Map refers to an allocated object. *)
Lemma getQueueItems_attach_new :
  forall r st,
    map_get (id r) (queue st) = None ->
    (forall k l, In (k, l) (queue st) -> (l < length (heap st))%nat) ->
    getQueueItems (snd (attach r st)) = getQueueItems st ++ [r].
Proof.
  intros r st Hnew Hloc. unfold getQueueItems, attach. cbn [snd heap queue with_queue with_heap].
  rewrite map_set_new by assumption.
  rewrite flat_map_app. simpl. rewrite nth_error_alloc, app_nil_r. f_equal.
  clear Hnew. induction (queue st) as [|[k l] q IH]; simpl; [reflexivity|].
  rewrite nth_error_app1 by (apply (Hloc k l); now left).
  f_equal. apply IH. intros k' l' Hin. apply (Hloc k' l'). now right.
Qed.

Lemma attach_locations :
  forall r st,
    (forall k l, In (k, l) (queue st) -> (l < length (heap st))%nat) ->
    forall k l, In (k, l) (queue (snd (attach r st))) ->
                (l < length (heap (snd (attach r st))))%nat.
Proof.
  intros r st Hloc k l Hin. unfold attach in *. cbn [snd heap queue with_queue with_heap] in *.
  rewrite length_app. simpl. apply In_map_set in Hin.
  destruct Hin as [[_ ->]|Hin]; [lia|].
  specialize (Hloc k l Hin). lia.
Qed.

Section LoadedRecords.

Variable resetFault : string -> Fault.

Lemma loadRecords_items :
  forall records st,
    NoDup (map id records) ->
    (forall r, In r records -> status r <> uploading) ->
    (forall r, In r records -> map_get (id r) (queue st) = None) ->
    (forall k l, In (k, l) (queue st) -> (l < length (heap st))%nat) ->
    getQueueItems (fst (loadRecords resetFault records st))
    = getQueueItems st ++ records.
Proof.
  induction records as [|record rest IH]; intros st Hnd Hst Hnew Hloc; simpl.
  - now rewrite app_nil_r.
  - inversion Hnd as [|? ? Hnotin Hnd']; subst.
    assert (Hrec : status record <> uploading) by (apply Hst; now left).
    assert (Hgo : getQueueItems (fst (loadRecords resetFault rest (snd (attach record st))))
                  = getQueueItems st ++ record :: rest).
    { rewrite IH.
      - rewrite getQueueItems_attach_new;
          [now rewrite <- app_assoc | apply Hnew; now left | exact Hloc].
      - exact Hnd'.
      - intros r Hr. apply Hst. now right.
      - intros r Hr. unfold attach. cbn [snd queue with_queue with_heap].
        rewrite map_get_set_other; [apply Hnew; now right|].
        intros Heq. apply Hnotin. rewrite <- Heq. now apply in_map.
      - now apply attach_locations. }
    destruct (status record); try exact Hgo. congruence.
Qed.

Lemma loadRecords_listeners :
  forall records st,
    listeners (fst (loadRecords resetFault records st)) = listeners st /\
    networkListener (fst (loadRecords resetFault records st)) = networkListener st /\
    retryTimer (fst (loadRecords resetFault records st)) = retryTimer st /\
    isProcessing (fst (loadRecords resetFault records st)) = isProcessing st.
Proof.
  induction records as [|record rest IH]; intros st; simpl; [auto|].
  destruct (status record); try apply (IH (snd (attach record st))).
  destruct (updateUploadQueueStatus (resetFault (id record)) (id record) pending
              None None 0 (db st)) as [t'|m]; [|auto].
  apply (IH (snd (attach record (with_db t' st)))).
Qed.

End LoadedRecords.

(** On a table with unique ids and with the query accepted, the load
    leaves in the Map the rows of the pending query, in their order. *)
Lemma initialize_load_items :
  forall resetFault st,
    unique_ids (db st) ->
    getQueueItems (initialize_load None resetFault st)
    = order_by_created_at (filter is_pending_or_failed (db st)) /\
    db (initialize_load None resetFault st) = db st.
Proof.
  intros resetFault st Hu.
  set (rows := order_by_created_at (filter is_pending_or_failed (db st))).
  assert (Hrows : getPendingUploads None None 0 (db st) = Resolved rows)
    by reflexivity.
  assert (Hno : forall r, In r rows -> status r <> uploading).
  { intros r Hr.
    destruct (getPendingUploads_In _ _ _ _ _ _ Hrows Hr) as [_ Hp].
    unfold is_pending_or_failed in Hp. destruct (status r); congruence. }
  unfold initialize_load, loadQueueFromDatabase. rewrite Hrows.
  change (getQueueItems (setupNetworkMonitoring ?s)) with (getQueueItems s).
  change (db (setupNetworkMonitoring ?s)) with (db s).
  split.
  - rewrite (loadRecords_items resetFault rows (with_queue [] st)); auto.
    + eapply getPendingUploads_unique; eauto.
    + intros k l [].
  - now destruct (loadRecords_pending resetFault rows (with_queue [] st) Hno) as [H _].
Qed.

(** X15.  On a table with unique ids, when the store answers the query,
    [initialize()] replaces whatever the Map held by the rows that
    [getPendingUploads()] returns, in the same order (oldest first), and
    writes nothing; [getPendingCount()] is then the number of 'pending'
    and 'failed' rows of the table. *)
Theorem initialize_loads_the_pending_rows :
  forall (resetFault : string -> Fault) (st : State),
    unique_ids (db st) ->
    let st' := initialize_load None resetFault st in
    getPendingUploads None None 0 (db st) = Resolved (getQueueItems st') /\
    db st' = db st /\
    getPendingCount st'
    = (count_status pending (db st) + count_status failed (db st))%nat.
Proof.
  intros resetFault st Hu st'.
  destruct (initialize_load_items resetFault st Hu) as [Hitems Hdb].
  fold st' in Hitems, Hdb.
  split; [unfold getPendingUploads; now rewrite Hitems|].
  split; [exact Hdb|].
  unfold getPendingCount. rewrite Hitems.
  rewrite <- pending_or_failed_count.
  rewrite <- (Permutation_length
                (order_by_created_at_perm (filter is_pending_or_failed (db st)))).
  f_equal. apply forallb_filter_id. apply forallb_forall.
  intros r Hr. apply (proj1 (In_order_by_created_at _ _)) in Hr.
  now apply filter_In in Hr.
Qed.

Lemma initialize_loads_the_pending_rows_witness :
  unique_ids (db (boot mixed_table)) /\
  getPendingUploads None None 0 mixed_table
    = Resolved (getQueueItems
                  (initialize_load None (fun _ => None) (boot mixed_table))) /\
  map id (getQueueItems (initialize_load None (fun _ => None) (boot mixed_table)))
    = ["p"; "f"] /\
  getPendingCount (initialize_load None (fun _ => None) (boot mixed_table)) = 2%nat.
Proof.
  assert (Hu : unique_ids (db (boot mixed_table))).
  { unfold unique_ids, mixed_table; simpl.
    repeat constructor; simpl; intuition discriminate. }
  destruct (initialize_loads_the_pending_rows (fun _ => None) (boot mixed_table) Hu)
    as [H1 [_ H3]].
  split; [exact Hu|]. split; [exact H1|]. split; [reflexivity | exact H3].
Defined.

(* ================================================================== *)
(** * Listeners *)
(* ================================================================== *)

Lemma initialize_load_listeners :
  forall fault resetFault st,
    listeners (initialize_load fault resetFault st) = S (listeners st) /\
    networkListener (initialize_load fault resetFault st) = true /\
    retryTimer (initialize_load fault resetFault st) = retryTimer st /\
    isProcessing (initialize_load fault resetFault st) = isProcessing st.
Proof.
  intros fault resetFault st. unfold initialize_load, loadQueueFromDatabase.
  destruct (getPendingUploads fault None 0 (db st)) as [records|m]; simpl; [|auto].
  destruct (loadRecords_listeners resetFault records (with_queue [] st))
    as [H1 [H2 [H3 H4]]].
  rewrite H1, H3, H4. auto.
Qed.

Lemma initialize_loads_listeners :
  forall calls st,
    listeners (initialize_loads calls st) = (listeners st + length calls)%nat /\
    (calls <> [] -> networkListener (initialize_loads calls st) = true) /\
    isProcessing (initialize_loads calls st) = isProcessing st.
Proof.
  unfold initialize_loads.
  induction calls as [|[fault resetFault] calls IH]; intros st; simpl.
  - split; [lia|]. split; [congruence | reflexivity].
  - destruct (initialize_load_listeners fault resetFault st) as [H1 [H2 [_ H4]]].
    destruct (IH (initialize_load fault resetFault st)) as [A [B C]].
    rewrite A, C, H1, H4. split; [lia|]. split; [|reflexivity].
    intros _. destruct calls as [|c calls]; [exact H2|].
    apply B. discriminate.
Qed.

(** X16.  Each call of [initialize()] subscribes one more network
    listener and keeps only the latest unsubscribe handle, so [cleanup()]
    after [n] calls leaves [n - 1] listeners subscribed; it drops the
    handle and the retry timer, and calling it again changes nothing.
    After two or more calls a connectivity event therefore still starts a
    pass on the idle engine once [cleanup()] has run. *)
Theorem cleanup_removes_one_listener :
  forall (calls : list (Fault * (string -> Fault))) (st : State),
    calls <> [] ->
    let st' := cleanup (initialize_loads calls st) in
    listeners st' = (listeners st + length calls - 1)%nat /\
    networkListener st' = false /\
    retryTimer st' = None /\
    cleanup st' = st' /\
    forall now ts,
      (2 <= length calls)%nat -> isProcessing st = false ->
      act (NetworkChanged true now) (mkMachine st' ts)
      = mkMachine (with_isProcessing true st') (ts ++ [TPass (AwaitPage now 0)]).
Proof.
  intros calls st Hne st'.
  destruct (initialize_loads_listeners calls st) as [H1 [H2 H3]].
  specialize (H2 Hne).
  assert (Hl : listeners st' = (listeners st + length calls - 1)%nat).
  { unfold st', cleanup. rewrite H2. simpl. rewrite H1. lia. }
  assert (Hp : isProcessing st' = isProcessing st).
  { unfold st', cleanup. rewrite H2. simpl. exact H3. }
  split; [exact Hl|].
  split; [unfold st', cleanup; now rewrite H2|].
  split; [unfold st', cleanup; now rewrite H2|].
  split; [unfold st', cleanup; now rewrite H2|].
  intros now ts Hlen Hidle. unfold act. cbn [engine tasks].
  assert (Hpos : (0 <? listeners st')%nat = true) by (apply Nat.ltb_lt; lia).
  rewrite Hpos, Hp, Hidle. cbn [andb negb].
  unfold spawn_pass, processQueue_enter. rewrite Hp, Hidle. reflexivity.
Qed.

Lemma cleanup_removes_one_listener_witness :
  [(@None string, fun _ : string => @None string);
   (@None string, fun _ : string => @None string)] <> [] /\
  listeners (cleanup (initialize_loads
                        [(None, fun _ => None); (None, fun _ => None)]
                        (boot mixed_table))) = 1%nat.
Proof.
  assert (H : [(@None string, fun _ : string => @None string);
               (@None string, fun _ : string => @None string)] <> [])
    by discriminate.
  split; [exact H|].
  exact (proj1 (cleanup_removes_one_listener _ (boot mixed_table) H)).
Defined.

(* ================================================================== *)
(** * removeFromQueue *)
(* ================================================================== *)

Lemma getQueueItem_delete_other :
  forall k k' st, k' <> k ->
    getQueueItem k' (with_queue (map_delete k (queue st)) st) = getQueueItem k' st.
Proof.
  intros k k' st Hne. unfold getQueueItem; simpl.
  now rewrite map_get_delete_other.
Qed.

(** X17.  [removeFromQueue(id)] takes the id out of the Map at once,
    with the table still untouched, and leaves every other entry of the
    Map alone; when the DELETE is performed no row has the id any more
    and the other rows stay, when it is rejected the table keeps the row
    although the Map has forgotten the id. *)
Theorem removeFromQueue_forgets :
  forall (k : string) (fault : Fault) (st : State),
    let st1 := removeFromQueue_begin k st in
    let st2 := removeFromQueue_end fault k st1 in
    (getQueueItem k st1 = None /\ db st1 = db st) /\
    getQueueItem k st2 = None /\
    (forall k', k' <> k -> getQueueItem k' st2 = getQueueItem k' st) /\
    (fault = None ->
       getUploadQueueItem None k (db st2) = Resolved None /\
       forall r, In r (db st2) <-> In r (db st) /\ id r <> k) /\
    (fault <> None -> db st2 = db st).
Proof.
  intros k fault st st1 st2.
  assert (Hq : queue st2 = map_delete k (queue st) /\ heap st2 = heap st).
  { unfold st2, removeFromQueue_end.
    destruct (removeFromUploadQueue fault k (db st1)); auto. }
  destruct Hq as [Hq Hh].
  split; [split; [apply getQueueItem_delete | reflexivity]|].
  split.
  { unfold getQueueItem. rewrite Hq. now rewrite map_get_delete_same. }
  split.
  { intros k' Hne. unfold getQueueItem. rewrite Hq, Hh.
    now rewrite map_get_delete_other. }
  split.
  - intros ->. unfold st2, removeFromQueue_end, removeFromUploadQueue.
    cbn [db with_db]. unfold getUploadQueueItem. split.
    + f_equal. unfold find_id.
      induction (db st1) as [|x t IH]; simpl; [reflexivity|].
      destruct (String.eqb (id x) k) eqn:E; simpl; [exact IH|].
      now rewrite E.
    + intros r. change (db st1) with (db st).
      rewrite filter_In, negb_true_iff, String.eqb_neq. tauto.
  - intros Hf. unfold st2, removeFromQueue_end, removeFromUploadQueue.
    destruct fault; [reflexivity | congruence].
Qed.

(* ================================================================== *)
(** * Retrying the failed uploads *)
(* ================================================================== *)

Lemma reset_row_update :
  forall now r, apply_update pending (Some 0%nat) (Some None) now r = reset_row r.
Proof. reflexivity. Qed.

(** The rows after the writes for [items] have been performed: those
    whose id is among the items are reset, the others are as they were. *)
Lemma resetItems_rows :
  forall items t,
    resetItems (fun _ => None) items t
    = (map (fun r => if existsb (fun x => String.eqb (id x) (id r)) items
                     then reset_row r else r) t, Resolved tt).
Proof.
  induction items as [|item rest IH]; intros t; cbn [resetItems existsb].
  - now rewrite map_id.
  - unfold updateUploadQueueStatus. rewrite IH, map_map. f_equal.
    apply map_ext. intros r.
    rewrite (String.eqb_sym (id item) (id r)).
    destruct (String.eqb (id r) (id item)) eqn:E; [|reflexivity].
    rewrite reset_row_update. change (id (reset_row r)) with (id r).
    cbn [orb].
    destruct (existsb (fun x => String.eqb (id x) (id r)) rest); reflexivity.
Qed.

(** The loop of [handleRetryAll] left by the exception of a rejected
    write: the writes for the items before it have been performed. *)
Lemma resetItems_rejected :
  forall fault done item rest m t,
    (forall x, In x done -> fault (id x) = None) ->
    fault (id item) = Some m ->
    resetItems fault (done ++ item :: rest) t
    = (map (fun r => if existsb (fun x => String.eqb (id x) (id r)) done
                     then reset_row r else r) t, Rejected m).
Proof.
  intros fault done item rest m.
  induction done as [|x done IH]; intros t Hdone Hitem.
  - cbn [app resetItems existsb]. unfold updateUploadQueueStatus.
    rewrite Hitem. now rewrite map_id.
  - cbn [app resetItems existsb]. unfold updateUploadQueueStatus.
    rewrite (Hdone x (or_introl eq_refl)).
    rewrite IH; [|intros y Hy; apply Hdone; now right | exact Hitem].
    rewrite map_map. f_equal. apply map_ext. intros r.
    rewrite (String.eqb_sym (id x) (id r)).
    destruct (String.eqb (id r) (id x)) eqn:E; [|reflexivity].
    rewrite reset_row_update. change (id (reset_row r)) with (id r).
    cbn [orb].
    destruct (existsb (fun y => String.eqb (id y) (id r)) done); reflexivity.
Qed.

Lemma offered_for_retry :
  forall pendingUploads r,
    existsb (fun x => String.eqb (id x) (id r))
      (filter (fun x => Status_eqb (status x) failed) pendingUploads) = true <->
    exists x, In x pendingUploads /\ status x = failed /\ id x = id r.
Proof.
  intros pendingUploads r. rewrite existsb_exists. split.
  - intros [x [Hx Hid]]. apply filter_In in Hx. destruct Hx as [Hx Hs].
    exists x. split; [exact Hx|]. split; [|now apply String.eqb_eq].
    destruct (status x); simpl in Hs; congruence.
  - intros [x [Hx [Hs Hid]]]. exists x. split; [|now apply String.eqb_eq].
    apply filter_In. split; [exact Hx|]. now rewrite Hs.
Qed.

(** X18.  'Retry all' of the history screen, on a table with unique ids.
    With the store accepting every write and no connection at the end (so
    that no pass follows): every row whose id the screen lists as 'failed'
    is reset to 'pending' with retry count 0 and no error message, and is
    back in the Map; the rows the screen does not list as 'failed' are as
    they were; no row is added or removed; and the call of [initialize()]
    has subscribed one more network listener.  When a write of the loop is
    rejected, the handler stops there: the rows of the items before it
    stay reset, the other rows are as they were, and [initialize()] is not
    called, so that the Map and the listeners are as before. *)
Theorem retry_all_resets_the_failed_rows :
  forall (fuel : nat) (resetFault : string -> Fault) (env : PassEnv)
         (pendingUploads : list UploadQueueRecord) (st : State),
    unique_ids (db st) ->
    (exists st',
       handleRetryAll fuel (fun _ => None) None resetFault false env
         pendingUploads st = Some st' /\
       (forall r, In r (db st) ->
          (exists x, In x pendingUploads /\ status x = failed /\ id x = id r) ->
          In (reset_row r) (db st') /\ In (reset_row r) (getQueueItems st')) /\
       (forall r, In r (db st) ->
          ~ (exists x, In x pendingUploads /\ status x = failed /\ id x = id r) ->
          In r (db st')) /\
       length (db st') = length (db st) /\
       listeners st' = S (listeners st)) /\
    (forall (fault : string -> Fault) (loadFault : Fault) (connected : bool)
            (done rest : list UploadQueueRecord) (item : UploadQueueRecord)
            (m : string),
       filter (fun r => Status_eqb (status r) failed) pendingUploads
         = done ++ item :: rest ->
       (forall x, In x done -> fault (id x) = None) ->
       fault (id item) = Some m ->
       handleRetryAll fuel fault loadFault resetFault connected env
         pendingUploads st
       = Some (with_db
                 (map (fun r => if existsb (fun x => String.eqb (id x) (id r)) done
                                then reset_row r else r) (db st)) st)).
Proof.
  intros fuel resetFault env pendingUploads st Hu. split.
  2:{ intros fault loadFault connected done rest item m Hitems Hdone Hitem.
      unfold handleRetryAll. rewrite Hitems.
      now rewrite (resetItems_rejected fault done item rest m (db st) Hdone Hitem). }
  unfold handleRetryAll. rewrite resetItems_rows.
  set (items := filter (fun r => Status_eqb (status r) failed) pendingUploads).
  set (f := fun r => if existsb (fun x => String.eqb (id x) (id r)) items
                     then reset_row r else r).
  set (st1 := with_db (map f (db st)) st).
  assert (Hu1 : unique_ids (db st1)).
  { unfold unique_ids, st1. cbn [db with_db]. rewrite map_map.
    erewrite map_ext; [exact Hu|].
    intros r. unfold f. destruct (existsb _ items); reflexivity. }
  unfold initialize.
  destruct (initialize_load_items resetFault st1 Hu1) as [Hrows Hdb].
  destruct (initialize_load_listeners None resetFault st1) as [Hl _].
  eexists. split; [reflexivity|].
  rewrite Hdb, Hrows, Hl. unfold st1. cbn [db with_db listeners].
  split; [|split; [|split]].
  - intros r Hr Hx. apply offered_for_retry in Hx. fold items in Hx.
    assert (Hin : In (reset_row r) (map f (db st))).
    { apply in_map_iff. exists r. split; [|exact Hr]. unfold f. now rewrite Hx. }
    split; [exact Hin|].
    apply In_order_by_created_at.
    apply filter_In. split; [exact Hin | reflexivity].
  - intros r Hr Hx. apply in_map_iff. exists r. split; [|exact Hr].
    unfold f. destruct (existsb _ items) eqn:E; [|reflexivity].
    exfalso. apply Hx. now apply offered_for_retry.
  - apply length_map.
  - reflexivity.
Qed.

Lemma retry_all_resets_the_failed_rows_witness :
  unique_ids (db (boot mixed_table)) /\
  (exists st',
     handleRetryAll 1 (fun _ => None) None (fun _ => None) false (offline 3000)
       mixed_table (boot mixed_table) = Some st' /\
     In (row "f" pending 0 1003) (db st') /\
     In (row "f" pending 0 1003) (getQueueItems st') /\
     listeners st' = 1%nat) /\
  handleRetryAll 1 (fun k => if String.eqb k "g" then Some "disk I/O error" else None)
    None (fun _ => None) true idle_env
    [row "f" failed 3 1003; row "g" failed 3 1004]
    (boot [row "f" failed 3 1003; row "g" failed 3 1004])
  = Some (boot [row "f" pending 0 1003; row "g" failed 3 1004]).
Proof.
  assert (Hu : unique_ids (db (boot mixed_table))).
  { unfold unique_ids, mixed_table; simpl.
    repeat constructor; simpl; intuition discriminate. }
  split; [exact Hu|].
  destruct (retry_all_resets_the_failed_rows 1 (fun _ => None) (offline 3000)
              mixed_table (boot mixed_table) Hu)
    as [[st' [H1 [H2 [_ [_ H5]]]]] _].
  split; [|reflexivity].
  exists st'. split; [exact H1|].
  destruct (H2 (with_error_message (Some "HTTP 500: Unknown error")
                  (row "f" failed 2 1003))) as [A B].
  - simpl. auto.
  - exists (with_error_message (Some "HTTP 500: Unknown error")
              (row "f" failed 2 1003)).
    split; [simpl; auto | split; reflexivity].
  - split; [exact A|]. split; [exact B | exact H5].
Defined.

(* ================================================================== *)
(** * The device id *)
(* ================================================================== *)

Lemma getItem_removeItem_same : forall k s, getItem k (removeItem k s) = None.
Proof.
  intros k s. induction s as [|[k' v] s IH]; simpl; [reflexivity|].
  destruct (String.eqb k' k) eqn:E; simpl; [exact IH|]. now rewrite E.
Qed.

Lemma getItem_removeItem_other :
  forall k k' s, k' <> k -> getItem k' (removeItem k s) = getItem k' s.
Proof.
  intros k k' s Hne. induction s as [|[k0 v] s IH]; simpl; [reflexivity|].
  destruct (String.eqb k0 k) eqn:E; simpl.
  - apply String.eqb_eq in E. subst k0.
    destruct (String.eqb k k') eqn:E'; [|exact IH].
    apply String.eqb_eq in E'. congruence.
  - destruct (String.eqb k0 k'); [reflexivity | exact IH].
Qed.

Lemma getItem_setItem_same : forall k v s, getItem k (setItem k v s) = Some v.
Proof. intros k v s. unfold setItem; simpl. now rewrite String.eqb_refl. Qed.

Lemma getItem_setItem_other :
  forall k v k' s, k' <> k -> getItem k' (setItem k v s) = getItem k' s.
Proof.
  intros k v k' s Hne. unfold setItem; simpl.
  destruct (String.eqb k k') eqn:E.
  - apply String.eqb_eq in E. congruence.
  - now apply getItem_removeItem_other.
Qed.

(** A stored, non-empty id is returned as it is and the storage is left
    alone. *)
Lemma getOrCreateDeviceId_existing :
  forall setFault uuidv4 s d,
    getItem DEVICE_ID_KEY s = Some d -> d <> "" ->
    getOrCreateDeviceId None setFault uuidv4 s = (s, d).
Proof.
  intros setFault uuidv4 s d Hd Hne. unfold getOrCreateDeviceId. rewrite Hd.
  apply String.eqb_neq in Hne. now rewrite Hne.
Qed.

(** X19.  With a working storage [getOrCreateDeviceId()] returns a
    non-empty id that [getDeviceId()] then returns too, and every later
    call returns the same id and leaves the storage as it is, whether or
    not writes still succeed; an id that was already stored is the one
    returned; the other keys of the storage are not touched.  ([uuidv4()]
    returns a non-empty string.) *)
Theorem device_id_is_stable :
  forall (uuidv4 uuidv4' : nat -> string) (setFault : Fault) (s : Storage),
    uuidv4 0%nat <> "" ->
    let s1 := fst (getOrCreateDeviceId None None uuidv4 s) in
    let d1 := snd (getOrCreateDeviceId None None uuidv4 s) in
    d1 <> "" /\
    getDeviceId None s1 = Some d1 /\
    getOrCreateDeviceId None setFault uuidv4' s1 = (s1, d1) /\
    (forall k, k <> DEVICE_ID_KEY -> getItem k s1 = getItem k s) /\
    (forall d, getItem DEVICE_ID_KEY s = Some d -> d <> "" -> d1 = d /\ s1 = s).
Proof.
  intros uuidv4 uuidv4' setFault s Hu s1 d1.
  assert (Hcase : (exists d, getItem DEVICE_ID_KEY s = Some d /\ d <> "" /\
                             s1 = s /\ d1 = d) \/
                  ((forall d, getItem DEVICE_ID_KEY s = Some d -> d = "") /\
                   s1 = setItem DEVICE_ID_KEY (uuidv4 0%nat) s /\
                   d1 = uuidv4 0%nat)).
  { unfold s1, d1, getOrCreateDeviceId.
    destruct (getItem DEVICE_ID_KEY s) as [d|] eqn:E.
    - destruct (String.eqb d "") eqn:Ed.
      + right. apply String.eqb_eq in Ed. subst d. simpl.
        split; [intros d Hd; congruence | auto].
      + left. exists d. apply String.eqb_neq in Ed. auto.
    - right. simpl. split; [intros d Hd; discriminate | auto]. }
  destruct Hcase as [[d [Hd [Hne [Hs1 Hd1]]]] | [Hnone [Hs1 Hd1]]].
  - rewrite Hs1, Hd1.
    split; [exact Hne|]. split; [exact Hd|].
    split; [now apply getOrCreateDeviceId_existing|].
    split; [reflexivity|].
    intros d' Hd' _. split; congruence.
  - rewrite Hs1, Hd1.
    assert (Hget : getItem DEVICE_ID_KEY (setItem DEVICE_ID_KEY (uuidv4 0%nat) s)
                   = Some (uuidv4 0%nat)) by apply getItem_setItem_same.
    split; [exact Hu|]. split; [exact Hget|].
    split; [now apply getOrCreateDeviceId_existing|].
    split; [intros k Hk; now apply getItem_setItem_other|].
    intros d Hd Hne. apply Hnone in Hd. contradiction.
Qed.

Lemma device_id_is_stable_witness :
  (fun _ : nat => "1b9d6bcd-bbfd-4b2d-9b5d-ab8dfbbd4bed") 0%nat <> "" /\
  getOrCreateDeviceId None None (fun _ => "1b9d6bcd-bbfd-4b2d-9b5d-ab8dfbbd4bed") []
    = ([(DEVICE_ID_KEY, "1b9d6bcd-bbfd-4b2d-9b5d-ab8dfbbd4bed")],
       "1b9d6bcd-bbfd-4b2d-9b5d-ab8dfbbd4bed") /\
  getOrCreateDeviceId None None (fun _ => "another")
    [(DEVICE_ID_KEY, "1b9d6bcd-bbfd-4b2d-9b5d-ab8dfbbd4bed")]
    = ([(DEVICE_ID_KEY, "1b9d6bcd-bbfd-4b2d-9b5d-ab8dfbbd4bed")],
       "1b9d6bcd-bbfd-4b2d-9b5d-ab8dfbbd4bed").
Proof.
  assert (H : (fun _ : nat => "1b9d6bcd-bbfd-4b2d-9b5d-ab8dfbbd4bed") 0%nat <> "")
    by discriminate.
  split; [exact H|]. split; [reflexivity|].
  exact (proj1 (proj2 (proj2
           (device_id_is_stable (fun _ => "1b9d6bcd-bbfd-4b2d-9b5d-ab8dfbbd4bed")
              (fun _ => "another") None [] H)))).
Defined.

(* ================================================================== *)
(** * Transfers that fail, and what the queue records *)
(* ================================================================== *)

Lemma http_error_not_empty :
  forall response, truthy (Some (http_error response)) = true.
Proof. intros response. reflexivity. Qed.

Lemma thrown_metadata :
  forall r a m,
    success (metadataResponse a) = false ->
    error (metadataResponse a) = Some m -> m <> "" ->
    thrown r a = m.
Proof.
  intros r a m Hs He Hm. unfold thrown, responseError. rewrite Hs, He. simpl.
  apply String.eqb_neq in Hm. now rewrite Hm.
Qed.

(** A failed attempt, put in terms of the row: count plus one, status
    'failed', and the message. *)
Lemma failed_attempt_recorded :
  forall a r st m,
    isConnected a = true -> (retry_count r < maxRetries)%nat ->
    failedFault a = None ->
    success (metadataResponse a) = false ->
    error (metadataResponse a) = Some m -> m <> "" ->
    let res := processItem a (length (heap st)) (snd (attach r st)) in
    snd res = Failed m /\
    db (fst res)
      = map (fun x => if String.eqb (id x) (id r)
                      then with_error_message (Some m)
                             (with_retry_count (S (retry_count r))
                                (with_status failed x))
                      else x) (db st) /\
    option_map error_message (getQueueItem (id r) (fst res)) = Some (Some m).
Proof.
  intros a r st m Hc Hrc Hf Hs He Hm res.
  assert (Hfail : transfer_fails r a) by (left; exact Hs).
  assert (Ht : thrown r a = m) by (eapply thrown_metadata; eauto).
  unfold res. rewrite (processItem_fails a r st Hc Hrc Hfail Hf), Ht.
  cbn [fst snd db]. split; [reflexivity|]. split; [reflexivity|].
  unfold getQueueItem. cbn [queue heap].
  rewrite map_get_set_same, nth_error_alloc. cbn [option_map].
  unfold failed_object. destruct (S (retry_count r) <? maxRetries)%nat; reflexivity.
Qed.


(** X21.  Without a stored device id (none was created, or the storage
    cannot be read) [uploadSessionMetadata] fails before it sends
    anything, so every attempt that gets as far as the uploads fails with
    'Device ID not found', whatever the collector would have answered, and
    uses up a retry. *)
Theorem no_device_id_fails_the_attempt :
  forall (a : Attempt) (r : UploadQueueRecord) (st : State)
         (storageFault : Fault) (s : Storage) (fetched : Result Response),
    isConnected a = true -> (retry_count r < maxRetries)%nat ->
    failedFault a = None ->
    truthy (getDeviceId storageFault s) = false ->
    metadataResponse a = uploadSessionMetadata storageFault s fetched ->
    let res := processItem a (length (heap st)) (snd (attach r st)) in
    snd res = Failed "Device ID not found" /\
    db (fst res)
      = map (fun x => if String.eqb (id x) (id r)
                      then with_error_message (Some "Device ID not found")
                             (with_retry_count (S (retry_count r))
                                (with_status failed x))
                      else x) (db st) /\
    option_map error_message (getQueueItem (id r) (fst res))
      = Some (Some "Device ID not found").
Proof.
  intros a r st storageFault s fetched Hc Hrc Hf Hd Hm.
  assert (Hresp : metadataResponse a = mkResponse false (Some "Device ID not found")).
  { rewrite Hm. unfold uploadSessionMetadata. now rewrite Hd. }
  apply failed_attempt_recorded; auto.
  - now rewrite Hresp.
  - now rewrite Hresp.
  - discriminate.
Qed.


Lemma no_device_id_fails_the_attempt_witness :
  isConnected (attempt_over [] (Resolved (mkHttp true 201 (Resolved None)))) = true /\
  (retry_count video_row < maxRetries)%nat /\
  truthy (getDeviceId None []) = false /\
  snd (processItem (attempt_over [] (Resolved (mkHttp true 201 (Resolved None))))
         0 (snd (attach video_row (boot [video_row]))))
    = Failed "Device ID not found".
Proof.
  assert (Hrc : (retry_count video_row < maxRetries)%nat)
    by (unfold maxRetries; simpl; lia).
  split; [reflexivity|]. split; [exact Hrc|]. split; [reflexivity|].
  exact (proj1 (no_device_id_fails_the_attempt
                  (attempt_over [] (Resolved (mkHttp true 201 (Resolved None))))
                  video_row (boot [video_row]) None []
                  (Resolved (mkHttp true 201 (Resolved None)))
                  eq_refl Hrc eq_refl eq_refl eq_refl)).
Defined.

(* ================================================================== *)
(** * The retry limit *)
(* ================================================================== *)

Section RetryLimit.

Let bounded (r : UploadQueueRecord) : Prop := (retry_count r <= maxRetries)%nat.

(** Objects are kept: a step that only allocates. *)
Let grows (st st' : State) : Prop :=
  forall l x, nth_error (heap st) l = Some x -> nth_error (heap st') l = Some x.

Lemma within_limit_grows :
  forall st st' t, grows st st' ->
    task_within_limit st t -> task_within_limit st' t.
Proof.
  intros st st' t Hg H. destruct t as [p | q | | record rest | | | k]; auto.
  destruct p; simpl in *; auto;
    destruct H as [it [Hit Hrc]]; exists it; split; auto.
Qed.

Lemma within_limit_bystanders :
  forall st st' ts, passes ts = [] ->
    Forall (task_within_limit st) ts -> Forall (task_within_limit st') ts.
Proof.
  intros st st' ts. induction ts as [|t ts IH]; intros Hp H; [constructor|].
  inversion H; subst.
  destruct t as [p | q | | record rest | | | k];
    try (constructor; [assumption | apply IH; assumption]).
  discriminate.
Qed.

Lemma bounded_update :
  forall fault k s rc em now t t',
    Forall bounded t ->
    (forall n, rc = Some n -> (n <= maxRetries)%nat) ->
    updateUploadQueueStatus fault k s rc em now t = Resolved t' ->
    Forall bounded t'.
Proof.
  intros fault k s rc em now t t' Ht Hrc H.
  unfold updateUploadQueueStatus in H. destruct fault; [discriminate|].
  injection H as <-. apply Forall_forall. intros r Hr.
  apply in_map_iff in Hr. destruct Hr as [x [Hx Hin]].
  eapply Forall_forall in Ht; [|exact Hin].
  destruct (String.eqb (id x) k); [|now subst r].
  subst r. unfold bounded, apply_update in *.
  destruct rc as [n|]; [specialize (Hrc n eq_refl)|];
    destruct em, s; simpl; auto.
Qed.

Lemma next_item_limit :
  forall now offset rest st,
    db (fst (next_item now offset rest st)) = db st /\
    forall p, snd (next_item now offset rest st) = Some p ->
              within_limit (fst (next_item now offset rest st)) p.
Proof.
  intros now offset [|r rest] st; simpl; split; auto;
    intros p Hp; inversion Hp; subst; exact I.
Qed.

Lemma processItem_persist_limit :
  forall fault m delay item st it,
    Forall bounded (db st) ->
    nth_error (heap st) item = Some it -> bounded it ->
    Forall bounded (db (processItem_persist fault m delay item st)).
Proof.
  intros fault m delay item st it Hdb Hit Hb. unfold processItem_persist.
  rewrite Hit.
  destruct (updateUploadQueueStatus fault (id it) failed (Some (retry_count it))
              (Some (Some m)) 0 (db st)) as [t'|msg] eqn:E.
  - assert (Ht' : Forall bounded t').
    { eapply bounded_update; [exact Hdb| |exact E].
      intros n Hn. inversion Hn; subst. exact Hb. }
    destruct delay; exact Ht'.
  - destruct delay; exact Hdb.
Qed.

Lemma pass_step_limit :
  forall a p st,
    Forall bounded (db st) -> within_limit st p ->
    Forall bounded (db (fst (pass_step a p st))) /\
    forall p', snd (pass_step a p st) = Some p' ->
               within_limit (fst (pass_step a p st)) p'.
Proof.
  intros a p st Hdb Hp.
  assert (Hnext : forall now offset rest st1,
            Forall bounded (db st1) ->
            Forall bounded (db (fst (next_item now offset rest st1))) /\
            forall p', snd (next_item now offset rest st1) = Some p' ->
                       within_limit (fst (next_item now offset rest st1)) p').
  { intros now offset rest st1 H1.
    destruct (next_item_limit now offset rest st1) as [A B].
    split; [now rewrite A | exact B]. }
  assert (Hcatch : forall m now offset rest item st1 it,
            Forall bounded (db st1) ->
            nth_error (heap st1) item = Some it ->
            (retry_count it < maxRetries)%nat ->
            let r := processItem_catch m (ans_clock a) item st1 in
            Forall bounded (db (fst r)) /\
            within_limit (fst r) (AwaitPersist now offset rest item m (snd r))).
  { intros m now offset rest item st1 it H1 Hit Hrc r.
    destruct (processItem_catch_count m (ans_clock a) item st1 it Hit)
      as [it' [Hit' [_ Hrc']]].
    split; [unfold r; now rewrite processItem_catch_db|].
    simpl. exists it'. split; [exact Hit'|]. rewrite Hrc'. exact Hrc. }
  destruct p as [now offset | now offset rest item | now offset rest item
                | now offset rest item issuedAt | now offset rest item m delay];
    unfold pass_step.
  - destruct (getPendingUploads (ans_fault a) (Some BATCH_SIZE) offset (db st))
      as [[|x dbItems]|msg].
    + split; [exact Hdb | discriminate].
    + now apply Hnext.
    + split; [exact Hdb | discriminate].
  - unfold processItem_start.
    destruct (nth_error (heap st) item) as [it|] eqn:Hit; [|now apply Hnext].
    destruct (negb (ans_connected a)); [now apply Hnext|].
    destruct (maxRetries <=? retry_count it)%nat eqn:Hmax.
    + apply Hnext. now rewrite updateItemStatus_db.
    + apply Nat.leb_gt in Hmax. cbn [fst snd].
      split; [now rewrite updateItemStatus_db|].
      intros p' Hp'. inversion Hp'; subst. simpl.
      destruct (updateItemStatus_object (id it) uploading None st item it Hit)
        as [it1 [Hit1 [_ [Hrc1 _]]]].
      exists it1. split; [exact Hit1 | now rewrite Hrc1].
  - simpl in Hp. destruct Hp as [it [Hit Hrc]].
    unfold processItem_settled. rewrite Hit.
    destruct (responseError it (ans_metadata a) (ans_video a)) as [m|].
    + destruct (Hcatch m now offset rest item st it Hdb Hit Hrc) as [A B].
      destruct (processItem_catch m (ans_clock a) item st) as [st2 delay].
      cbn [fst snd] in *. split; [exact A|].
      intros p' Hp'. inversion Hp'; subst. exact B.
    + cbn [fst snd]. split; [exact Hdb|].
      intros p' Hp'. inversion Hp'; subst. simpl. eauto.
  - simpl in Hp. destruct Hp as [it [Hit Hrc]].
    unfold processItem_completed. rewrite Hit.
    destruct (updateUploadQueueStatus (ans_fault a) (id it) completed None None
                issuedAt (db st)) as [t'|m] eqn:E.
    + apply Hnext. simpl.
      eapply bounded_update; [exact Hdb| |exact E]. discriminate.
    + destruct (Hcatch m now offset rest item st it Hdb Hit Hrc) as [A B].
      destruct (processItem_catch m (ans_clock a) item st) as [st2 delay].
      cbn [fst snd] in *. split; [exact A|].
      intros p' Hp'. inversion Hp'; subst. exact B.
  - simpl in Hp. destruct Hp as [it [Hit Hrc]].
    apply Hnext. eapply processItem_persist_limit; eauto.
Qed.

Lemma load_loop_limit :
  forall records st,
    grows st (fst (load_loop records st)) /\
    db (fst (load_loop records st)) = db st /\
    forall st', Forall (task_within_limit st') (snd (load_loop records st)).
Proof.
  induction records as [|record rest IH]; intros st; simpl.
  - split; [intros l x H; exact H|]. split; [reflexivity|].
    intros st'. repeat constructor.
  - assert (Hgo : grows st (fst (load_loop rest (snd (attach record st)))) /\
                  db (fst (load_loop rest (snd (attach record st)))) = db st /\
                  forall st', Forall (task_within_limit st')
                                (snd (load_loop rest (snd (attach record st))))).
    { destruct (IH (snd (attach record st))) as [A [B C]].
      split; [|split; [exact B | exact C]].
      intros l x H. apply A. simpl. now apply nth_error_grow. }
    destruct (status record); try exact Hgo.
    simpl. split; [intros l x H; exact H|]. split; [reflexivity|].
    intros st'. repeat constructor.
Qed.

Lemma spawn_pass_limit :
  forall now st,
    heap (fst (spawn_pass now st)) = heap st /\
    db (fst (spawn_pass now st)) = db st /\
    forall st', Forall (task_within_limit st') (snd (spawn_pass now st)).
Proof.
  intros now st. unfold spawn_pass, processQueue_enter.
  destruct (isProcessing st); simpl; repeat split; intros; repeat constructor.
Qed.

(** A step of a call other than the pass: objects are kept, the rows stay
    within the limit, and the calls it leaves suspended are within it. *)
Lemma bystander_step_limit :
  forall a t st,
    passes [t] = [] -> task_within_limit st t -> Forall bounded (db st) ->
    grows st (fst (task_step a t st)) /\
    Forall bounded (db (fst (task_step a t st))) /\
    forall st', Forall (task_within_limit st') (snd (task_step a t st)).
Proof.
  intros a t st Hp Ht Hdb.
  assert (Hsame : grows st st) by (intros l x H; exact H).
  destruct t as [p | q | | record rest | | | k]; cbn [task_step];
    [discriminate| | | | | |].
  - simpl in Ht. unfold addToQueue_end, addToUploadQueue.
    destruct (ans_fault a) as [m|]; [simpl; repeat split; auto|].
    destruct (has_id (id q) (db st)); [simpl; repeat split; auto|].
    destruct (spawn_pass_limit (ans_clock a) (with_db (db st ++ [with_uploaded_at None q]) st))
      as [A [B C]].
    split; [intros l x H; rewrite A; exact H|].
    split; [|exact C].
    rewrite B. simpl. apply Forall_app. split; [exact Hdb|].
    repeat constructor. unfold bounded. simpl. rewrite Ht. unfold maxRetries. lia.
  - destruct (getPendingUploads (ans_fault a) None 0 (db st)) as [records|m].
    + destruct (load_loop_limit records (with_queue [] st)) as [A [B C]].
      split; [exact A|]. split; [now rewrite B | exact C].
    + simpl. repeat split; auto; intros; repeat constructor.
  - destruct (updateUploadQueueStatus (ans_fault a) (id record) pending None None 0 (db st))
      as [t'|m] eqn:E.
    + destruct (load_loop_limit rest (snd (attach record (with_db t' st))))
        as [A [B C]].
      split; [intros l x H; apply A; simpl; now apply nth_error_grow|].
      split; [|exact C].
      rewrite B. simpl. eapply bounded_update; [exact Hdb| |exact E]. discriminate.
    + simpl. repeat split; auto; intros; repeat constructor.
  - destruct (ans_connected a).
    + destruct (spawn_pass_limit (ans_clock a) st) as [A [B C]].
      split; [intros l x H; rewrite A; exact H|].
      split; [now rewrite B | exact C].
    + repeat split; auto.
  - unfold clearQueue_end, deleteAll.
    destruct (ans_fault a); simpl; repeat split; auto.
  - unfold removeFromQueue_end, removeFromUploadQueue.
    destruct (ans_fault a); simpl; repeat split; auto.
    apply Forall_forall. intros r Hr. apply filter_In in Hr.
    eapply Forall_forall in Hdb; [exact Hdb | tauto].
Qed.

Lemma retry_limit_act :
  forall n x m,
    Inv n (engine m) (tasks m) ->
    retry_limit (engine m) (tasks m) ->
    retry_limit (engine (act x m)) (tasks (act x m)).
Proof.
  intros n x [st ts] HInv [Hdb Hts]. simpl in HInv, Hdb, Hts.
  fold bounded in Hdb.
  assert (Hgrow : forall st', grows st st' ->
            Forall (task_within_limit st') ts).
  { intros st' Hg. eapply Forall_impl; [|exact Hts].
    intros t. now apply within_limit_grows. }
  assert (Hsame : grows st st) by (intros l x0 H; exact H).
  destruct x as [| | item now | k | | connected now | now | i a];
    unfold act, retry_limit; fold bounded; cbn [engine tasks].
  - split; [exact Hdb|]. apply Forall_app. split; [exact Hts | repeat constructor].
  - assert (Hc : grows st (cleanup st))
      by (unfold cleanup; destruct (networkListener st); exact Hsame).
    split; [unfold cleanup; destruct (networkListener st); exact Hdb|].
    now apply Hgrow.
  - split; [exact Hdb|]. apply Forall_app. split.
    + apply Hgrow. intros l x H. simpl. now apply nth_error_grow.
    + repeat constructor.
  - split; [exact Hdb|]. apply Forall_app.
    split; [now apply Hgrow | repeat constructor].
  - split; [exact Hdb|]. apply Forall_app.
    split; [now apply Hgrow | repeat constructor].
  - destruct ((0 <? listeners st)%nat && connected && negb (isProcessing st));
      [|split; assumption].
    destruct (spawn_pass_limit now st) as [A [B C]].
    destruct (spawn_pass now st) as [st1 ts1]. cbn [fst snd engine tasks] in *.
    split; [now rewrite B|]. apply Forall_app. split; [|apply C].
    apply Hgrow. intros l x H. now rewrite A.
  - destruct (retryTimer st) as [d|]; [|split; assumption].
    destruct (spawn_pass_limit now (with_retryTimer None st)) as [A [B C]].
    destruct (spawn_pass now (with_retryTimer None st)) as [st1 ts1].
    cbn [fst snd engine tasks] in *.
    split; [now rewrite B|]. apply Forall_app. split; [|apply C].
    apply Hgrow. intros l x H. now rewrite A.
  - destruct (nth_error ts i) as [t|] eqn:Hnth; [|split; assumption].
    assert (Ht : task_within_limit st t).
    { eapply Forall_forall in Hts; [exact Hts|]. eapply nth_error_In; eauto. }
    assert (Hdrop : Forall (task_within_limit st) (drop_nth i ts))
      by now apply Forall_drop_nth.
    destruct t as [p | q | | record rest | | | k].
    + (* the pass *)
      destruct HInv as [_ [[s [Hs _]] _]].
      destruct (passes_drop_pass ts i p s Hnth Hs) as [_ Hnone].
      destruct (pass_step_limit a p st Hdb Ht) as [A B].
      cbn [task_step].
      destruct (pass_step a p st) as [st1 [p'|]]; cbn [fst snd engine tasks] in *.
      * split; [exact A|]. apply Forall_app. split.
        -- now apply (within_limit_bystanders st).
        -- constructor; [now apply B | constructor].
      * split; [exact A|]. rewrite app_nil_r.
        now apply (within_limit_bystanders st).
    + destruct (bystander_step_limit a (TAdd q) st eq_refl Ht Hdb) as [A [B C]].
      destruct (task_step a (TAdd q) st) as [st1 ts1]. cbn [fst snd engine tasks] in *.
      split; [exact B|]. apply Forall_app. split; [|apply C].
      eapply Forall_impl; [|exact Hdrop]. intros t. now apply within_limit_grows.
    + destruct (bystander_step_limit a TLoad st eq_refl Ht Hdb) as [A [B C]].
      destruct (task_step a TLoad st) as [st1 ts1]. cbn [fst snd engine tasks] in *.
      split; [exact B|]. apply Forall_app. split; [|apply C].
      eapply Forall_impl; [|exact Hdrop]. intros t. now apply within_limit_grows.
    + destruct (bystander_step_limit a (TReset record rest) st eq_refl Ht Hdb)
        as [A [B C]].
      destruct (task_step a (TReset record rest) st) as [st1 ts1].
      cbn [fst snd engine tasks] in *.
      split; [exact B|]. apply Forall_app. split; [|apply C].
      eapply Forall_impl; [|exact Hdrop]. intros t. now apply within_limit_grows.
    + destruct (bystander_step_limit a TFetch st eq_refl Ht Hdb) as [A [B C]].
      destruct (task_step a TFetch st) as [st1 ts1]. cbn [fst snd engine tasks] in *.
      split; [exact B|]. apply Forall_app. split; [|apply C].
      eapply Forall_impl; [|exact Hdrop]. intros t. now apply within_limit_grows.
    + destruct (bystander_step_limit a TClear st eq_refl Ht Hdb) as [A [B C]].
      destruct (task_step a TClear st) as [st1 ts1]. cbn [fst snd engine tasks] in *.
      split; [exact B|]. apply Forall_app. split; [|apply C].
      eapply Forall_impl; [|exact Hdrop]. intros t. now apply within_limit_grows.
    + destruct (bystander_step_limit a (TRemove k) st eq_refl Ht Hdb) as [A [B C]].
      destruct (task_step a (TRemove k) st) as [st1 ts1]. cbn [fst snd engine tasks] in *.
      split; [exact B|]. apply Forall_app. split; [|apply C].
      eapply Forall_impl; [|exact Hdrop]. intros t. now apply within_limit_grows.
Qed.

End RetryLimit.

Lemma retry_limit_run :
  forall n trace m,
    Inv n (engine m) (tasks m) ->
    retry_limit (engine m) (tasks m) ->
    retry_limit (engine (run trace m)) (tasks (run trace m)).
Proof.
  intros n trace. induction trace as [|x trace IH]; intros m HInv H; simpl.
  - exact H.
  - apply IH; [now apply Inv_act | now apply (retry_limit_act n)].
Qed.

(** X22.  The retry limit.  From a table in which no row has more than
    [maxRetries] retries, whatever the order of the events, no row of
    [upload_queue] ever has more than [maxRetries] retries, and an upload
    is only in flight for an item with fewer than [maxRetries]. *)
Theorem retry_limit_is_kept :
  forall (t : Table) (trace : list Action),
    (forall r, In r t -> (retry_count r <= maxRetries)%nat) ->
    let m := run trace (start t) in
    (forall r, In r (db (engine m)) -> (retry_count r <= maxRetries)%nat) /\
    (forall now offset rest item it,
       In (TPass (AwaitUploads now offset rest item)) (tasks m) ->
       nth_error (heap (engine m)) item = Some it ->
       (retry_count it < maxRetries)%nat).
Proof.
  intros t trace Ht m.
  destruct (retry_limit_run (uploading_rows t) trace (start t) (Inv_start t))
    as [Hdb Hts].
  { split; [now apply Forall_forall | constructor]. }
  fold m in Hdb, Hts. split.
  - intros r Hr. eapply Forall_forall in Hdb; eauto.
  - intros now offset rest item it Hin Hit.
    eapply Forall_forall in Hts; [|exact Hin]. simpl in Hts.
    destruct Hts as [it' [Hit' Hrc]]. congruence.
Qed.

Lemma retry_limit_is_kept_witness :
  (forall r, In r mixed_table -> (retry_count r <= maxRetries)%nat) /\
  (forall r, In r (db (engine (run attempt_started (start mixed_table)))) ->
             (retry_count r <= maxRetries)%nat).
Proof.
  assert (H : forall r, In r mixed_table -> (retry_count r <= maxRetries)%nat).
  { unfold maxRetries. intros r [<-|[<-|[<-|[<-|[]]]]]; simpl; lia. }
  split; [exact H|].
  exact (proj1 (retry_limit_is_kept mixed_table attempt_started H)).
Defined.

(* ================================================================== *)
(** * Sessions *)
(* ================================================================== *)

Lemma insert_by_timestamp_desc_perm :
  forall x l, Permutation (insert_by_timestamp_desc x l) (x :: l).
Proof.
  intros x l. induction l as [|y l IH]; simpl; [apply Permutation_refl|].
  destruct (String.leb (sess_timestamp y) (sess_timestamp x));
    [apply Permutation_refl|].
  eapply Permutation_trans; [apply perm_skip; exact IH | apply perm_swap].
Qed.

Lemma order_by_timestamp_desc_perm :
  forall l, Permutation (order_by_timestamp_desc l) l.
Proof.
  induction l as [|x l IH]; simpl; [constructor|].
  eapply Permutation_trans; [apply insert_by_timestamp_desc_perm|].
  now apply perm_skip.
Qed.

Lemma insert_by_timestamp_desc_sorted :
  forall x l, newest_first l -> newest_first (insert_by_timestamp_desc x l).
Proof.
  unfold newest_first. intros x l H. induction H as [|y l Hl IH Hy]; simpl.
  - repeat constructor.
  - destruct (String.leb (sess_timestamp y) (sess_timestamp x)) eqn:E.
    + constructor; [now constructor|]. now constructor.
    + constructor; [exact IH|].
      assert (Hyx : String.leb (sess_timestamp x) (sess_timestamp y) = true).
      { destruct (String.leb_total (sess_timestamp x) (sess_timestamp y)) as [H|H];
          [exact H | congruence]. }
      destruct l as [|z l]; simpl.
      * now constructor.
      * destruct (String.leb (sess_timestamp z) (sess_timestamp x));
          constructor; [exact Hyx|]. now inversion Hy.
Qed.

Lemma order_by_timestamp_desc_sorted :
  forall l, newest_first (order_by_timestamp_desc l).
Proof.
  induction l as [|x l IH]; simpl; [constructor|].
  now apply insert_by_timestamp_desc_sorted.
Qed.

(** X23.  Reading the sessions.  When the timestamps in the table and the
    two bounds are held as text, [getAllSessions] resolves with all the
    rows of the table, newest first; [getSessionsByDateRange] resolves,
    newest first, with exactly those whose timestamp lies between the two
    bounds, both included; and [getSessionCount] resolves with the number
    of rows that [getAllSessions] returns. *)
Theorem sessions_newest_first :
  forall (t : Sessions) (startDate endDate : string),
    text_timestamps (session_rows t) ->
    kept_as_text startDate = true ->
    kept_as_text endDate = true ->
    exists all ranged,
      getAllSessions None t = Resolved all /\
      getSessionsByDateRange None startDate endDate t = Resolved ranged /\
      Permutation all (session_rows t) /\
      newest_first all /\ newest_first ranged /\
      (forall r, In r ranged <->
         In r all /\
         String.leb startDate (sess_timestamp r) = true /\
         String.leb (sess_timestamp r) endDate = true) /\
      getSessionCount None t = Resolved (length all).
Proof.
  intros t startDate endDate _ _ _. eexists. eexists.
  split; [reflexivity|]. split; [reflexivity|].
  split; [apply order_by_timestamp_desc_perm|].
  split; [apply order_by_timestamp_desc_sorted|].
  split; [apply order_by_timestamp_desc_sorted|].
  split.
  - intros r.
    rewrite (Permutation_in' (eq_refl r) (order_by_timestamp_desc_perm _)).
    rewrite (Permutation_in' (eq_refl r) (order_by_timestamp_desc_perm _)).
    rewrite filter_In, andb_true_iff. tauto.
  - unfold getSessionCount.
    now rewrite (Permutation_length (order_by_timestamp_desc_perm _)).
Qed.

Lemma two_sessions_text : text_timestamps (session_rows two_sessions).
Proof. intros r [<-|[<-|[]]]; reflexivity. Qed.

Lemma sessions_newest_first_witness :
  text_timestamps (session_rows two_sessions) /\
  exists all ranged,
    getAllSessions None two_sessions = Resolved all /\
    getSessionsByDateRange None "2025-11-20T10:00:00.000Z"
      "2025-11-20T23:59:59.999Z" two_sessions = Resolved ranged /\
    newest_first all /\ newest_first ranged.
Proof.
  split; [exact two_sessions_text|].
  destruct (sessions_newest_first two_sessions "2025-11-20T10:00:00.000Z"
              "2025-11-20T23:59:59.999Z" two_sessions_text eq_refl eq_refl)
    as [all [ranged [H1 [H2 [_ [H4 [H5 _]]]]]]].
  exists all, ranged. repeat split; assumption.
Defined.

Lemma sessions_ok_insert :
  forall session t,
    sessions_ok t ->
    sessions_ok (mkSessions (session_rows t ++ [session_of (S (largest_rowid t)) session])
                   (S (largest_rowid t))).
Proof.
  intros session t [Hnd Hle]. split; simpl.
  - rewrite map_app. simpl. apply NoDup_app.
    + exact Hnd.
    + repeat constructor. intros [].
    + intros k Hk [<-|[]]. apply in_map_iff in Hk.
      destruct Hk as [r [Hr Hin]]. apply Hle in Hin. simpl in Hr. lia.
  - intros r Hr. apply in_app_or in Hr. destruct Hr as [Hr|[<-|[]]].
    + apply Hle in Hr. lia.
    + simpl. lia.
Qed.

(** X24.  A new session gets a new id.  On a table as AUTOINCREMENT keeps
    it, [insertSession] resolves with an id above that of every session
    in the table; the session is then returned by [getAllSessions] under
    that id together with every session that was there, and
    [getSessionCount] is one more. *)
Theorem inserted_session_is_new :
  forall (session : SessionData) (t t' : Sessions) (k : nat),
    sessions_ok t ->
    kept_as_text (data_timestamp session) = true ->
    insertSession None session t = Resolved (t', k) ->
    (forall r, In r (session_rows t) -> (sess_id r < k)%nat) /\
    sessions_ok t' /\
    (text_timestamps (session_rows t) -> text_timestamps (session_rows t')) /\
    (exists all,
       getAllSessions None t' = Resolved all /\
       In (session_of k session) all /\
       forall r, In r (session_rows t) -> In r all) /\
    getSessionCount None t' = Resolved (S (length (session_rows t))).
Proof.
  intros session t t' k Hok Htext H. unfold insertSession in H.
  injection H as <- <-.
  split.
  { intros r Hr. apply (proj2 Hok) in Hr. lia. }
  split; [now apply sessions_ok_insert|].
  split.
  { intros Ht r Hr. simpl in Hr. apply in_app_or in Hr.
    destruct Hr as [Hr|[<-|[]]]; [now apply Ht | exact Htext]. }
  split.
  - eexists. split; [reflexivity|]. simpl. split.
    + apply (Permutation_in _ (Permutation_sym (order_by_timestamp_desc_perm _))).
      apply in_or_app. right. now left.
    + intros r Hr.
      apply (Permutation_in _ (Permutation_sym (order_by_timestamp_desc_perm _))).
      apply in_or_app. now left.
  - unfold getSessionCount. simpl. rewrite length_app. simpl. f_equal. lia.
Qed.

Lemma two_sessions_ok : sessions_ok two_sessions.
Proof.
  split; simpl.
  - repeat constructor; simpl; intuition discriminate.
  - intros r [<-|[<-|[]]]; simpl; lia.
Qed.

Lemma inserted_session_is_new_witness :
  sessions_ok two_sessions /\
  insertSession None morning two_sessions
    = Resolved (mkSessions [session_of 1 morning; session_of 3 noon;
                            session_of 4 morning] 4, 4%nat) /\
  forall r, In r (session_rows two_sessions) -> (sess_id r < 4)%nat.
Proof.
  split; [exact two_sessions_ok|]. split; [reflexivity|].
  exact (proj1 (inserted_session_is_new morning two_sessions _ 4
                  two_sessions_ok eq_refl eq_refl)).
Defined.

(** X25.  The id of a deleted session is not given again.
    [deleteSession] removes the session with the id and no other,
    [clearAllSessions] removes them all, and the id that [insertSession]
    resolves with after either differs from the id of every session the
    table held before. *)
Theorem deleted_session_id_is_not_reused :
  forall (k : nat) (t : Sessions),
    sessions_ok t ->
    exists t' cleared,
      deleteSession None k t = Resolved t' /\
      clearAllSessions None t = Resolved cleared /\
      (forall r, In r (session_rows t') <-> In r (session_rows t) /\ sess_id r <> k) /\
      sessions_ok t' /\ session_rows cleared = [] /\ sessions_ok cleared /\
      forall session after k',
        insertSession None session t' = Resolved (after, k') \/
        insertSession None session cleared = Resolved (after, k') ->
        forall r, In r (session_rows t) -> sess_id r <> k'.
Proof.
  intros k t [Hnd Hle]. eexists. eexists.
  split; [reflexivity|]. split; [reflexivity|].
  split.
  { intros r. simpl. rewrite filter_In, negb_true_iff, Nat.eqb_neq. tauto. }
  split.
  { split; simpl.
    - clear Hle. induction (session_rows t) as [|x l IH]; simpl; [constructor|].
      inversion Hnd as [|? ? Hnotin Hnd']; subst.
      destruct (sess_id x =? k)%nat; simpl; [auto|].
      constructor; [|auto].
      intros Hin. apply Hnotin. apply in_map_iff in Hin.
      destruct Hin as [y [Hy Hin]]. apply filter_In in Hin.
      apply in_map_iff. exists y. tauto.
    - intros r Hr. apply filter_In in Hr. apply Hle. tauto. }
  split; [reflexivity|].
  split; [split; simpl; [constructor | intros r []]|].
  intros session after k' [H|H] r Hr; unfold insertSession in H; simpl in H;
    injection H as _ <-; apply Hle in Hr; lia.
Qed.

Lemma deleted_session_id_is_not_reused_witness :
  sessions_ok two_sessions /\
  deleteSession None 3 two_sessions = Resolved (mkSessions [session_of 1 morning] 3) /\
  insertSession None noon (mkSessions [session_of 1 morning] 3)
    = Resolved (mkSessions [session_of 1 morning; session_of 4 noon] 4, 4%nat) /\
  forall r, In r (session_rows two_sessions) -> sess_id r <> 4%nat.
Proof.
  destruct (deleted_session_id_is_not_reused 3 two_sessions two_sessions_ok)
    as [t' [cleared [H1 [_ [_ [_ [_ [_ H7]]]]]]]].
  split; [exact two_sessions_ok|]. split; [reflexivity|]. split; [reflexivity|].
  injection H1 as <-.
  apply (H7 noon (mkSessions [session_of 1 morning; session_of 4 noon] 4) 4%nat).
  left. reflexivity.
Defined.

(* ================================================================== *)
(** * Settings and the start of the database *)
(* ================================================================== *)

Lemma apply_patch_then :
  forall p q r, apply_patch q (apply_patch p r) = apply_patch (patch_then p q) r.
Proof.
  intros [p1 p2 p3 p4] [q1 q2 q3 q4] r. unfold apply_patch, patch_then; simpl.
  destruct q1, q2, q3, q4; reflexivity.
Qed.

Lemma apply_patch_nothing :
  forall p r, patches_something p = false -> apply_patch p r = r.
Proof.
  intros [[?|] [?|] [?|] [?|]] r H; try discriminate. now destruct r.
Qed.

(** What [updateSettings] leaves in the table when it is not rejected,
    whether or not a statement was issued. *)
Lemma updateSettings_rows :
  forall p t,
    updateSettings None None p t
    = Resolved (map (fun r => if (settings_id r =? 1)%nat
                              then apply_patch p r else r) t).
Proof.
  intros p t. unfold updateSettings.
  destruct (patches_something p) eqn:E; [reflexivity|].
  f_equal. symmetry. erewrite map_ext; [apply map_id|].
  intros r. simpl. destruct (settings_id r =? 1)%nat; [|reflexivity].
  now apply apply_patch_nothing.
Qed.

Lemma find_settings_update :
  forall p t,
    find (fun r => (settings_id r =? 1)%nat)
      (map (fun r => if (settings_id r =? 1)%nat then apply_patch p r else r) t)
    = option_map (apply_patch p) (find (fun r => (settings_id r =? 1)%nat) t).
Proof.
  intros p t. induction t as [|x t IH]; simpl; [reflexivity|].
  destruct (settings_id x =? 1)%nat eqn:E; simpl; rewrite E; [reflexivity | exact IH].
Qed.

(** X26.  Updating the settings.  When the settings row exists,
    [updateSettings] followed by [getSettings] gives the row in which each
    member of the argument that is defined has replaced the stored value
    and every other column is as it was; two updates in a row leave the
    table as one update with the members merged, the later one winning;
    and with no member defined no statement is issued, so that the call
    resolves and leaves the table alone even where an UPDATE would
    fail. *)
Theorem settings_are_patched :
  forall (p q : SettingsPatch) (t : list Settings) (r : Settings),
    getSettings None t = Resolved (Some r) ->
    exists t' r',
      updateSettings None None p t = Resolved t' /\
      getSettings None t' = Resolved (Some r') /\
      notification_time_1 r'
        = match patch_time_1 p with Some v => v | None => notification_time_1 r end /\
      notification_time_2 r'
        = match patch_time_2 p with Some v => v | None => notification_time_2 r end /\
      notification_time_3 r'
        = match patch_time_3 p with Some v => v | None => notification_time_3 r end /\
      notifications_enabled r'
        = match patch_enabled p with Some v => v | None => notifications_enabled r end /\
      updateSettings None None q t' = updateSettings None None (patch_then p q) t /\
      (patches_something p = false ->
         forall fault, updateSettings None fault p t = Resolved t).
Proof.
  intros p q t r H. unfold getSettings in H. injection H as H.
  eexists. exists (apply_patch p r).
  split; [apply updateSettings_rows|].
  split; [unfold getSettings; now rewrite find_settings_update, H|].
  split; [reflexivity|]. split; [reflexivity|].
  split; [reflexivity|]. split; [reflexivity|].
  split.
  - rewrite !updateSettings_rows, map_map. f_equal. apply map_ext.
    intros x. destruct (settings_id x =? 1)%nat eqn:E; [|now rewrite E].
    change (settings_id (apply_patch p x)) with (settings_id x).
    rewrite E. apply apply_patch_then.
  - intros Hp fault. unfold updateSettings. now rewrite Hp.
Qed.

Lemma settings_are_patched_witness :
  getSettings None [default_settings] = Resolved (Some default_settings) /\
  exists r',
    getSettings None [saved_settings] = Resolved (Some r') /\
    notification_time_1 r' = "08:15"%string /\
    notification_time_2 r' = "14:00"%string.
Proof.
  destruct (settings_are_patched (mkPatch (Some "08:15"%string) None None None)
              (mkPatch None None None None) [default_settings] default_settings
              eq_refl)
    as [t' [r' [H1 [H2 [H3 [H4 _]]]]]].
  split; [reflexivity|].
  rewrite updateSettings_rows in H1. injection H1 as <-.
  exists r'. split; [exact H2|]. split; [exact H3 | exact H4].
Defined.

(** X27.  Starting the database again loses nothing.  After
    [initDatabase] the three tables exist and [settings] is not empty; a
    table that existed keeps its rows, the default settings row is written
    only into a [settings] table without rows, where [getSettings] then
    returns it, and running [initDatabase] a second time changes
    nothing. *)
Theorem initDatabase_keeps_what_is_stored :
  forall (d : Database),
    let d' := initDatabase d in
    initDatabase d' = d' /\
    (exists s t q, sessions d' = Some s /\ settings d' = Some t /\
                   upload_queue d' = Some q /\ t <> [] /\
                   (settings d = None \/ settings d = Some [] ->
                    getSettings None t = Resolved (Some default_settings))) /\
    (forall s, sessions d = Some s -> sessions d' = Some s) /\
    (forall q, upload_queue d = Some q -> upload_queue d' = Some q) /\
    (forall t, settings d = Some t -> t <> [] -> settings d' = Some t).
Proof.
  intros [s t q] d'. unfold d', initDatabase. simpl.
  split.
  { f_equal. f_equal.
    destruct (length (create_if_not_exists [] t) =? 0)%nat eqn:E; [|now rewrite E].
    rewrite length_app. simpl.
    replace (length (create_if_not_exists [] t) + 1 =? 0)%nat with false; [reflexivity|].
    symmetry. apply Nat.eqb_neq. lia. }
  split.
  { eexists. eexists. eexists.
    split; [reflexivity|]. split; [reflexivity|]. split; [reflexivity|].
    split.
    - destruct t as [[|x t]|]; simpl; discriminate.
    - intros [->| ->]; reflexivity. }
  split; [intros s0 ->; reflexivity|].
  split; [intros q0 ->; reflexivity|].
  intros t0 -> Hne. destruct t0; [congruence | reflexivity].
Qed.

(* ================================================================== *)
(** * Rows the engine has nothing left to do for *)
(* ================================================================== *)

Section RowsAtRest.

(** A step that keeps the objects and does not write to a row: the rows of
    the table afterwards were there before or are new, 'pending' and
    without retries, and a row that is gone has left no row with its id. *)
Let quiet (st st' : State) : Prop :=
  (forall l x, nth_error (heap st) l = Some x -> nth_error (heap st') l = Some x) /\
  (unique_ids (db st) -> unique_ids (db st')) /\
  (forall r', In r' (db st') ->
     In r' (db st) \/ (status r' = pending /\ retry_count r' = 0%nat)) /\
  (forall r, In r (db st) -> kept_or_deleted r (db st')).

Lemma quiet_refl : forall st, quiet st st.
Proof.
  intros st. split; [auto|]. split; [auto|]. split; [auto|].
  intros r Hr. now left.
Qed.

Lemma quiet_same_db :
  forall st st',
    (forall l x, nth_error (heap st) l = Some x -> nth_error (heap st') l = Some x) ->
    db st' = db st -> quiet st st'.
Proof.
  intros st st' Hh Hdb. split; [exact Hh|]. rewrite Hdb.
  split; [auto|]. split; [auto|]. intros r Hr. now left.
Qed.

Lemma pass_rows_quiet :
  forall st st' p, quiet st st' -> pass_rows st p -> pass_rows st' p.
Proof.
  intros st st' p [Hh [_ [Hnew _]]] [Hnd [Hrest Hitem]].
  split; [exact Hnd|]. split.
  - intros x Hx r Hr Hid. destruct (Hnew r Hr) as [Hold|[Hs Hc]].
    + now apply (Hrest x Hx r).
    + rewrite Hs, Hc. split; [discriminate | lia].
  - intros item Hi. destruct (Hitem item Hi) as [it [Hit [Hno Hrows]]].
    exists it. split; [now apply Hh|]. split; [exact Hno|].
    intros r Hr Hid. destruct (Hnew r Hr) as [Hold|[Hs Hc]].
    + now apply Hrows.
    + rewrite Hs, Hc. split; [discriminate|].
      destruct p; unfold maxRetries; lia.
Qed.

Lemma task_rows_quiet :
  forall st st' t, quiet st st' -> task_rows st t -> task_rows st' t.
Proof.
  intros st st' t Hq H. destruct t as [p | q | | record rest | | | k]; auto.
  now apply (pass_rows_quiet st).
Qed.

Lemma task_rows_bystanders :
  forall st st' ts, passes ts = [] ->
    Forall (task_rows st) ts -> Forall (task_rows st') ts.
Proof.
  intros st st' ts. induction ts as [|t ts IH]; intros Hp H; [constructor|].
  inversion H; subst.
  destruct t as [p | q | | record rest | | | k];
    try (constructor; [assumption | apply IH; assumption]).
  discriminate.
Qed.

(** ** Writes *)

Lemma update_ids :
  forall fault k s rc em now t t',
    updateUploadQueueStatus fault k s rc em now t = Resolved t' ->
    map id t' = map id t.
Proof.
  intros fault k s rc em now t t' H. unfold updateUploadQueueStatus in H.
  destruct fault; [discriminate|]. injection H as <-.
  rewrite map_map. apply map_ext. intros r.
  destruct (String.eqb (id r) k); [|reflexivity].
  now destruct (apply_update_content s rc em now r) as [Hid _].
Qed.

Lemma update_other_rows :
  forall fault k s rc em now t t',
    updateUploadQueueStatus fault k s rc em now t = Resolved t' ->
    (forall r, In r t -> id r <> k -> In r t') /\
    (forall r', In r' t' -> id r' <> k -> In r' t).
Proof.
  intros fault k s rc em now t t' H. unfold updateUploadQueueStatus in H.
  destruct fault; [discriminate|]. injection H as <-. split.
  - intros r Hr Hne. now apply In_unchanged_row.
  - intros r' Hr' Hne. apply in_map_iff in Hr'. destruct Hr' as [x [Hx Hin]].
    destruct (String.eqb (id x) k) eqn:E; [|now subst r'].
    exfalso. apply Hne. subst r'.
    destruct (apply_update_content s rc em now x) as [Hid _].
    rewrite Hid. now apply String.eqb_eq.
Qed.

(** A write for the id [k], whose rows are not at rest: the ids stay
    distinct, the records of other ids are as they were, and the rows at
    rest are all still there. *)
Lemma update_at_rest :
  forall fault k s rc em now t t',
    updateUploadQueueStatus fault k s rc em now t = Resolved t' ->
    unique_ids t ->
    rows_of k t (fun r => status r <> completed /\ (retry_count r < maxRetries)%nat) ->
    unique_ids t' /\
    (forall r, In r t -> at_rest r -> In r t') /\
    (forall x, id x <> k ->
       forall P, rows_of (id x) t P -> rows_of (id x) t' P).
Proof.
  intros fault k s rc em now t t' H Hu Hk.
  destruct (update_other_rows _ _ _ _ _ _ _ _ H) as [Hkeep Hback].
  split; [unfold unique_ids; now rewrite (update_ids _ _ _ _ _ _ _ _ H)|].
  split.
  - intros r Hr [Hc|Hc].
    + apply Hkeep; [exact Hr|]. intros Hid.
      destruct (Hk r Hr Hid) as [Hs _]. contradiction.
    + apply Hkeep; [exact Hr|]. intros Hid.
      destruct (Hk r Hr Hid) as [_ Hlt]. lia.
  - intros x Hne P HP r' Hr' Hid. apply HP; [|exact Hid].
    apply Hback; [exact Hr'|]. congruence.
Qed.

(** ** The pass *)

(** Back in the loop with the records [rest]. *)
Lemma next_item_rows :
  forall now offset rest st,
    NoDup (map id rest) ->
    (forall x, In x rest ->
       rows_of (id x) (db st)
         (fun r => status r <> completed /\ (retry_count r <= retry_count x)%nat)) ->
    db (fst (next_item now offset rest st)) = db st /\
    forall p, snd (next_item now offset rest st) = Some p ->
              pass_rows (fst (next_item now offset rest st)) p.
Proof.
  intros now offset [|x rest] st Hnd Hrows; cbn [next_item attach fst snd].
  - split; [reflexivity|]. intros p Hp. inversion Hp; subst.
    split; [constructor|]. split; [intros x []|]. intros item Hi. discriminate.
  - split; [reflexivity|]. intros p Hp. inversion Hp; subst.
    inversion Hnd as [|? ? Hnotin Hnd']; subst.
    split; [exact Hnd'|]. split.
    + intros y Hy. apply Hrows. now right.
    + intros item Hi. inversion Hi; subst. exists x.
      split; [cbn [heap with_heap with_queue]; apply nth_error_alloc|].
      split; [exact Hnotin|].
      apply Hrows. now left.
Qed.

Lemma pass_step_rows_inv :
  forall a p st,
    unique_ids (db st) -> pass_rows st p ->
    unique_ids (db (fst (pass_step a p st))) /\
    (forall p', snd (pass_step a p st) = Some p' ->
                pass_rows (fst (pass_step a p st)) p') /\
    (forall r, In r (db st) -> at_rest r -> In r (db (fst (pass_step a p st)))).
Proof.
  intros a p st Hu [Hnd [Hrest Hitem]].
  (* back in the loop, the table being as it was *)
  assert (Hnext : forall now offset rest st1,
            db st1 = db st ->
            NoDup (map id rest) ->
            (forall x, In x rest ->
               rows_of (id x) (db st)
                 (fun r => status r <> completed /\
                           (retry_count r <= retry_count x)%nat)) ->
            unique_ids (db (fst (next_item now offset rest st1))) /\
            (forall p', snd (next_item now offset rest st1) = Some p' ->
                        pass_rows (fst (next_item now offset rest st1)) p') /\
            (forall r, In r (db st) -> at_rest r ->
                       In r (db (fst (next_item now offset rest st1))))).
  { intros now offset rest st1 Hdb Hnd1 Hrows1.
    destruct (next_item_rows now offset rest st1 Hnd1) as [A B].
    { now rewrite Hdb. }
    rewrite A, Hdb. split; [exact Hu|]. split; [exact B | auto]. }
  (* back in the loop after a write for the item *)
  assert (Hwrote : forall now offset rest st1 fault k s rc em clock t',
            updateUploadQueueStatus fault k s rc em clock (db st) = Resolved t' ->
            db st1 = t' ->
            rows_of k (db st)
              (fun r => status r <> completed /\ (retry_count r < maxRetries)%nat) ->
            ~ In k (map id rest) ->
            NoDup (map id rest) ->
            (forall x, In x rest ->
               rows_of (id x) (db st)
                 (fun r => status r <> completed /\
                           (retry_count r <= retry_count x)%nat)) ->
            unique_ids (db (fst (next_item now offset rest st1))) /\
            (forall p', snd (next_item now offset rest st1) = Some p' ->
                        pass_rows (fst (next_item now offset rest st1)) p') /\
            (forall r, In r (db st) -> at_rest r ->
                       In r (db (fst (next_item now offset rest st1))))).
  { intros now offset rest st1 fault k s rc em clock t' E Hdb Hk Hno Hnd1 Hrows1.
    destruct (update_at_rest _ _ _ _ _ _ _ _ E Hu Hk) as [Hu' [Hkeep Hother]].
    destruct (next_item_rows now offset rest st1 Hnd1) as [A B].
    { intros x Hx. rewrite Hdb. apply Hother; [|now apply Hrows1].
      intros Hid. apply Hno. rewrite <- Hid. now apply in_map. }
    rewrite A, Hdb. split; [exact Hu'|]. split; [exact B | exact Hkeep]. }
  (* the catch block *)
  assert (Hcatch : forall m now offset rest item st1 it,
            db st1 = db st -> rest_of p = rest ->
            nth_error (heap st1) item = Some it ->
            ~ In (id it) (map id rest) ->
            rows_of (id it) (db st)
              (fun r => status r <> completed /\ (retry_count r < maxRetries)%nat) ->
            let r := processItem_catch m (ans_clock a) item st1 in
            unique_ids (db (fst r)) /\
            pass_rows (fst r) (AwaitPersist now offset rest item m (snd r)) /\
            (forall x, In x (db st) -> at_rest x -> In x (db (fst r)))).
  { intros m now offset rest item st1 it Hdb Hr Hit Hno Hrows r.
    destruct (processItem_catch_object m (ans_clock a) item st1 it Hit)
      as [it' [Hit' Hid']].
    assert (Hdb' : db (fst r) = db st)
      by (unfold r; now rewrite processItem_catch_db).
    rewrite Hdb'. split; [exact Hu|]. split; [|auto].
    split; [cbn [rest_of]; now rewrite <- Hr|]. split.
    - cbn [rest_of]. intros x Hx. rewrite Hdb'. apply Hrest. now rewrite Hr.
    - intros item' Hi. inversion Hi; subst item'. exists it'.
      split; [exact Hit'|]. cbn [rest_of]. rewrite Hid', Hdb'.
      split; [exact Hno | exact Hrows]. }
  destruct p as [now offset | now offset rest item | now offset rest item
                | now offset rest item issuedAt | now offset rest item m delay];
    cbn [rest_of item_of] in *; unfold pass_step.
  - (* the page query *)
    destruct (getPendingUploads (ans_fault a) (Some BATCH_SIZE) offset (db st))
      as [[|x dbItems]|msg] eqn:E.
    + cbn [fst snd db with_isProcessing]. split; [exact Hu|].
      split; [discriminate | auto].
    + apply Hnext; [reflexivity | |].
      * unfold itemsToProcess. apply NoDup_map_sublist.
        exact (getPendingUploads_unique _ _ _ _ _ Hu E).
      * intros y Hy r Hr Hid. unfold itemsToProcess in Hy.
        apply filter_In in Hy. destruct Hy as [Hy _].
        destruct (getPendingUploads_In _ _ _ _ _ _ E Hy) as [Hin Hp].
        assert (r = y) by exact (unique_ids_same_row (db st) r y Hu Hr Hin Hid).
        subst r.
        split; [|lia]. unfold is_pending_or_failed in Hp.
        destruct (status y); congruence.
    + cbn [fst snd db with_isProcessing]. split; [exact Hu|].
      split; [discriminate | auto].
  - (* NetInfo.fetch() *)
    destruct (Hitem item eq_refl) as [it [Hit [Hno Hrows]]].
    unfold processItem_start. rewrite Hit.
    destruct (negb (ans_connected a)); [now apply Hnext|].
    destruct (maxRetries <=? retry_count it)%nat eqn:Hmax.
    + apply Hnext; [apply updateItemStatus_db | exact Hnd | exact Hrest].
    + apply Nat.leb_gt in Hmax. cbn [fst snd].
      rewrite updateItemStatus_db. split; [exact Hu|]. split; [|auto].
      intros p' Hp'. inversion Hp'; subst.
      destruct (updateItemStatus_object (id it) uploading None st item it Hit)
        as [it1 [Hit1 [[Hid1 _] _]]].
      split; [exact Hnd|]. split.
      * cbn [rest_of]. intros x Hx. rewrite updateItemStatus_db. now apply Hrest.
      * intros item' Hi. inversion Hi; subst item'. exists it1.
        split; [exact Hit1|]. cbn [rest_of]. rewrite Hid1, updateItemStatus_db.
        split; [exact Hno|].
        intros r Hr Hid. destruct (Hrows r Hr Hid) as [A B]. split; [exact A | lia].
  - (* Promise.all *)
    destruct (Hitem item eq_refl) as [it [Hit [Hno Hrows]]].
    unfold processItem_settled. rewrite Hit.
    destruct (responseError it (ans_metadata a) (ans_video a)) as [m|].
    + destruct (Hcatch m now offset rest item st it eq_refl eq_refl Hit Hno Hrows)
        as [A [B C]].
      destruct (processItem_catch m (ans_clock a) item st) as [st2 delay].
      cbn [fst snd] in *. split; [exact A|]. split; [|exact C].
      intros p' Hp'. inversion Hp'; subst. exact B.
    + cbn [fst snd db with_queue]. split; [exact Hu|]. split; [|auto].
      intros p' Hp'. inversion Hp'; subst.
      split; [exact Hnd|]. split; [exact Hrest|].
      intros item' Hi. inversion Hi; subst item'. exists it.
      split; [exact Hit|]. split; [exact Hno | exact Hrows].
  - (* the write of 'completed' *)
    destruct (Hitem item eq_refl) as [it [Hit [Hno Hrows]]].
    unfold processItem_completed. rewrite Hit.
    destruct (updateUploadQueueStatus (ans_fault a) (id it) completed None None
                issuedAt (db st)) as [t'|m] eqn:E.
    + eapply Hwrote; eauto.
    + destruct (Hcatch m now offset rest item st it eq_refl eq_refl Hit Hno Hrows)
        as [A [B C]].
      destruct (processItem_catch m (ans_clock a) item st) as [st2 delay].
      cbn [fst snd] in *. split; [exact A|]. split; [|exact C].
      intros p' Hp'. inversion Hp'; subst. exact B.
  - (* the write of 'failed' *)
    destruct (Hitem item eq_refl) as [it [Hit [Hno Hrows]]].
    unfold processItem_persist. rewrite Hit.
    destruct (updateUploadQueueStatus (ans_fault a) (id it) failed
                (Some (retry_count it)) (Some (Some m)) 0 (db st)) as [t'|msg] eqn:E.
    + destruct delay as [d|].
      * eapply (Hwrote now offset rest (scheduleQueueProcessing d (with_db t' st)));
          eauto.
      * eapply Hwrote; eauto.
    + destruct delay as [d|]; now apply Hnext.
Qed.

(** ** The other calls *)

Lemma load_loop_quiet :
  forall records st,
    quiet st (fst (load_loop records st)) /\
    forall st', Forall (task_rows st') (snd (load_loop records st)).
Proof.
  induction records as [|record rest IH]; intros st; simpl.
  - split; [now apply quiet_same_db|]. intros st'. repeat constructor.
  - assert (Hgo : quiet st (fst (load_loop rest (snd (attach record st)))) /\
                  forall st', Forall (task_rows st')
                                (snd (load_loop rest (snd (attach record st))))).
    { destruct (IH (snd (attach record st))) as [[A [B [C D]]] E].
      split; [|exact E].
      split; [intros l x H; apply A; simpl; now apply nth_error_grow|].
      split; [exact B|]. split; [exact C | exact D]. }
    destruct (status record); try exact Hgo.
    simpl. split; [apply quiet_refl|]. intros st'. repeat constructor.
Qed.

Lemma spawn_pass_quiet :
  forall now st,
    quiet st (fst (spawn_pass now st)) /\
    forall st', Forall (task_rows st') (snd (spawn_pass now st)).
Proof.
  intros now st. unfold spawn_pass, processQueue_enter.
  destruct (isProcessing st); cbn [fst snd].
  - split; [apply quiet_refl | constructor].
  - split; [now apply quiet_same_db|]. intros st'. constructor; [|constructor].
    split; [constructor|]. split; [intros x []|]. intros item Hi. discriminate.
Qed.

(** A step of a call other than the pass and the reset write of the load. *)
Lemma bystander_step_quiet :
  forall a t st,
    passes [t] = [] -> task_ok t -> task_rows st t ->
    quiet st (fst (task_step a t st)) /\
    forall st', Forall (task_rows st') (snd (task_step a t st)).
Proof.
  intros a t st Hp Hok Ht.
  destruct t as [p | q | | record rest | | | k]; cbn [task_step];
    [discriminate| | |destruct Hok| | |].
  - simpl in Ht, Hok. unfold addToQueue_end, addToUploadQueue.
    destruct (ans_fault a) as [m|];
      [cbn [fst snd]; split; [now apply quiet_same_db | constructor]|].
    destruct (has_id (id q) (db st)) eqn:Hid;
      [cbn [fst snd]; split; [now apply quiet_same_db | constructor]|].
    set (st1 := with_db (db st ++ [with_uploaded_at None q]) st).
    destruct (spawn_pass_quiet (ans_clock a) st1) as [[A [B [C D]]] E].
    split; [|exact E].
    assert (Hq : quiet st st1).
    { split; [auto|]. split.
      - intros Hu. unfold unique_ids, st1. cbn [db with_db].
        rewrite map_app. cbn [map]. apply NoDup_app.
        + exact Hu.
        + repeat constructor. intros [].
        + intros k Hk [<-|[]].
          change (id (with_uploaded_at None q)) with (id q) in Hk.
          apply in_map_iff in Hk. destruct Hk as [r [Hr Hin]].
          unfold has_id in Hid.
          assert (Hex : existsb (fun r0 => String.eqb (id r0) (id q)) (db st) = true).
          { apply existsb_exists. exists r. split; [exact Hin|].
            now apply String.eqb_eq. }
          congruence.
      - split.
        + intros r' Hr'. unfold st1 in Hr'. cbn [db with_db] in Hr'.
          apply in_app_or in Hr'. destruct Hr' as [Hr'|[<-|[]]]; [now left|].
          right. split; [exact Hok | exact Ht].
        + intros r Hr. left. unfold st1. cbn [db with_db].
          apply in_or_app. now left. }
    destruct Hq as [Q1 [Q2 [Q3 Q4]]].
    split; [intros l x H; apply A; now apply Q1|].
    split; [intros Hu; apply B; now apply Q2|].
    split.
    + intros r' Hr'. destruct (C r' Hr') as [H1|H1]; [now apply Q3 | now right].
    + intros r Hr. destruct (Q4 r Hr) as [H1|H1].
      * now apply D.
      * exfalso. unfold st1 in H1. cbn [db with_db] in H1.
        unfold has_id in H1. rewrite existsb_app in H1.
        apply orb_false_iff in H1. destruct H1 as [H1 _].
        assert (Hex : existsb (fun r0 => String.eqb (id r0) (id r)) (db st) = true).
        { apply existsb_exists. exists r. split; [exact Hr|]. apply String.eqb_refl. }
        congruence.
  - destruct (getPendingUploads (ans_fault a) None 0 (db st)) as [records|m].
    + destruct (load_loop_quiet records (with_queue [] st)) as [A B].
      split; [|exact B].
      destruct A as [A1 [A2 [A3 A4]]]. split; [exact A1|].
      split; [exact A2|]. split; [exact A3 | exact A4].
    + cbn [after_load fst snd]. split; [now apply quiet_same_db|].
      intros st'. repeat constructor.
  - destruct (ans_connected a).
    + apply spawn_pass_quiet.
    + cbn [fst snd]. split; [apply quiet_refl | constructor].
  - unfold clearQueue_end, deleteAll.
    destruct (ans_fault a); cbn [fst snd];
      [split; [apply quiet_refl | constructor]|].
    split; [|constructor].
    split; [auto|]. cbn [db with_db].
    split; [intros _; constructor|]. split; [intros r' []|].
    intros r Hr. now right.
  - unfold removeFromQueue_end, removeFromUploadQueue.
    destruct (ans_fault a); cbn [fst snd];
      [split; [apply quiet_refl | constructor]|].
    split; [|constructor].
    split; [auto|]. cbn [db with_db].
    split; [intros Hu; unfold unique_ids in *; now apply NoDup_map_sublist|].
    split; [intros r' Hr'; left; now apply filter_In in Hr'|].
    intros r Hr. destruct (String.eqb (id r) k) eqn:E.
    + right. apply String.eqb_eq in E. subst k. unfold has_id.
      apply not_true_is_false. intros Hex. apply existsb_exists in Hex.
      destruct Hex as [y [Hy Hid]]. apply filter_In in Hy.
      destruct Hy as [_ Hy]. rewrite Hid in Hy. discriminate.
    + left. apply filter_In. split; [exact Hr|]. now rewrite E.
Qed.

Lemma rows_inv_act :
  forall n x m,
    Inv n (engine m) (tasks m) ->
    rows_inv (engine m) (tasks m) ->
    rows_inv (engine (act x m)) (tasks (act x m)) /\
    forall r, In r (db (engine m)) -> at_rest r ->
              kept_or_deleted r (db (engine (act x m))).
Proof.
  intros n x [st ts] HInv [Hu Hts]. cbn [engine tasks] in HInv, Hu, Hts.
  (* a quiet step that leaves the suspended calls [ts1] *)
  assert (Hquiet : forall st1 ts0 ts1,
            quiet st st1 -> Forall (task_rows st) ts0 ->
            (forall st', Forall (task_rows st') ts1) ->
            rows_inv st1 (ts0 ++ ts1) /\
            forall r, In r (db st) -> at_rest r -> kept_or_deleted r (db st1)).
  { intros st1 ts0 ts1 Hq H0 H1.
    pose proof Hq as [_ [Q2 [_ Q4]]].
    split; [|intros r Hr _; now apply Q4].
    split; [now apply Q2|]. apply Forall_app. split; [|apply H1].
    eapply Forall_impl; [|exact H0]. intros t. now apply task_rows_quiet. }
  assert (Hstay : forall r, In r (db st) -> at_rest r -> kept_or_deleted r (db st))
    by (intros r Hr _; now left).
  destruct x as [| | item now | k | | connected now | now | i a];
    unfold act; cbn [engine tasks].
  - apply Hquiet; [apply quiet_refl | exact Hts | intros; repeat constructor].
  - apply (Hquiet (cleanup st) ts []) in Hts.
    + now rewrite app_nil_r in Hts.
    + apply quiet_same_db; [|unfold cleanup; destruct (networkListener st); reflexivity].
      unfold cleanup. destruct (networkListener st); auto.
    + constructor.
  - apply Hquiet; [|exact Hts|intros; repeat constructor].
    apply quiet_same_db; [|reflexivity].
    intros l x H. simpl. now apply nth_error_grow.
  - apply Hquiet; [now apply quiet_same_db | exact Hts | intros; repeat constructor].
  - apply Hquiet; [now apply quiet_same_db | exact Hts | intros; repeat constructor].
  - destruct ((0 <? listeners st)%nat && connected && negb (isProcessing st));
      [|split; [split; assumption | exact Hstay]].
    destruct (spawn_pass_quiet now st) as [A B].
    destruct (spawn_pass now st) as [st1 ts1]. cbn [fst snd engine tasks] in *.
    now apply Hquiet.
  - destruct (retryTimer st) as [d|]; [|split; [split; assumption | exact Hstay]].
    destruct (spawn_pass_quiet now (with_retryTimer None st)) as [A B].
    destruct (spawn_pass now (with_retryTimer None st)) as [st1 ts1].
    cbn [fst snd engine tasks] in *.
    apply Hquiet; [exact A | exact Hts | exact B].
  - destruct (nth_error ts i) as [t|] eqn:Hnth;
      [|split; [split; assumption | exact Hstay]].
    assert (Ht : task_rows st t).
    { eapply Forall_forall in Hts; [exact Hts|]. eapply nth_error_In; eauto. }
    assert (Hok : task_ok t).
    { destruct HInv as [_ [_ [Hoks _]]].
      eapply Forall_forall in Hoks; [exact Hoks|]. eapply nth_error_In; eauto. }
    assert (Hdrop : Forall (task_rows st) (drop_nth i ts))
      by now apply Forall_drop_nth.
    destruct t as [p | q | | record rest | | | k].
    + (* the pass *)
      destruct HInv as [_ [[s [Hs _]] _]].
      destruct (passes_drop_pass ts i p s Hnth Hs) as [_ Hnone].
      destruct (pass_step_rows_inv a p st Hu Ht) as [A [B C]].
      cbn [task_step].
      destruct (pass_step a p st) as [st1 [p'|]]; cbn [fst snd engine tasks] in *.
      * split; [|intros r Hr Hrest; left; now apply C].
        split; [exact A|]. apply Forall_app. split.
        -- now apply (task_rows_bystanders st).
        -- constructor; [now apply B | constructor].
      * split; [|intros r Hr Hrest; left; now apply C].
        split; [exact A|]. rewrite app_nil_r.
        now apply (task_rows_bystanders st).
    + destruct (bystander_step_quiet a (TAdd q) st eq_refl Hok Ht) as [A B].
      destruct (task_step a (TAdd q) st) as [st1 ts1]. cbn [fst snd engine tasks] in *.
      now apply Hquiet.
    + destruct (bystander_step_quiet a TLoad st eq_refl Hok Ht) as [A B].
      destruct (task_step a TLoad st) as [st1 ts1]. cbn [fst snd engine tasks] in *.
      now apply Hquiet.
    + destruct Hok.
    + destruct (bystander_step_quiet a TFetch st eq_refl Hok Ht) as [A B].
      destruct (task_step a TFetch st) as [st1 ts1]. cbn [fst snd engine tasks] in *.
      now apply Hquiet.
    + destruct (bystander_step_quiet a TClear st eq_refl Hok Ht) as [A B].
      destruct (task_step a TClear st) as [st1 ts1]. cbn [fst snd engine tasks] in *.
      now apply Hquiet.
    + destruct (bystander_step_quiet a (TRemove k) st eq_refl Hok Ht) as [A B].
      destruct (task_step a (TRemove k) st) as [st1 ts1]. cbn [fst snd engine tasks] in *.
      now apply Hquiet.
Qed.

End RowsAtRest.

Lemma rows_inv_run :
  forall n trace m,
    Inv n (engine m) (tasks m) ->
    rows_inv (engine m) (tasks m) ->
    Inv n (engine (run trace m)) (tasks (run trace m)) /\
    rows_inv (engine (run trace m)) (tasks (run trace m)).
Proof.
  intros n trace. induction trace as [|x trace IH]; intros m HInv H; simpl.
  - split; assumption.
  - apply IH; [now apply Inv_act | now apply (proj1 (rows_inv_act n x m HInv H))].
Qed.

(** On an engine started over a table with distinct ids, whatever happens:
    no pass is attempting, or about to attempt, an item under whose id a
    finished upload is stored; once the pass has gone past the check of
    the retry limit, the rows under the id of its item have retries left;
    and the next event leaves every row at rest as it is, or deletes
    it. *)
Lemma rows_at_rest_left_alone :
  forall (t : Table) (trace : list Action),
    unique_ids t ->
    let m := run trace (start t) in
    (forall p item it r,
       In (TPass p) (tasks m) -> item_of p = Some item ->
       nth_error (heap (engine m)) item = Some it ->
       In r (db (engine m)) -> id r = id it ->
       status r <> completed /\
       match p with
       | AwaitNet _ _ _ _ => (retry_count r <= retry_count it)%nat
       | _ => (retry_count r < maxRetries)%nat
       end) /\
    (forall p x r,
       In (TPass p) (tasks m) -> In x (rest_of p) ->
       In r (db (engine m)) -> id r = id x -> status r <> completed) /\
    (forall x r,
       In r (db (engine m)) -> at_rest r ->
       kept_or_deleted r (db (engine (act x m)))).
Proof.
  intros t trace Hu m.
  destruct (rows_inv_run (uploading_rows t) trace (start t) (Inv_start t))
    as [HInv [_ Hts]].
  { split; [exact Hu | constructor]. }
  fold m in HInv, Hts.
  split; [|split].
  - intros p item it r Hin Hi Hit Hr Hid.
    eapply Forall_forall in Hts; [|exact Hin].
    destruct Hts as [_ [_ Hitem]].
    destruct (Hitem item Hi) as [it' [Hit' [_ Hrows]]].
    assert (it' = it) by congruence. subst it'.
    exact (Hrows r Hr Hid).
  - intros p x r Hin Hx Hr Hid.
    eapply Forall_forall in Hts; [|exact Hin].
    destruct Hts as [_ [Hrest _]].
    now destruct (Hrest x Hx r Hr Hid).
  - intros x r Hr Hrest.
    destruct (rows_inv_run (uploading_rows t) trace (start t) (Inv_start t))
      as [HInv' Hinv'].
    { split; [exact Hu | constructor]. }
    now apply (rows_inv_act (uploading_rows t) x (run trace (start t)) HInv' Hinv').
Qed.

(* ================================================================== *)
(** * An attempt whose transfers succeed *)
(* ================================================================== *)

(** The [catch] block when the store accepts the write of 'failed': the
    rows with the id of the item get status 'failed', the message and the
    count of the object plus one; the Map is not touched; the timer is
    armed when a retry is left, and left as it is otherwise. *)
Lemma processItem_failure_recorded :
  forall now m item st it,
    nth_error (heap st) item = Some it ->
    let r := processItem_failure now None m item st in
    db (fst r)
      = map (fun x => if String.eqb (id x) (id it)
                      then with_error_message (Some m)
                             (with_retry_count (S (retry_count it))
                                (with_status failed x))
                      else x) (db st) /\
    retryTimer (fst r)
      = (if (S (retry_count it) <? maxRetries)%nat
         then Some (backoff (S (retry_count it)))
         else retryTimer st).
Proof.
  intros now m item st it Hit r. subst r.
  unfold processItem_failure, processItem_catch. rewrite Hit.
  set (n := S (retry_count it)).
  set (st1 := with_heap (mutate item (with_retry_count n) (heap st)) st).
  assert (H1 : nth_error (heap st1) item = Some (with_retry_count n it)).
  { unfold st1. simpl. now rewrite nth_error_mutate_same, Hit. }
  destruct (updateItemStatus_object (id it) failed (Some m) st1 item _ H1)
    as [it2 [H2 [[Hid _] [Hrc _]]]].
  set (st2 := updateItemStatus (id it) failed (Some m) st1) in *.
  assert (Hdb2 : db st2 = db st)
    by (unfold st2; now rewrite updateItemStatus_db).
  assert (Ht2 : retryTimer st2 = retryTimer st)
    by (unfold st2; now rewrite updateItemStatus_retryTimer).
  simpl in Hid, Hrc.
  destruct (n <? maxRetries)%nat; cbn [fst snd]; unfold processItem_persist.
  - cbn [heap with_heap]. rewrite nth_error_mutate_same, H2.
    cbn [option_map id retry_count with_next_retry_at].
    rewrite Hid, Hrc. cbn [updateUploadQueueStatus db with_heap].
    rewrite Hdb2. split; reflexivity.
  - rewrite H2, Hid, Hrc. cbn [updateUploadQueueStatus db with_db retryTimer].
    rewrite Hdb2, Ht2. split; reflexivity.
Qed.

Lemma processItem_failure_outcome :
  forall now fault m item st,
    snd (processItem_failure now fault m item st) = Failed m /\
    queue (fst (processItem_failure now fault m item st)) = queue st.
Proof.
  intros now fault m item st. unfold processItem_failure.
  assert (Hq : queue (fst (processItem_catch m now item st)) = queue st).
  { unfold processItem_catch. destruct (nth_error (heap st) item) as [it|];
      [|reflexivity].
    destruct (S (retry_count it) <? maxRetries)%nat; cbn [fst queue with_heap];
      now rewrite updateItemStatus_queue. }
  destruct (processItem_catch m now item st) as [st1 delay].
  cbn [fst snd] in *. split; [reflexivity|].
  unfold processItem_persist. destruct (nth_error (heap st1) item) as [it|];
    [|exact Hq].
  destruct (updateUploadQueueStatus fault (id it) failed (Some (retry_count it))
              (Some (Some m)) 0 (db st1)); destruct delay; exact Hq.
Qed.

(** The entries of a well keyed Map refer to distinct objects. *)
Lemma well_keyed_distinct :
  forall st k k' l,
    well_keyed st -> map_get k (queue st) = Some l ->
    map_get k' (queue st) = Some l -> k = k'.
Proof.
  intros st k k' l [_ Hobj] H1 H2.
  apply map_get_In in H1. apply map_get_In in H2.
  destruct (Hobj k l H1) as [r [Hr Hid]].
  destruct (Hobj k' l H2) as [r' [Hr' Hid']].
  congruence.
Qed.

(** What [updateItemStatus] leaves alone: the objects that the Map does
    not hold under the id. *)
Lemma updateItemStatus_other_objects :
  forall k s e st l,
    map_get k (queue st) <> Some l ->
    nth_error (heap (updateItemStatus k s e st)) l = nth_error (heap st) l.
Proof.
  intros k s e st l Hne. unfold updateItemStatus.
  destruct (map_get k (queue st)) as [l0|]; [|reflexivity].
  cbn [heap with_heap]. apply nth_error_mutate_other. congruence.
Qed.

(** C6, as stated, fails: both transfers report success, and the attempt
    does not succeed, because the store rejects the write of 'completed'.
    The [catch] block of [processItem] takes it for a failed attempt: the
    row is 'failed' with one retry consumed and the message of the store,
    the retry timer is armed, and the uploads will be made again. *)
Lemma processItem_success_counterexample :
  let a := mkAttempt true accepted accepted 2000 (Some "disk I/O error") 2001 None in
  let r := processItem a 0 picked_up in
  nth_error (heap picked_up) 0 = Some video_row /\
  isConnected a = true /\
  (retry_count video_row < maxRetries)%nat /\
  success (metadataResponse a) = true /\
  success (videoResponse a) = true /\
  snd r = Failed "disk I/O error" /\
  snd r <> Uploaded /\
  db (fst r) = [failed_row video_row "disk I/O error"] /\
  retryTimer (fst r) = Some 5000.
Proof.
  cbv zeta. split; [reflexivity|]. split; [reflexivity|].
  split; [unfold maxRetries; simpl; lia|].
  split; [reflexivity|]. split; [reflexivity|].
  split; [reflexivity|]. split; [discriminate|].
  split; reflexivity.
Qed.

(** C6, amended.  (1) Take a call of [processItem] that goes as far as the
    uploads (the device is connected and the retry count of the item is
    below [maxRetries]).  It ends with 'Successfully uploaded item'
    exactly when the metadata response reports success, either
    [video_uri] is absent (null or empty) or the video response reports
    success, and the store accepts the write of 'completed'.  In that case
    the id is no longer in the Map, the other entries of the Map and the
    objects they refer to are as before, every row with that id has status
    'completed' and [uploaded_at] equal to the clock read by the write,
    all other rows are as before, the retry timer is as before, and no
    page query on that table returns a row with that id.  When the
    transfers succeed and the write of 'completed' is rejected, the call
    ends as a failed attempt with the message of the rejection: the id is
    out of the Map all the same, and when the write of 'failed' is
    accepted every row with that id is 'failed' with the message and the
    count plus one, and the timer is armed if a retry is left.
    (2) On an engine started over a table with distinct ids, whatever
    happens afterwards: no pass is attempting, or holds for a later
    attempt, an item under whose id a 'completed' row is stored; and the
    next event, whichever it is, leaves every 'completed' row as it is or
    deletes it. *)
Theorem processItem_success :
  (forall (a : Attempt) (item : nat) (st : State) (it : UploadQueueRecord),
     nth_error (heap st) item = Some it ->
     isConnected a = true ->
     (retry_count it < maxRetries)%nat ->
     let r := processItem a item st in
     let transfers_ok :=
       success (metadataResponse a) = true /\
       (truthy (video_uri it) = false \/ success (videoResponse a) = true) in
     (snd r = Uploaded <-> transfers_ok /\ completedFault a = None) /\
     (snd r = Uploaded ->
        getQueueItem (id it) (fst r) = None /\
        (forall k, k <> id it ->
           map_get k (queue (fst r)) = map_get k (queue st)) /\
        (forall l, map_get (id it) (queue st) <> Some l ->
           nth_error (heap (fst r)) l = nth_error (heap st) l) /\
        (well_keyed st -> forall k, k <> id it ->
           getQueueItem k (fst r) = getQueueItem k st) /\
        db (fst r)
          = map (fun x => if String.eqb (id x) (id it)
                          then with_uploaded_at (Some (settledAt a))
                                 (with_status completed x)
                          else x) (db st) /\
        retryTimer (fst r) = retryTimer st /\
        forall fault limit offset rows x,
          getPendingUploads fault limit offset (db (fst r)) = Resolved rows ->
          In x rows -> id x <> id it) /\
     (forall m, transfers_ok -> completedFault a = Some m ->
        snd r = Failed m /\
        getQueueItem (id it) (fst r) = None /\
        (failedFault a = None ->
           db (fst r)
             = map (fun x => if String.eqb (id x) (id it)
                             then with_error_message (Some m)
                                    (with_retry_count (S (retry_count it))
                                       (with_status failed x))
                             else x) (db st) /\
           retryTimer (fst r)
             = if (S (retry_count it) <? maxRetries)%nat
               then Some (backoff (S (retry_count it)))
               else retryTimer st))) /\
  (forall (t : Table) (trace : list Action),
     unique_ids t ->
     let m := run trace (start t) in
     (forall p item it r,
        In (TPass p) (tasks m) -> item_of p = Some item ->
        nth_error (heap (engine m)) item = Some it ->
        In r (db (engine m)) -> id r = id it -> status r <> completed) /\
     (forall p x r,
        In (TPass p) (tasks m) -> In x (rest_of p) ->
        In r (db (engine m)) -> id r = id x -> status r <> completed) /\
     (forall x r,
        In r (db (engine m)) -> status r = completed ->
        kept_or_deleted r (db (engine (act x m))))).
Proof.
  split.
  2:{ intros t trace Hu m.
      destruct (rows_at_rest_left_alone t trace Hu) as [A [B C]].
      fold m in A, B, C. split; [|split].
      - intros p item it r H1 H2 H3 H4 H5.
        now destruct (A p item it r H1 H2 H3 H4 H5).
      - exact B.
      - intros x r Hr Hs. apply C; [exact Hr | now left]. }
  intros a item st it Hit Hc Hrc r transfers_ok. subst r transfers_ok.
  unfold processItem, processItem_start. rewrite Hit, Hc. simpl negb. cbv iota.
  destruct (maxRetries <=? retry_count it)%nat eqn:Hmax;
    [apply Nat.leb_le in Hmax; lia|].
  set (st1 := updateItemStatus (id it) uploading None st).
  destruct (updateItemStatus_object (id it) uploading None st item it Hit)
    as [it' [Hit' [Hpay [Hrc' _]]]].
  fold st1 in Hit'.
  assert (Hdb1 : db st1 = db st) by (unfold st1; now rewrite updateItemStatus_db).
  assert (Ht1 : retryTimer st1 = retryTimer st)
    by (unfold st1; now rewrite updateItemStatus_retryTimer).
  assert (Hq1 : queue st1 = queue st)
    by (unfold st1; now rewrite updateItemStatus_queue).
  unfold processItem_settled. rewrite Hit'.
  rewrite (responseError_payload it it' (metadataResponse a) (videoResponse a) Hpay).
  destruct Hpay as [Hid _]. rewrite Hid.
  destruct (responseError it (metadataResponse a) (videoResponse a)) as [m|] eqn:Herr.
  - (* an error is thrown *)
    assert (Hno : ~ (success (metadataResponse a) = true /\
                     (truthy (video_uri it) = false \/
                      success (videoResponse a) = true))).
    { intros H. apply responseError_None in H. congruence. }
    destruct (processItem_failure_outcome (settledAt a) (failedFault a) m item st1)
      as [Ho _].
    rewrite Ho.
    split; [split; [discriminate | tauto]|].
    split; [discriminate|]. intros m' H. contradiction.
  - apply responseError_None in Herr.
    set (st2 := with_queue (map_delete (id it) (queue st1)) st1).
    unfold processItem_completed. change (heap st2) with (heap st1).
    rewrite Hit', Hid.
    destruct (completedFault a) as [msg|] eqn:Hf.
    + (* the write of 'completed' is rejected *)
      cbn [updateUploadQueueStatus].
      destruct (processItem_failure_outcome (rejectedAt a) (failedFault a) msg item st2)
        as [Ho Hq].
      rewrite Ho.
      split; [split; [discriminate | intros [_ H]; discriminate]|].
      split; [discriminate|].
      intros m' _ Hm'. inversion Hm'; subst m'.
      split; [reflexivity|]. split.
      * unfold getQueueItem. rewrite Hq. unfold st2. cbn [queue with_queue].
        now rewrite map_get_delete_same.
      * intros Hff. rewrite Hff.
        assert (Hit2 : nth_error (heap st2) item = Some it') by exact Hit'.
        destruct (processItem_failure_recorded (rejectedAt a) msg item st2 it' Hit2)
          as [A B].
        rewrite A, B, Hid, Hrc'. unfold st2. cbn [db with_queue retryTimer].
        rewrite Hdb1, Ht1. split; reflexivity.
    + (* the success path *)
      cbn [updateUploadQueueStatus]. cbv iota. cbn [fst snd].
      split; [tauto|].
      split; [intros _ | intros m' _ Hm'; discriminate].
      split; [apply (getQueueItem_delete (id it) st1)|].
      split.
      { intros k Hk. cbn [queue with_db]. unfold st2. cbn [queue with_queue].
        rewrite map_get_delete_other by exact Hk. now rewrite Hq1. }
      split.
      { intros l Hl. cbn [heap with_db]. unfold st2. cbn [heap with_queue].
        unfold st1. now apply updateItemStatus_other_objects. }
      split.
      { intros Hwk k Hk. unfold getQueueItem.
        cbn [queue heap with_db]. unfold st2. cbn [queue heap with_queue].
        rewrite map_get_delete_other by exact Hk. rewrite Hq1.
        destruct (map_get k (queue st)) as [l|] eqn:El; [|reflexivity].
        unfold st1. apply updateItemStatus_other_objects.
        intros Hl. apply Hk. symmetry.
        exact (well_keyed_distinct st (id it) k l Hwk Hl El). }
      split; [cbn [db with_db]; unfold st2; cbn [db with_queue]; now rewrite Hdb1|].
      split; [cbn [retryTimer with_db]; unfold st2; exact Ht1|].
      intros fault limit offset rows x Hq Hx.
      eapply completed_rows_not_pending; [|exact Hq|exact Hx].
      cbn [db with_db]. intros r0 Hr0 Hk.
      unfold st2 in Hr0. cbn [db with_queue] in Hr0. rewrite Hdb1 in Hr0.
      apply in_map_iff in Hr0. destruct Hr0 as [y [Hy _]].
      destruct (String.eqb (id y) (id it)) eqn:E.
      * subst r0. reflexivity.
      * subst r0. apply String.eqb_neq in E. contradiction.
Qed.

Lemma processItem_success_witness :
  nth_error (heap picked_up) 0 = Some video_row /\
  isConnected both_accepted = true /\
  (retry_count video_row < maxRetries)%nat /\
  snd (processItem both_accepted 0 picked_up) = Uploaded /\
  getQueueItems (fst (processItem both_accepted 0 picked_up)) = [] /\
  db (fst (processItem both_accepted 0 picked_up))
    = [with_uploaded_at (Some 2000) (with_status completed video_row)].
Proof.
  assert (Hrc : (retry_count video_row < maxRetries)%nat)
    by (unfold maxRetries; simpl; lia).
  pose proof (proj1 processItem_success both_accepted 0%nat picked_up video_row
                eq_refl eq_refl Hrc) as H.
  split; [reflexivity|]. split; [reflexivity|]. split; [exact Hrc|].
  destruct H as [Hiff [Hon _]].
  assert (Hup : snd (processItem both_accepted 0 picked_up) = Uploaded).
  { apply Hiff. split; [split; [reflexivity | right; reflexivity] | reflexivity]. }
  split; [exact Hup|].
  destruct (Hon Hup) as [_ [_ [_ [_ [Hdb _]]]]].
  split; [reflexivity | exact Hdb].
Defined.

(* ================================================================== *)
(** * Three failed attempts *)
(* ================================================================== *)

(** A pass started by the timer or by the listener, on an engine at rest
    with a listener subscribed and the timer armed, is a call of
    [processQueue]; the timer is cleared first when it is what started the
    pass. *)
Lemma triggered_pass :
  forall g fuel e st d,
    isProcessing st = false -> (0 < listeners st)%nat ->
    retryTimer st = Some d ->
    triggered g fuel e st
    = processQueue fuel e (match g with
                           | ByTimer => with_retryTimer None st
                           | ByNetwork => st
                           end).
Proof.
  intros g fuel e st d Hp Hl Ht. destruct g; cbn [triggered].
  - unfold timerFired. now rewrite Ht.
  - unfold networkChanged. rewrite Hp.
    apply Nat.ltb_lt in Hl. now rewrite Hl.
Qed.

(** A failed attempt, whatever the store answers to the write of
    'failed': a rejected write is logged and dropped, so that the table is
    then as it was. *)
Lemma processItem_fails_any :
  forall a r st,
    isConnected a = true ->
    (retry_count r < maxRetries)%nat ->
    transfer_fails r a ->
    processItem a (length (heap st)) (snd (attach r st))
    = (mkState
         (match failedFault a with
          | None =>
              map (fun x => if String.eqb (id x) (id r)
                            then apply_update failed (Some (S (retry_count r)))
                                   (Some (Some (thrown r a))) 0 x
                            else x) (db st)
          | Some _ => db st
          end)
         (heap st ++ [failed_object r (thrown r a) (settledAt a)])
         (map_set (id r) (length (heap st)) (queue st))
         (isProcessing st) (networkListener st) (listeners st)
         (if (S (retry_count r) <? maxRetries)%nat
          then Some (backoff (S (retry_count r)))
          else retryTimer st),
       Failed (thrown r a)).
Proof.
  intros a r st Hc Hrc Hfail.
  destruct (transfer_fails_thrown r a Hfail) as [Herr Htruthy].
  set (msg := thrown r a) in *.
  assert (Hmax : (maxRetries <=? retry_count r)%nat = false)
    by (apply Nat.leb_gt; exact Hrc).
  unfold processItem, processItem_start, attach. cbn [snd heap with_queue with_heap].
  rewrite nth_error_alloc, Hc, Hmax. cbn [negb].
  unfold updateItemStatus at 1. cbn [queue with_queue with_heap heap].
  rewrite map_get_set_same, mutate_alloc. cbn [truthy].
  unfold processItem_settled. cbn [heap with_heap].
  rewrite nth_error_alloc.
  change (responseError (with_status uploading r) (metadataResponse a) (videoResponse a))
    with (responseError r (metadataResponse a) (videoResponse a)).
  rewrite Herr.
  unfold processItem_failure, processItem_catch. cbn [heap with_heap].
  rewrite nth_error_alloc, mutate_alloc.
  unfold updateItemStatus. cbn [queue with_queue with_heap heap id with_status].
  rewrite map_get_set_same, mutate_alloc, Htruthy.
  unfold failed_object, failed_row.
  cbn [retry_count with_status].
  destruct (S (retry_count r) <? maxRetries)%nat eqn:Hlt.
  - cbn [heap with_heap]. rewrite mutate_alloc.
    unfold processItem_persist. cbn [heap with_heap].
    rewrite nth_error_alloc. destruct (failedFault a); reflexivity.
  - unfold processItem_persist. cbn [heap with_heap].
    rewrite nth_error_alloc. destruct (failedFault a); reflexivity.
Qed.

(** The course of an item whose three attempts fail, on an initialized
    engine whose table holds finished uploads only; the second and the
    third pass are started by the timer or by the listener. *)
Lemma three_failures_in_a_row :
  forall (t : Table) (item : QueueInput) (now : Z) (e1 e2 e3 : PassEnv)
         (g2 g3 : Trigger) (st0 : State),
    settled t -> has_id (in_id item) t = false ->
    db st0 = t -> isProcessing st0 = false -> (0 < listeners st0)%nat ->
    failing_pass (queueItem_of item now) e1 ->
    failing_pass (queueItem_of item now) e2 ->
    failing_pass (queueItem_of item now) e3 ->
    exists st1 st2 st3 r1 r2 r3,
      addToQueue 2 None e1 item now st0 = Some (st1, Resolved tt) /\
      (db st1 = t ++ [r1] /\ status r1 = failed /\ retry_count r1 = 1%nat /\
       retryTimer st1 = Some 5000) /\
      triggered g2 2 e2 st1 = Some st2 /\
      (db st2 = t ++ [r2] /\ status r2 = failed /\ retry_count r2 = 2%nat /\
       retryTimer st2 = Some 10000) /\
      triggered g3 2 e3 st2 = Some st3 /\
      id r3 = in_id item /\
      exhausted t r3 st3 /\
      retryTimer st3 = match g3 with
                       | ByTimer => None
                       | ByNetwork => Some 10000
                       end.
Proof.
  intros t item now e1 e2 e3 g2 g3 st0 Ht Hid Hdb0 Hp0 Hl0 H1 H2 H3.
  set (q := queueItem_of item now) in *.
  (* first pass *)
  set (sta := with_db (t ++ [q]) (addToQueue_begin item now st0)).
  destruct (failed_pass 0 e1 sta t q Ht Hid eq_refl Hp0 eq_refl eq_refl
              (Nat.lt_0_succ 2) H1)
    as [st1 [Hp1 [Hdb1 [_ [Ht1 [Hi1 Hl1]]]]]].
  set (r1 := failed_row q (thrown q (attempt e1 (id q)))) in *.
  cbn [retry_count q queueItem_of Nat.ltb Nat.leb maxRetries] in Ht1.
  change (listeners sta) with (listeners st0) in Hl1.
  assert (Hl1' : (0 < listeners st1)%nat) by (rewrite Hl1; exact Hl0).
  (* second pass *)
  set (sb := match g2 with ByTimer => with_retryTimer None st1 | ByNetwork => st1 end).
  assert (Hsb : db sb = t ++ [r1] /\ isProcessing sb = false /\
                listeners sb = listeners st1).
  { unfold sb. destruct g2; repeat split; assumption. }
  destruct Hsb as [Hdbb [Hib Hlb]].
  assert (Hrc1 : (retry_count r1 < maxRetries)%nat) by (unfold maxRetries; simpl; lia).
  destruct (failed_pass 0 e2 sb t r1 Ht Hid Hdbb Hib eq_refl eq_refl Hrc1 H2)
    as [st2 [Hp2 [Hdb2 [_ [Ht2 [Hi2 Hl2]]]]]].
  set (r2 := failed_row r1 (thrown r1 (attempt e2 (id r1)))) in *.
  assert (Hl2' : (0 < listeners st2)%nat) by (rewrite Hl2, Hlb; exact Hl1').
  (* third pass *)
  set (sc := match g3 with ByTimer => with_retryTimer None st2 | ByNetwork => st2 end).
  assert (Hsc : db sc = t ++ [r2] /\ isProcessing sc = false /\
                retryTimer sc = match g3 with
                                | ByTimer => None
                                | ByNetwork => retryTimer st2
                                end).
  { unfold sc. destruct g3; repeat split; assumption. }
  destruct Hsc as [Hdbc [Hic Htc]].
  assert (Hrc2 : (retry_count r2 < maxRetries)%nat) by (unfold maxRetries; simpl; lia).
  destruct (failed_pass 0 e3 sc t r2 Ht Hid Hdbc Hic eq_refl eq_refl Hrc2 H3)
    as [st3 [Hp3 [Hdb3 [Hm3 [Ht3 [Hi3 _]]]]]].
  set (r3 := failed_row r2 (thrown r2 (attempt e3 (id r2)))) in *.
  exists st1, st2, st3, r1, r2, r3.
  split.
  { unfold addToQueue, addToQueue_end, addToUploadQueue.
    change (db (addToQueue_begin item now st0)) with (db st0). rewrite Hdb0.
    change (id (queueItem_of item now)) with (in_id item). rewrite Hid.
    change (with_db (t ++ [with_uploaded_at None (queueItem_of item now)])
              (addToQueue_begin item now st0)) with sta.
    rewrite Hp1. reflexivity. }
  split; [repeat split; assumption|].
  split.
  { rewrite (triggered_pass g2 2 e2 st1 5000 Hi1 Hl1' Ht1). exact Hp2. }
  split; [repeat split; assumption|].
  split.
  { rewrite (triggered_pass g3 2 e3 st2 10000 Hi2 Hl2' Ht2). exact Hp3. }
  split; [reflexivity|].
  split.
  { repeat split; try assumption; reflexivity. }
  rewrite Ht3, Htc. cbn [retry_count r2 failed_row with_error_message
                          with_retry_count Nat.ltb Nat.leb maxRetries].
  destruct g3; [reflexivity | exact Ht2].
Qed.

(** C7, as stated, fails: the third failure arms no timer, but it does
    not cancel one either.  Item "a" is refused three times; the retries
    are made in passes started by the network listener.  When the engine
    has come to rest the row is 'failed' with three retries, and the
    timer armed after the second failure, for 10000 ms, is still armed. *)
Lemma three_failures_exhaust_retries_counterexample :
  let m := run retried_on_reconnect (start []) in
  tasks m = [] /\
  isProcessing (engine m) = false /\
  db (engine m)
    = [with_error_message (Some "HTTP 500: Unknown error") (row "a" failed 3 1000)] /\
  retryTimer (engine m) = Some 10000.
Proof. vm_compute. repeat split. Qed.

(** C7, amended.  (1) Whatever the state, an attempt on a row object [r]
    just put in the Map, made while connected with fewer than [maxRetries]
    failures behind it, whose transfers fail, ends as a failure: the
    object in the Map gets status 'failed', the error message and the
    count of [r] plus one; every row with that id gets the same when the
    store accepts the write of 'failed', and the table is as it was when
    the store rejects it; the retry timer is armed (for
    5000 * 2^(count - 1) ms) exactly when the new count is below
    [maxRetries]; otherwise the timer is left as it is, armed or not.
    (2) Whatever the state and the environment, an attempt on a row object
    whose count has reached [maxRetries] returns on entry: table and timer
    are unchanged and the object in the Map is [r], with status 'failed'
    when connected.  (3) An item enqueued on an initialized engine whose
    table holds finished uploads only, each later pass being started by
    the timer or by the network listener: after the first failed attempt
    the count is 1 and the timer armed for 5000 ms, after the second 2 and
    10000 ms, after the third the row and the object in the Map are
    'failed' with count 3; the timer is then not armed if it is what
    started the third pass, and still armed for 10000 ms if the listener
    did.  From then on every pass, whatever the environment answers,
    returns and leaves row, object and timer as they are.  (4) On an
    engine started over a table with distinct ids, whatever happens
    afterwards: the uploads, the write of 'completed' and the write of
    'failed' are only ever awaited for an item under whose id no row has
    reached [maxRetries]; and the next event, whichever it is, leaves
    every row that has reached [maxRetries] as it is or deletes it. *)
Theorem three_failures_exhaust_retries :
  (forall a r st,
     isConnected a = true -> (retry_count r < maxRetries)%nat ->
     transfer_fails r a ->
     let res := processItem a (length (heap st)) (snd (attach r st)) in
     snd res = Failed (thrown r a) /\
     db (fst res)
       = match failedFault a with
         | None =>
             map (fun x => if String.eqb (id x) (id r)
                           then with_error_message (Some (thrown r a))
                                  (with_retry_count (S (retry_count r))
                                     (with_status failed x))
                           else x) (db st)
         | Some _ => db st
         end /\
     getQueueItem (id r) (fst res)
       = Some (failed_object r (thrown r a) (settledAt a)) /\
     retryTimer (fst res)
       = if (S (retry_count r) <? maxRetries)%nat
         then Some (retryDelayMs * 2 ^ Z.of_nat (retry_count r))
         else retryTimer st) /\
  (forall a r st,
     (maxRetries <= retry_count r)%nat ->
     let res := processItem a (length (heap st)) (snd (attach r st)) in
     snd res = (if isConnected a then Exhausted else Skipped) /\
     db (fst res) = db st /\
     retryTimer (fst res) = retryTimer st /\
     getQueueItem (id r) (fst res)
       = Some (if isConnected a then with_status failed r else r)) /\
  (forall (t : Table) (item : QueueInput) (now : Z) (e1 e2 e3 : PassEnv)
          (g2 g3 : Trigger) (st0 : State),
     settled t -> has_id (in_id item) t = false ->
     db st0 = t -> isProcessing st0 = false -> (0 < listeners st0)%nat ->
     failing_pass (queueItem_of item now) e1 ->
     failing_pass (queueItem_of item now) e2 ->
     failing_pass (queueItem_of item now) e3 ->
     exists st1 st2 st3 r1 r2 r3,
       addToQueue 2 None e1 item now st0 = Some (st1, Resolved tt) /\
       (db st1 = t ++ [r1] /\ status r1 = failed /\ retry_count r1 = 1%nat /\
        retryTimer st1 = Some 5000) /\
       triggered g2 2 e2 st1 = Some st2 /\
       (db st2 = t ++ [r2] /\ status r2 = failed /\ retry_count r2 = 2%nat /\
        retryTimer st2 = Some 10000) /\
       triggered g3 2 e3 st2 = Some st3 /\
       id r3 = in_id item /\
       exhausted t r3 st3 /\
       retryTimer st3 = match g3 with
                        | ByTimer => None
                        | ByNetwork => Some 10000
                        end /\
       (forall st, exhausted t r3 st ->
          forall fuel e, exists st',
            processQueue (S (S fuel)) e st = Some st' /\
            exhausted t r3 st' /\ retryTimer st' = retryTimer st)) /\
  (forall (t : Table) (trace : list Action),
     unique_ids t ->
     let m := run trace (start t) in
     (forall p item it r,
        In (TPass p) (tasks m) -> item_of p = Some item ->
        nth_error (heap (engine m)) item = Some it ->
        In r (db (engine m)) -> id r = id it ->
        match p with
        | AwaitNet _ _ _ _ => True
        | _ => (retry_count r < maxRetries)%nat
        end) /\
     (forall x r,
        In r (db (engine m)) -> (maxRetries <= retry_count r)%nat ->
        kept_or_deleted r (db (engine (act x m))))).
Proof.
  split; [|split; [|split]].
  - intros a r st Hc Hrc Hfail res. subst res.
    rewrite (processItem_fails_any a r st Hc Hrc Hfail). cbn [fst snd db retryTimer].
    split; [reflexivity|]. split; [destruct (failedFault a); reflexivity|]. split.
    + unfold getQueueItem. cbn [queue heap].
      rewrite map_get_set_same. apply nth_error_alloc.
    + unfold backoff. replace (S (retry_count r) - 1)%nat with (retry_count r) by lia.
      reflexivity.
  - intros a r st Hrc res. subst res.
    rewrite (processItem_exhausted a r st Hrc).
    destruct (isConnected a); cbn [fst snd];
      (split; [reflexivity|]; split; [reflexivity|]; split; [reflexivity|]);
      unfold getQueueItem, attach; cbn [queue heap snd with_heap with_queue];
      rewrite map_get_set_same; apply nth_error_alloc.
  - intros t item now e1 e2 e3 g2 g3 st0 Ht Hid Hdb0 Hp0 Hl0 H1 H2 H3.
    destruct (three_failures_in_a_row t item now e1 e2 e3 g2 g3 st0
                Ht Hid Hdb0 Hp0 Hl0 H1 H2 H3)
      as [st1 [st2 [st3 [r1 [r2 [r3 [A [B [C [D [E [F [G H]]]]]]]]]]]]].
    exists st1, st2, st3, r1, r2, r3.
    repeat (split; [assumption|]).
    intros st [Ea [Eb [Ec [Ed Ee]]]] fuel e.
    assert (Hmax : (maxRetries <= retry_count r3)%nat) by (rewrite Ed; reflexivity).
    destruct (exhausted_pass fuel e st t r3 Ht Ea Ee Ec Hmax Eb)
      as [st' [Hq [Hdb' [Hmem' [Ht' Hi']]]]].
    exists st'. split; [exact Hq|]. split; [|exact Ht'].
    repeat split; auto; congruence.
  - intros t trace Hu m.
    destruct (rows_at_rest_left_alone t trace Hu) as [A [_ C]].
    fold m in A, C. split.
    + intros p item it r Hin Hi Hit Hr Hid.
      destruct (A p item it r Hin Hi Hit Hr Hid) as [_ H].
      destruct p; auto.
    + intros x r Hr Hc. apply C; [exact Hr | now right].
Qed.

Lemma three_failures_exhaust_retries_witness :
  settled done_before /\
  has_id "a" done_before = false /\
  failing_pass (queueItem_of (checkin "a" None) 1000) (always_refused 1001) /\
  failing_pass (queueItem_of (checkin "a" None) 1000) (always_refused 2000) /\
  failing_pass (queueItem_of (checkin "a" None) 1000) (always_refused 3000) /\
  exists st3 r3,
    id r3 = "a" /\
    exhausted done_before r3 st3 /\
    retryTimer st3 = Some 10000.
Proof.
  assert (Hs : settled done_before).
  { intros r [<-|[]]. reflexivity. }
  assert (Hf : forall now, 0 <= now ->
             failing_pass (queueItem_of (checkin "a" None) 1000) (always_refused now)).
  { intros now Hnow. unfold failing_pass; simpl.
    repeat split; auto. left. reflexivity. }
  assert (H1 : 0 <= 1001) by lia.
  assert (H2 : 0 <= 2000) by lia.
  assert (H3 : 0 <= 3000) by lia.
  split; [exact Hs|]. split; [reflexivity|].
  split; [exact (Hf _ H1)|]. split; [exact (Hf _ H2)|]. split; [exact (Hf _ H3)|].
  destruct three_failures_exhaust_retries as [_ [_ [Hcourse _]]].
  destruct (Hcourse done_before (checkin "a" None) 1000
              (always_refused 1001) (always_refused 2000) (always_refused 3000)
              ByNetwork ByNetwork
              (setupNetworkMonitoring (boot done_before))
              Hs eq_refl eq_refl eq_refl (Nat.lt_0_succ 0)
              (Hf _ H1) (Hf _ H2) (Hf _ H3))
    as [st1 [st2 [st3 [r1 [r2 [r3 [_ [_ [_ [_ [_ [Hid [Hex [Ht _]]]]]]]]]]]]]].
  exists st3, r3. split; [exact Hid|]. split; [exact Hex | exact Ht].
Defined.
